(** * MultiBucket: provider selection and usage accounting

    A shallow embedding of the [MultiBucket] class of the multibucket
    package (index.js): the provider registry, the usage tracker, the four
    load-balancing strategies with the rate-limit gate, the configuration
    merge, the statistics snapshot and the upload-URL generator.

    Conventions of the embedding.
    - The instance fields [providers], [loadBalanceStrategy],
      [defaultExpiry], [currentProviderIndex] and [providerUsage] form the
      record [MultiBucket]; every method takes the state and returns the
      state it leaves behind next to its result.  A JavaScript exception is
      the [Throw] result; the state returned with it is the state at the
      point of the throw (mutations made before it persist).
    - [providerUsage] is a plain object used as a dictionary keyed by the
      provider id: a [gmap string Usage.t], in which a lookup is the read
      [this.providerUsage[id]] and an insertion the assignment to it.  The
      binding [const providerUsage = this.providerUsage[selectedProvider.id]]
      of [getStorageProvider] is a reference to the record stored under
      that key, so the writes made through it are writes to that key.  The
      entry under ["__proto__"] is the record that an assignment to that
      key makes the prototype of the object: reads and writes reach it,
      the enumeration of the own properties ([own]) leaves it out.  A
      lookup of an id under which nothing was stored is [undefined]: apart
      from ["__proto__"], the names that a plain object inherits
      (["constructor"], ["toString"], ...) are not taken to be ids that
      are looked up without a record.
    - Counters and millisecond timestamps are integers ([Z]); they are exact
      in binary64 below 2^53.  Weights, rate limits and the result of
      [Math.random()] are rationals ([Q]), and the arithmetic on them is
      exact, where the source computes in binary64.  Where the source
      divides two counters and formats the quotient in decimal ([toFixed])
      the division is made in binary64 itself ([SpecFloat]), since the
      digits depend on its rounding.  Where it compares (the gate, the
      cumulative scan of weighted-random, the quotients of least-errors)
      the comparison is made on the exact rationals.  Rounding is monotone,
      so an exact [x <= y] holds of the rounded values too; a strict
      [x < y] can be lost to rounding.  The properties that depend on a
      strict comparison therefore carry the range on which binary64 keeps
      it ([counters_small], [whole_limits], [exact_draw]).
    - An [expiry] is a whole number of seconds ([Z]).
    - [Date.now()], [Math.random()], [crypto.randomUUID()] and the AWS
      request signer are inputs of the methods that consult them.  An
      [async] method is run to completion: the [await] on the signer is
      answered at once, no other call interleaves. *)

From Stdlib Require Import ZArith QArith Ascii String SpecFloat Lia Lqa.
From stdpp Require Import base option list gmap strings pretty.

Local Open Scope string_scope.

(** ** Exceptions and results *)

Inductive JsError :=
| Error (message : string) (providerInfo : option string)
| TypeError (message : string)
| RangeError (message : string).

Definition message (e : JsError) : string :=
  match e with
  | Error m _ => m
  | TypeError m => m
  | RangeError m => m
  end.

Definition providerInfo (e : JsError) : option string :=
  match e with
  | Error _ i => i
  | TypeError _ => None
  | RangeError _ => None
  end.

Inductive Res (A : Type) :=
| Ok (a : A)
| Throw (e : JsError).
Arguments Ok {A} a.
Arguments Throw {A} e.

#[global] Instance Res_ret : MRet Res := λ A a, Ok a.
#[global] Instance Res_bind : MBind Res := λ A B f r,
  match r with
  | Ok a => f a
  | Throw e => Throw e
  end.
#[global] Instance Res_fmap : FMap Res := λ A B f r,
  match r with
  | Ok a => Ok (f a)
  | Throw e => Throw e
  end.

(** Reading a property of [undefined]. *)
Definition undefined_read (prop : string) : JsError :=
  TypeError ("Cannot read properties of undefined (reading '" +:+ prop +:+ "')").

(** ** Numbers *)

Definition Qltb (x y : Q) : bool := negb (Qle_bool y x).

(** [x || d] on an optional number: [undefined] and [0] are falsy. *)
Definition num_or (x : option Q) (d : Q) : Q :=
  match x with
  | Some q => if Qeq_bool q 0 then d else q
  | None => d
  end.

(** [n || d] on an integer counter. *)
Definition Z_or (n d : Z) : Z := if (n =? 0)%Z then d else n.

(** [s || d] on an optional string: [undefined] and the empty string are
    falsy. *)
Definition str_or (x : option string) (d : string) : string :=
  match x with
  | Some EmptyString => d
  | Some s => s
  | None => d
  end.

Definition truthy_str (x : option string) : bool :=
  match x with
  | Some EmptyString => false
  | Some _ => true
  | None => false
  end.

(** ** Data model *)

Module Provider.
(** A provider configuration object.  Every property but [id] may be
    absent: the objects of a configuration update are partial. *)
Record t := mk {
  id : string;
  type : option string;
  bucket : option string;
  region : option string;
  endpoint : option string;
  accessKeyId : option string;
  secretAccessKey : option string;
  weight : option Q;
  publicUrlBase : option string;
  rateLimit : option Q;
  forcePathStyle : option bool
}.

(** [{ ...old, ...new }]: the properties present in [new] win. *)
Definition spread (old new : t) : t :=
  let pick {A} (f : t → option A) :=
    match f new with Some x => Some x | None => f old end in
  {| id := id new;
     type := pick type;
     bucket := pick bucket;
     region := pick region;
     endpoint := pick endpoint;
     accessKeyId := pick accessKeyId;
     secretAccessKey := pick secretAccessKey;
     weight := pick weight;
     publicUrlBase := pick publicUrlBase;
     rateLimit := pick rateLimit;
     forcePathStyle := pick forcePathStyle |}.
End Provider.

Module Usage.
Record t := mk {
  requestCount : Z;
  errorCount : Z;
  lastUsed : Z;
  rateLimit : Q
}.

(** The record created for a provider: counters zeroed,
    [rateLimit: provider.rateLimit || 1000]. *)
Definition fresh (p : Provider.t) : t :=
  {| requestCount := 0;
     errorCount := 0;
     lastUsed := 0;
     rateLimit := num_or (Provider.rateLimit p) 1000 |}.

(** [usage.requestCount++; usage.lastUsed = now] *)
Definition touch (now : Z) (u : t) : t :=
  {| requestCount := requestCount u + 1;
     errorCount := errorCount u;
     lastUsed := now;
     rateLimit := rateLimit u |}.

(** [usage.errorCount++] *)
Definition fail (u : t) : t :=
  {| requestCount := requestCount u;
     errorCount := errorCount u + 1;
     lastUsed := lastUsed u;
     rateLimit := rateLimit u |}.
End Usage.

Record MultiBucket := {
  providers : list Provider.t;
  loadBalanceStrategy : string;
  defaultExpiry : Z;
  currentProviderIndex : nat;
  providerUsage : gmap string Usage.t
}.

Definition set_providers (ps : list Provider.t) (s : MultiBucket) : MultiBucket :=
  {| providers := ps;
     loadBalanceStrategy := loadBalanceStrategy s;
     defaultExpiry := defaultExpiry s;
     currentProviderIndex := currentProviderIndex s;
     providerUsage := providerUsage s |}.

Definition set_loadBalanceStrategy (x : string) (s : MultiBucket) : MultiBucket :=
  {| providers := providers s;
     loadBalanceStrategy := x;
     defaultExpiry := defaultExpiry s;
     currentProviderIndex := currentProviderIndex s;
     providerUsage := providerUsage s |}.

Definition set_defaultExpiry (x : Z) (s : MultiBucket) : MultiBucket :=
  {| providers := providers s;
     loadBalanceStrategy := loadBalanceStrategy s;
     defaultExpiry := x;
     currentProviderIndex := currentProviderIndex s;
     providerUsage := providerUsage s |}.

Definition set_currentProviderIndex (i : nat) (s : MultiBucket) : MultiBucket :=
  {| providers := providers s;
     loadBalanceStrategy := loadBalanceStrategy s;
     defaultExpiry := defaultExpiry s;
     currentProviderIndex := i;
     providerUsage := providerUsage s |}.

Definition set_providerUsage (u : gmap string Usage.t) (s : MultiBucket) : MultiBucket :=
  {| providers := providers s;
     loadBalanceStrategy := loadBalanceStrategy s;
     defaultExpiry := defaultExpiry s;
     currentProviderIndex := currentProviderIndex s;
     providerUsage := u |}.

(** [this.providerUsage[id].prop]: the record, or the [TypeError] of reading
    [prop] on [undefined]. *)
Definition usage_of (usage : gmap string Usage.t) (id prop : string) : Res Usage.t :=
  match usage !! id with
  | Some u => Ok u
  | None => Throw (undefined_read prop)
  end.

(** ** Constructor *)

Module Options.
Record t := mk {
  providers : option (list Provider.t);
  loadBalanceStrategy : option string;
  defaultExpiry : option Z
}.
End Options.

(** The [forEach] of the constructor: a later provider with the same id
    overwrites the record of an earlier one. *)
Definition init_usage (ps : list Provider.t) : gmap string Usage.t :=
  fold_left (λ usage p, <[Provider.id p := Usage.fresh p]> usage) ps ∅.

(** [new MultiBucket(options)] without a [configSource]. *)
Definition constructor (options : Options.t) : MultiBucket :=
  let ps := default [] (Options.providers options) in
  {| providers := ps;
     loadBalanceStrategy := str_or (Options.loadBalanceStrategy options) "round-robin";
     defaultExpiry :=
       match Options.defaultExpiry options with
       | Some e => Z_or e 3600
       | None => 3600%Z
       end;
     currentProviderIndex := 0;
     providerUsage := init_usage ps |}.

(** ** getStorageProvider *)

(** [Array.prototype.reduce] with a callback that may throw. *)
Fixpoint reduce {A B : Type} (f : B → A → Res B) (l : list A) (acc : B) : Res B :=
  match l with
  | [] => Ok acc
  | x :: l' => acc' ← f acc x; reduce f l' acc'
  end.

(** [Array.prototype.find] with a predicate that may throw. *)
Fixpoint find_res {A : Type} (f : A → Res bool) (l : list A) : Res (option A) :=
  match l with
  | [] => Ok None
  | x :: l' => b ← f x; if b : bool then Ok (Some x) else find_res f l'
  end.

(** The callback of the least-used [reduce]. *)
Definition least_used_step (usage : gmap string Usage.t)
    (least current : Provider.t) : Res Provider.t :=
  uc ← usage_of usage (Provider.id current) "requestCount";
  ul ← usage_of usage (Provider.id least) "requestCount";
  Ok (if (Usage.requestCount uc <? Usage.requestCount ul)%Z then current else least).

(** [usage.errorCount / (usage.requestCount || 1)], as an exact quotient.
    Two such quotients of counters below 2^26 that differ are more than
    one unit of binary64 apart, so that the source's comparison of the
    rounded quotients is the comparison of the exact ones
    ([counters_small]). *)
Definition error_rate (u : Usage.t) : Q :=
  (inject_Z (Usage.errorCount u) / inject_Z (Z_or (Usage.requestCount u) 1))%Q.

(** The callback of the least-errors [reduce]. *)
Definition least_errors_step (usage : gmap string Usage.t)
    (least current : Provider.t) : Res Provider.t :=
  ul ← usage_of usage (Provider.id least) "errorCount";
  uc ← usage_of usage (Provider.id current) "errorCount";
  let leastErrorRate := error_rate ul in
  let currentErrorRate := error_rate uc in
  Ok (if Qltb currentErrorRate leastErrorRate then current else least).

(** [provider.weight || 1] *)
Definition weight_of (p : Provider.t) : Q := num_or (Provider.weight p) 1.

Definition totalWeight (ps : list Provider.t) : Q :=
  fold_left (λ sum provider, (sum + weight_of provider)%Q) ps 0%Q.

(** The [for … of] loop of weighted-random: [None] when the loop ends
    without a selection.  The subtractions are exact; those of the source
    are when the draw and the weights are dyadic numbers of few digits
    ([exact_draw]). *)
Fixpoint weighted_scan (random : Q) (ps : list Provider.t) : option Provider.t :=
  match ps with
  | [] => None
  | provider :: ps' =>
      let weight := weight_of provider in
      if Qltb random weight then Some provider
      else weighted_scan (random - weight)%Q ps'
  end.

(** [now - usage.lastUsed < 1000 / usage.rateLimit].  A zero [rateLimit]
    makes the quotient [Infinity].  The quotient is exact; the source
    rounds it to binary64, which can turn a strict [<] into an equality.
    For a limit that is a whole number and times below 2^53 it cannot:
    the quotient is then further from every integer it is not than
    binary64 rounds ([whole_limits]). *)
Definition rate_limited (now : Z) (u : Usage.t) : bool :=
  if Qeq_bool (Usage.rateLimit u) 0 then true
  else Qltb (inject_Z (now - Usage.lastUsed u)) (1000 / Usage.rateLimit u)%Q.

(** [now - usage.lastUsed >= 1000 / usage.rateLimit] *)
Definition available (now : Z) (u : Usage.t) : bool :=
  if Qeq_bool (Usage.rateLimit u) 0 then false
  else Qle_bool (1000 / Usage.rateLimit u)%Q (inject_Z (now - Usage.lastUsed u)).

(** The [switch] on the strategy: the candidate ([None] is [undefined]) and
    the state after it.  [first] is [this.providers[0]], which exists once
    the length check has passed; [random] is the value of [Math.random()]. *)
Definition select_by_strategy (random : Q) (first : Provider.t) (s : MultiBucket)
    : Res (option Provider.t) * MultiBucket :=
  let ps := providers s in
  let usage := providerUsage s in
  if String.eqb (loadBalanceStrategy s) "round-robin" then
    (Ok (ps !! currentProviderIndex s),
     set_currentProviderIndex ((currentProviderIndex s + 1) mod length ps) s)
  else if String.eqb (loadBalanceStrategy s) "least-used" then
    (Some <$> reduce (least_used_step usage) ps first, s)
  else if String.eqb (loadBalanceStrategy s) "least-errors" then
    (Some <$> reduce (least_errors_step usage) ps first, s)
  else if String.eqb (loadBalanceStrategy s) "weighted-random" then
    let random := (random * totalWeight ps)%Q in
    (Ok (Some (default first (weighted_scan random ps))), s)
  else
    (Ok (Some first), s).

(** The predicate of the [find] in the rate-limit gate. *)
Definition is_available (usage : gmap string Usage.t) (now : Z)
    (p : Provider.t) : Res bool :=
  u ← usage_of usage (Provider.id p) "lastUsed";
  Ok (available now u).

(** The part of [getStorageProvider] after the [switch]: [selected] is the
    strategy's candidate.  The usage record fetched before the gate is the
    one updated at the end. *)
Definition gate_and_update (now : Z) (selected : option Provider.t)
    (s : MultiBucket) : Res Provider.t * MultiBucket :=
  match selected with
  | None => (Throw (undefined_read "id"), s)
  | Some selectedProvider =>
      match providerUsage s !! Provider.id selectedProvider with
      | None => (Throw (undefined_read "lastUsed"), s)
      | Some usage =>
          let found :=
            if rate_limited now usage then
              availableProvider ← find_res (is_available (providerUsage s) now) (providers s);
              Ok (default selectedProvider availableProvider)
            else Ok selectedProvider in
          match found with
          | Throw e => (Throw e, s)
          | Ok selectedProvider' =>
              (Ok selectedProvider',
               set_providerUsage
                 (<[Provider.id selectedProvider := Usage.touch now usage]> (providerUsage s)) s)
          end
      end
  end.

Definition getStorageProvider (now : Z) (random : Q) (s : MultiBucket)
    : Res Provider.t * MultiBucket :=
  match providers s with
  | [] => (Throw (Error "No storage providers configured" None), s)
  | first :: _ =>
      match select_by_strategy random first s with
      | (Throw e, s') => (Throw e, s')
      | (Ok selected, s') => gate_and_update now selected s'
      end
  end.

(** ** updateConfig *)

Module Config.
Record t := mk {
  providers : option (list Provider.t);
  removeStaleProviders : bool;
  loadBalanceStrategy : option string;
  defaultExpiry : option Z
}.
End Config.

(** The callback of the [forEach] over [configData.providers]:
    [findIndex] by id, then either the spread into the existing slot or the
    [push] with a fresh usage record. *)
Definition merge_provider (s : MultiBucket) (newProvider : Provider.t) : MultiBucket :=
  match list_find (λ p, Provider.id p = Provider.id newProvider) (providers s) with
  | Some (existingProviderIndex, existing) =>
      set_providers
        (<[existingProviderIndex := Provider.spread existing newProvider]> (providers s)) s
  | None =>
      set_providerUsage
        (<[Provider.id newProvider := Usage.fresh newProvider]> (providerUsage s))
        (set_providers (providers s ++ [newProvider]) s)
  end.

(** [this.providers.filter(p => newProviderIds.includes(p.id))] *)
Definition remove_stale (incoming : list Provider.t) (s : MultiBucket) : MultiBucket :=
  let newProviderIds := Provider.id <$> incoming in
  set_providers (filter (λ p, Provider.id p ∈ newProviderIds) (providers s)) s.

Definition updateConfig (configData : Config.t) (s : MultiBucket) : MultiBucket :=
  let s1 :=
    match Config.providers configData with
    | Some incoming =>
        let s' := fold_left merge_provider incoming s in
        if Config.removeStaleProviders configData then remove_stale incoming s' else s'
    | None => s
    end in
  let s2 :=
    if truthy_str (Config.loadBalanceStrategy configData)
    then set_loadBalanceStrategy (default EmptyString (Config.loadBalanceStrategy configData)) s1
    else s1 in
  match Config.defaultExpiry configData with
  | Some e => if (e =? 0)%Z then s2 else set_defaultExpiry e s2
  | None => s2
  end.

(** ** Number.prototype.toFixed on binary64 *)

Definition binary64_of_Z (n : Z) : spec_float := binary_normalize 53 1024 n 0 false.

(** [x / y] on two integer-valued numbers. *)
Definition js_div (x y : Z) : spec_float :=
  SFdiv 53 1024 (binary64_of_Z x) (binary64_of_Z y).

(** The integer [n] for which [n / 10^f - m * 2^e] is as close to zero as
    possible, the larger one when there are two. *)
Definition nearest_scaled (f : nat) (m : positive) (e : Z) : Z :=
  let scaled := (Z.pos m * 10 ^ Z.of_nat f)%Z in
  if (0 <=? e)%Z then (scaled * 2 ^ e)%Z
  else ((2 * scaled + 2 ^ (- e)) / 2 ^ (1 - e))%Z.

Fixpoint zeros (k : nat) : string :=
  match k with
  | O => EmptyString
  | S k' => "0" +:+ zeros k'
  end.

(** The digits of [n], padded to [f + 1] characters, with the point before
    the last [f]. *)
Definition fixed_digits (f : nat) (n : Z) : string :=
  let m := pretty (Z.to_N n) in
  let m := zeros (S f - String.length m) +:+ m in
  match f with
  | O => m
  | _ =>
      let k := String.length m in
      substring 0 (k - f) m +:+ "." +:+ substring (k - f) f m
  end.

(** [x.toFixed(f)] for [x] below 10^21 in magnitude (above, the source
    language falls back to [String(x)]; a quotient of two counters below
    2^53 never gets there). *)
Definition toFixed (f : nat) (x : spec_float) : string :=
  match x with
  | S754_nan => "NaN"
  | S754_infinity false => "Infinity"
  | S754_infinity true => "-Infinity"
  | S754_zero _ => fixed_digits f 0
  | S754_finite s m e =>
      (if s then "-" else EmptyString) +:+ fixed_digits f (nearest_scaled f m e)
  end.

(** ** getStats *)

(** [errorRate] is the string made by [toFixed] or the number [0]. *)
Inductive ErrorRate :=
| RateString (s : string)
| RateNumber (n : Z).

Module ProviderStat.
Record t := mk {
  id : string;
  type : option string;
  requestCount : Z;
  errorCount : Z;
  errorRate : ErrorRate
}.
End ProviderStat.

Module Stats.
Record t := mk {
  providerCount : nat;
  totalRequests : Z;
  providerStats : list ProviderStat.t
}.
End Stats.

(** The own properties of the object.  An assignment to the key
    ["__proto__"] does not create a property: it makes the record the
    prototype of the object, where [usage["__proto__"]] reads it and
    writes through it, but where [Object.keys] and [Object.values] do not
    see it. *)
Definition own (usage : gmap string Usage.t) : gmap string Usage.t :=
  delete "__proto__" usage.

(** [Object.values(usage)] *)
Definition own_values (usage : gmap string Usage.t) : list Usage.t :=
  snd <$> map_to_list (own usage).

(** [Object.values(this.providerUsage).reduce((sum, usage) => sum + usage.requestCount, 0)] *)
Definition totalRequests (usage : gmap string Usage.t) : Z :=
  fold_left (λ sum u, (sum + Usage.requestCount u)%Z) (own_values usage) 0%Z.

Definition errorRate_of (u : Usage.t) : ErrorRate :=
  if (Usage.requestCount u >? 0)%Z
  then RateString (toFixed 4 (js_div (Usage.errorCount u) (Usage.requestCount u)))
  else RateNumber 0.

(** The callback of the [map] over the providers. *)
Definition provider_stat (usage : gmap string Usage.t) (provider : Provider.t)
    : Res ProviderStat.t :=
  u ← usage_of usage (Provider.id provider) "requestCount";
  Ok {| ProviderStat.id := Provider.id provider;
        ProviderStat.type := Provider.type provider;
        ProviderStat.requestCount := Usage.requestCount u;
        ProviderStat.errorCount := Usage.errorCount u;
        ProviderStat.errorRate := errorRate_of u |}.

(** [Array.prototype.map] with a callback that may throw. *)
Fixpoint map_res {A B : Type} (f : A → Res B) (l : list A) : Res (list B) :=
  match l with
  | [] => Ok []
  | x :: l' => y ← f x; ys ← map_res f l'; Ok (y :: ys)
  end.

Definition getStats (s : MultiBucket) : Res Stats.t :=
  stats ← map_res (provider_stat (providerUsage s)) (providers s);
  Ok {| Stats.providerCount := length (providers s);
        Stats.totalRequests := totalRequests (providerUsage s);
        Stats.providerStats := stats |}.

(** ** createClient *)

Module Client.
(** The options handed to [new S3Client(…)]. *)
Record t := mk {
  region : option string;
  endpoint : option string;
  accessKeyId : option string;
  secretAccessKey : option string;
  forcePathStyle : bool
}.
End Client.

(** An optional string inside a template literal. *)
Definition interpolate (x : option string) : string := default "undefined" x.

Definition createClient (provider : Provider.t) : Res Client.t :=
  if decide (Provider.type provider = Some "s3") then
    Ok {| Client.region := Provider.region provider;
          Client.endpoint := Provider.endpoint provider;
          Client.accessKeyId := Provider.accessKeyId provider;
          Client.secretAccessKey := Provider.secretAccessKey provider;
          Client.forcePathStyle := default false (Provider.forcePathStyle provider) |}
  else if decide (Provider.type provider = Some "r2") then
    Ok {| Client.region := Some "auto";
          Client.endpoint := Provider.endpoint provider;
          Client.accessKeyId := Provider.accessKeyId provider;
          Client.secretAccessKey := Provider.secretAccessKey provider;
          Client.forcePathStyle := true |}
  else
    Throw (Error ("Unsupported provider type: " +:+ interpolate (Provider.type provider)) None).

(** ** generateUploadUrl *)

Module UploadOptions.
Record t := mk {
  filename : string;
  contentType : string;
  expiry : option Z;
  path : option string;
  providerId : option string
}.
End UploadOptions.

Module PutObjectCommand.
Record t := mk {
  Bucket : option string;
  Key : string;
  ContentType : string
}.
End PutObjectCommand.

Module UploadUrl.
(** [publicUrl] is [null] when absent; [expires] is kept as the
    millisecond timestamp handed to [toISOString]. *)
Record t := mk {
  uploadUrl : string;
  publicUrl : option string;
  key : string;
  bucket : option string;
  provider : string;
  expires : Z
}.
End UploadUrl.

Module World.
(** What one call of [generateUploadUrl] reads from outside: the clock at
    selection time, [Math.random()], [crypto.randomUUID()], the answer of
    [getSignedUrl] and the clock when the result is assembled. *)
Record t := mk {
  now : Z;
  random : Q;
  randomUUID : string;
  getSignedUrl : Client.t → PutObjectCommand.t → Z → Res string;
  now_result : Z
}.
End World.

(** [s.replace(/^\//, '')] *)
Definition strip_leading_slash (s : string) : string :=
  match s with
  | String "/"%char s' => s'
  | _ => s
  end.

(** [s.replace(/\/$/g, '')] *)
Fixpoint strip_trailing_slash (s : string) : string :=
  match s with
  | EmptyString => EmptyString
  | String c EmptyString => if Ascii.eqb c "/"%char then EmptyString else s
  | String c s' => String c (strip_trailing_slash s')
  end.

(** [s.replace(/^\/|\/$/g, '')] *)
Definition strip_slashes (s : string) : string :=
  strip_trailing_slash (strip_leading_slash s).

Definition object_key (path : option string) (uniqueId filename : string) : string :=
  if truthy_str path
  then strip_slashes (default EmptyString path) +:+ "/" +:+ uniqueId +:+ "-" +:+ filename
  else uniqueId +:+ "-" +:+ filename.

Definition public_url (provider : Provider.t) (key : string) : option string :=
  let custom :=
    strip_trailing_slash (default EmptyString (Provider.publicUrlBase provider)) +:+ "/" +:+ key in
  if decide (Provider.type provider = Some "s3") then
    if truthy_str (Provider.publicUrlBase provider) then Some custom
    else Some ("https://" +:+ interpolate (Provider.bucket provider) +:+ ".s3."
               +:+ interpolate (Provider.region provider) +:+ ".amazonaws.com/" +:+ key)
  else
    if truthy_str (Provider.publicUrlBase provider) then Some custom else None.

(** [new Date(t).toISOString()]: a time value beyond 8.64e15 ms makes an
    invalid date, on which [toISOString] throws. *)
Definition toISOString (t : Z) : Res Z :=
  if (Z.abs t <=? 8640000000000000)%Z then Ok t
  else Throw (RangeError "Invalid time value").

(** The body of the [try] block. *)
Definition generateUploadUrl_try (w : World.t) (options : UploadOptions.t)
    (s : MultiBucket) : Res UploadUrl.t * MultiBucket :=
  let resolved :=
    if truthy_str (UploadOptions.providerId options) then
      match find (λ p, bool_decide (Some (Provider.id p) = UploadOptions.providerId options))
                 (providers s) with
      | Some p => (Ok p, s)
      | None =>
          (Throw (Error ("Provider not found: "
                         +:+ interpolate (UploadOptions.providerId options)) None), s)
      end
    else getStorageProvider (World.now w) (World.random w) s in
  match resolved with
  | (Throw e, s') => (Throw e, s')
  | (Ok provider, s') =>
      (client ← createClient provider;
       let uniqueId := World.randomUUID w in
       let key := object_key (UploadOptions.path options) uniqueId
                    (UploadOptions.filename options) in
       let command :=
         {| PutObjectCommand.Bucket := Provider.bucket provider;
            PutObjectCommand.Key := key;
            PutObjectCommand.ContentType := UploadOptions.contentType options |} in
       let expiry :=
         match UploadOptions.expiry options with
         | Some e => Z_or e (defaultExpiry s')
         | None => defaultExpiry s'
         end in
       signedUrl ← World.getSignedUrl w client command expiry;
       expires ← toISOString (World.now_result w + expiry * 1000);
       Ok {| UploadUrl.uploadUrl := signedUrl;
             UploadUrl.publicUrl := public_url provider key;
             UploadUrl.key := key;
             UploadUrl.bucket := Provider.bucket provider;
             UploadUrl.provider := Provider.id provider;
             UploadUrl.expires := expires |},
       s')
  end.

(** The [catch] block: count the error against [error.providerInfo.id] when
    that names a usage record, then rethrow wrapped. *)
Definition generateUploadUrl_catch (error : JsError) (s : MultiBucket)
    : JsError * MultiBucket :=
  let s' :=
    match providerInfo error with
    | Some id =>
        match providerUsage s !! id with
        | Some u => set_providerUsage (<[id := Usage.fail u]> (providerUsage s)) s
        | None => s
        end
    | None => s
    end in
  (Error ("Failed to generate upload URL: " +:+ message error) None, s').

Definition generateUploadUrl (w : World.t) (options : UploadOptions.t)
    (s : MultiBucket) : Res UploadUrl.t * MultiBucket :=
  match generateUploadUrl_try w options s with
  | (Ok result, s') => (Ok result, s')
  | (Throw error, s') =>
      let (error', s'') := generateUploadUrl_catch error s' in (Throw error', s'')
  end.

(** ** generateReadUrl *)

Module ReadOptions.
Record t := mk {
  key : string;
  bucket : option string;
  providerId : option string;
  expiry : option Z
}.
End ReadOptions.

Module GetObjectCommand.
Record t := mk {
  Bucket : option string;
  Key : string
}.
End GetObjectCommand.

Module ReadUrl.
(** [expires] is kept as the millisecond timestamp handed to
    [toISOString]. *)
Record t := mk {
  readUrl : string;
  key : string;
  bucket : option string;
  provider : string;
  expires : Z
}.
End ReadUrl.

Module ReadWorld.
(** What one call of [generateReadUrl] reads from outside: the answer of
    [getSignedUrl] and the clock when the result is assembled. *)
Record t := mk {
  getSignedUrl : Client.t → GetObjectCommand.t → Z → Res string;
  now_result : Z
}.
End ReadWorld.

(** The provider named by the options: by [providerId] when that is
    given, else by [bucket] when that is given, else [undefined]. *)
Definition read_provider (options : ReadOptions.t) (s : MultiBucket) : option Provider.t :=
  if truthy_str (ReadOptions.providerId options) then
    find (λ p, bool_decide (Some (Provider.id p) = ReadOptions.providerId options))
         (providers s)
  else if truthy_str (ReadOptions.bucket options) then
    find (λ p, bool_decide (Provider.bucket p = ReadOptions.bucket options))
         (providers s)
  else None.

(** The body of the [try] block. *)
Definition generateReadUrl_try (w : ReadWorld.t) (options : ReadOptions.t)
    (s : MultiBucket) : Res ReadUrl.t :=
  match read_provider options s with
  | None =>
      Throw (Error "Provider not found. Please specify a valid providerId or bucket" None)
  | Some provider =>
      client ← createClient provider;
      let command :=
        {| GetObjectCommand.Bucket := Provider.bucket provider;
           GetObjectCommand.Key := ReadOptions.key options |} in
      let expiry :=
        match ReadOptions.expiry options with
        | Some e => Z_or e (defaultExpiry s)
        | None => defaultExpiry s
        end in
      signedUrl ← ReadWorld.getSignedUrl w client command expiry;
      expires ← toISOString (ReadWorld.now_result w + expiry * 1000);
      Ok {| ReadUrl.readUrl := signedUrl;
            ReadUrl.key := ReadOptions.key options;
            ReadUrl.bucket := Provider.bucket provider;
            ReadUrl.provider := Provider.id provider;
            ReadUrl.expires := expires |}
  end.

(** [generateReadUrl] reads the session and writes nothing to it. *)
Definition generateReadUrl (w : ReadWorld.t) (options : ReadOptions.t)
    (s : MultiBucket) : Res ReadUrl.t :=
  match generateReadUrl_try w options s with
  | Ok result => Ok result
  | Throw error => Throw (Error ("Failed to generate read URL: " +:+ message error) None)
  end.

(** ** createServer: the two POST endpoints *)

(** What a handler sends: [res.json(result)] with status 200, or
    [res.status(code).json({ error })]. *)
Inductive Reply (A : Type) :=
| Json (result : A)
| Status (code : nat) (error : string).
Arguments Json {A} result.
Arguments Status {A} code error.

Module UploadBody.
(** [req.body] of [/generate-upload-url]. *)
Record t := mk {
  filename : option string;
  contentType : option string;
  expiry : option Z;
  path : option string;
  providerId : option string
}.
End UploadBody.

Module ReadBody.
(** [req.body] of [/generate-read-url]. *)
Record t := mk {
  key : option string;
  bucket : option string;
  providerId : option string;
  expiry : option Z
}.
End ReadBody.

(** [errorHandler]: status 500 with the message of the error. *)
Definition errorHandler {A : Type} (err : JsError) : Reply A :=
  Status 500 (message err).

(** The handler of [POST /generate-upload-url]. *)
Definition post_generate_upload_url (w : World.t) (body : UploadBody.t)
    (s : MultiBucket) : Reply UploadUrl.t * MultiBucket :=
  if negb (truthy_str (UploadBody.filename body))
     || negb (truthy_str (UploadBody.contentType body))
  then (Status 400 "filename and contentType are required", s)
  else
    match generateUploadUrl w
            {| UploadOptions.filename := default EmptyString (UploadBody.filename body);
               UploadOptions.contentType := default EmptyString (UploadBody.contentType body);
               UploadOptions.expiry := UploadBody.expiry body;
               UploadOptions.path := UploadBody.path body;
               UploadOptions.providerId := UploadBody.providerId body |} s with
    | (Ok result, s') => (Json result, s')
    | (Throw error, s') => (errorHandler error, s')
    end.

(** The handler of [POST /generate-read-url]. *)
Definition post_generate_read_url (w : ReadWorld.t) (body : ReadBody.t)
    (s : MultiBucket) : Reply ReadUrl.t :=
  if negb (truthy_str (ReadBody.key body))
  then Status 400 "key is required"
  else
    match generateReadUrl w
            {| ReadOptions.key := default EmptyString (ReadBody.key body);
               ReadOptions.bucket := ReadBody.bucket body;
               ReadOptions.providerId := ReadBody.providerId body;
               ReadOptions.expiry := ReadBody.expiry body |} s with
    | Ok result => Json result
    | Throw error => errorHandler error
    end.

(** ** server.js: the request limiter and the API-key check *)

Module Window.
(** One entry of [apiRateLimit]. *)
Record t := mk {
  count : Z;
  resetTime : Z
}.
End Window.

(** The rate limiting middleware: [true] when the request is passed on
    with [next()], [false] when it is answered with status 429. *)
Definition rate_limit_middleware (ip : string) (now : Z)
    (apiRateLimit : gmap string Window.t) : bool * gmap string Window.t :=
  let limit :=
    match apiRateLimit !! ip with
    | Some limit => limit
    | None => {| Window.count := 0; Window.resetTime := now + 60000 |}
    end in
  let limit :=
    if (now >? Window.resetTime limit)%Z
    then {| Window.count := 0; Window.resetTime := now + 60000 |}
    else limit in
  let limit :=
    {| Window.count := Window.count limit + 1;
       Window.resetTime := Window.resetTime limit |} in
  (negb (Window.count limit >? 100)%Z, <[ip := limit]> apiRateLimit).

(** [s.replace(pattern, replacement)] with a string pattern: the first
    occurrence is replaced. *)
Fixpoint replace_first (pattern replacement s : string) : string :=
  if String.prefix pattern s
  then replacement +:+ String.substring (String.length pattern)
                         (String.length s - String.length pattern) s
  else
    match s with
    | EmptyString => s
    | String c s' => String c (replace_first pattern replacement s')
    end.

(** The key a request presents:
    [req.header('Authorization')?.replace('Bearer ', '') || req.query.apiKey]. *)
Definition presented_key (authorization queryApiKey : option string) : option string :=
  let fromHeader := replace_first "Bearer " EmptyString <$> authorization in
  if truthy_str fromHeader then fromHeader else queryApiKey.

(** [authenticate]: [true] when the request is passed on, [false] when it
    is answered with status 401. *)
Definition authenticate (apiKeys : list string) (authorization queryApiKey : option string)
    : bool :=
  let apiKey := presented_key authorization queryApiKey in
  negb (negb (truthy_str apiKey)
        || negb (bool_decide (default EmptyString apiKey ∈ apiKeys))).

(** * Vocabulary of the properties and example sessions *)

(** Every provider of the registry has a usage record. *)
Definition usage_complete (s : MultiBucket) : Prop :=
  ∀ p, p ∈ providers s → is_Some (providerUsage s !! Provider.id p).

(** No usage record holds a zero rate limit. *)
Definition limits_nonzero (s : MultiBucket) : Prop :=
  ∀ id u, providerUsage s !! id = Some u → ¬ (Usage.rateLimit u == 0)%Q.

Definition well_formed (s : MultiBucket) : Prop :=
  usage_complete s ∧ limits_nonzero s.

(** The copy of the limit in the usage record agrees with the provider's
    configured limit: [usage.rateLimit = provider.rateLimit || 1000]. *)
Definition limits_in_sync (s : MultiBucket) : Prop :=
  ∀ p, p ∈ providers s →
       ∃ u, providerUsage s !! Provider.id p = Some u ∧
            Usage.rateLimit u = num_or (Provider.rateLimit p) 1000.

(** In round-robin the cursor has to point into the list; every other
    strategy always has a candidate. *)
Definition cursor_in_range (s : MultiBucket) : Prop :=
  loadBalanceStrategy s = "round-robin" →
  currentProviderIndex s < length (providers s).

(** The provider's own gate is satisfied:
    [now - lastUsed >= 1000 / rateLimit] on its usage record. *)
Definition gate_satisfied (usage : gmap string Usage.t) (now : Z) (p : Provider.t) : Prop :=
  ∃ u, usage !! Provider.id p = Some u ∧
       (1000 / Usage.rateLimit u <= inject_Z (now - Usage.lastUsed u))%Q.

(** [p] is the first provider of [ps], in list order, whose gate is
    satisfied. *)
Definition first_satisfied (usage : gmap string Usage.t) (now : Z)
    (ps : list Provider.t) (p : Provider.t) : Prop :=
  ∃ i, ps !! i = Some p ∧ gate_satisfied usage now p ∧
       ∀ j q, j < i → ps !! j = Some q → ¬ gate_satisfied usage now q.

(** The states a session can be in: built by the constructor and changed
    by the methods. *)
Inductive reachable : MultiBucket → Prop :=
| reach_constructor options :
    reachable (constructor options)
| reach_updateConfig configData s :
    reachable s → reachable (updateConfig configData s)
| reach_getStorageProvider now random s :
    reachable s → reachable (getStorageProvider now random s).2
| reach_generateUploadUrl w options s :
    reachable s → reachable (generateUploadUrl w options s).2.

(** A provider object with only its [id] set. *)
Definition bare (id : string) : Provider.t :=
  {| Provider.id := id; Provider.type := None; Provider.bucket := None;
     Provider.region := None; Provider.endpoint := None;
     Provider.accessKeyId := None; Provider.secretAccessKey := None;
     Provider.weight := None; Provider.publicUrlBase := None;
     Provider.rateLimit := None; Provider.forcePathStyle := None |}.

Definition with_rateLimit (r : Q) (p : Provider.t) : Provider.t :=
  Provider.spread p
    {| Provider.id := Provider.id p; Provider.type := None; Provider.bucket := None;
       Provider.region := None; Provider.endpoint := None;
       Provider.accessKeyId := None; Provider.secretAccessKey := None;
       Provider.weight := None; Provider.publicUrlBase := None;
       Provider.rateLimit := Some r; Provider.forcePathStyle := None |}.

Definition with_weight (w : Q) (p : Provider.t) : Provider.t :=
  Provider.spread p
    {| Provider.id := Provider.id p; Provider.type := None; Provider.bucket := None;
       Provider.region := None; Provider.endpoint := None;
       Provider.accessKeyId := None; Provider.secretAccessKey := None;
       Provider.weight := Some w; Provider.publicUrlBase := None;
       Provider.rateLimit := None; Provider.forcePathStyle := None |}.

Module Slow.
(** [A] is limited to one request per second, [B] keeps the default of
    1000 per second; round-robin; three calls at 1000000 ms, 1000001 ms
    and 1000003 ms. *)
Definition A : Provider.t := with_rateLimit 1 (bare "A").
Definition B : Provider.t := bare "B".
Definition session0 : MultiBucket :=
  constructor {| Options.providers := Some [A; B];
                 Options.loadBalanceStrategy := Some "round-robin";
                 Options.defaultExpiry := None |}.
Definition session1 : MultiBucket := (getStorageProvider 1000000 0 session0).2.
Definition session2 : MultiBucket := (getStorageProvider 1000001 0 session1).2.
Definition session3 : MultiBucket := (getStorageProvider 1000003 0 session2).2.
End Slow.

(** Case analysis on membership in a two-element list. *)
Ltac two_providers H :=
  apply elem_of_cons in H as [->|H];
  [|apply elem_of_cons in H as [->|H]; [|by apply elem_of_nil in H]].

Module Weighted.
(** Weights [{A: 1, B: 0}], fresh usage records. *)
Definition A : Provider.t := with_weight 1 (bare "A").
Definition B : Provider.t := with_weight 0 (bare "B").
Definition session : MultiBucket :=
  constructor {| Options.providers := Some [A; B];
                 Options.loadBalanceStrategy := Some "weighted-random";
                 Options.defaultExpiry := None |}.
End Weighted.

Module Reload.
(** The registry of the configuration examples: ["s3-main"] limited to
    100 requests per second and ["r2-x"], each selected once (at
    1000000 ms and 1000001 ms) before a configuration update arrives. *)
Definition s3_main : Provider.t :=
  {| Provider.id := "s3-main"; Provider.type := Some "s3";
     Provider.bucket := Some "my-main-bucket"; Provider.region := Some "us-east-1";
     Provider.endpoint := None; Provider.accessKeyId := Some "AKIAEXAMPLE";
     Provider.secretAccessKey := Some "secret-key-example";
     Provider.weight := Some 3%Q; Provider.publicUrlBase := None;
     Provider.rateLimit := Some 100%Q; Provider.forcePathStyle := None |}.
Definition r2_x : Provider.t :=
  {| Provider.id := "r2-x"; Provider.type := Some "r2";
     Provider.bucket := Some "my-r2-bucket"; Provider.region := None;
     Provider.endpoint := Some "https://account-id.r2.cloudflarestorage.com";
     Provider.accessKeyId := Some "R2-ACCESS-KEY";
     Provider.secretAccessKey := Some "r2-secret-key-example";
     Provider.weight := Some 1%Q; Provider.publicUrlBase := Some "https://cdn.example.com";
     Provider.rateLimit := None; Provider.forcePathStyle := None |}.
Definition session0 : MultiBucket :=
  constructor {| Options.providers := Some [s3_main; r2_x];
                 Options.loadBalanceStrategy := None;
                 Options.defaultExpiry := None |}.
Definition session1 : MultiBucket := (getStorageProvider 1000000 0 session0).2.
Definition session2 : MultiBucket := (getStorageProvider 1000001 0 session1).2.

(** [{providers: [{id: "s3-main"}], removeStaleProviders: true}] *)
Definition drop_r2_x : Config.t :=
  {| Config.providers := Some [bare "s3-main"];
     Config.removeStaleProviders := true;
     Config.loadBalanceStrategy := None;
     Config.defaultExpiry := None |}.

(** [{providers: [{id: "s3-main", rateLimit: 200}], removeStaleProviders: false}] *)
Definition raise_limit : Config.t :=
  {| Config.providers := Some [with_rateLimit 200 (bare "s3-main")];
     Config.removeStaleProviders := false;
     Config.loadBalanceStrategy := None;
     Config.defaultExpiry := None |}.
End Reload.

Definition sum_Z (l : list Z) : Z := foldr Z.add 0%Z l.

Module Snapshot.
(** The state of the "should return correct stats" test: counters set to
    100 requests / 5 errors and 50 requests / 2 errors. *)
Definition session : MultiBucket :=
  set_providerUsage
    (<["s3-main" := {| Usage.requestCount := 100; Usage.errorCount := 5;
                       Usage.lastUsed := 0; Usage.rateLimit := 100 |}]>
       (<["r2-x" := {| Usage.requestCount := 50; Usage.errorCount := 2;
                       Usage.lastUsed := 0; Usage.rateLimit := 1000 |}]>
          (providerUsage Reload.session0)))
    Reload.session0.
End Snapshot.

(** The error rate the strategy sees for a provider. *)
Definition rate_of (usage : gmap string Usage.t) (p : Provider.t) : Q :=
  default 0%Q (error_rate <$> usage !! Provider.id p).

(** The decision of the [reduce] callback. *)
Definition lower_rate (rate : Provider.t → Q) (least current : Provider.t) : Provider.t :=
  if Qltb (rate current) (rate least) then current else least.

(** [this.providerUsage[id] = u], as the test-suite sets counters. *)
Definition assign_usage (id : string) (u : Usage.t) (s : MultiBucket) : MultiBucket :=
  set_providerUsage (<[id := u]> (providerUsage s)) s.

Module Errors.
(** Three providers under least-errors.  [A] has never been selected but
    has 2 recorded errors; [B] has the lowest rate (1 error in 4
    requests), is limited to one request per second and was last used at
    1000000 ms; [C] has 5 errors in 10 requests. *)
Definition A : Provider.t := bare "A".
Definition B : Provider.t := with_rateLimit 1 (bare "B").
Definition C : Provider.t := bare "C".
Definition usageA : Usage.t :=
  {| Usage.requestCount := 0; Usage.errorCount := 2;
     Usage.lastUsed := 0; Usage.rateLimit := 1000 |}.
Definition usageB : Usage.t :=
  {| Usage.requestCount := 4; Usage.errorCount := 1;
     Usage.lastUsed := 1000000; Usage.rateLimit := 1 |}.
Definition usageC : Usage.t :=
  {| Usage.requestCount := 10; Usage.errorCount := 5;
     Usage.lastUsed := 0; Usage.rateLimit := 1000 |}.
Definition session : MultiBucket :=
  assign_usage "A" usageA (assign_usage "B" usageB (assign_usage "C" usageC
    (constructor {| Options.providers := Some [A; B; C];
                    Options.loadBalanceStrategy := Some "least-errors";
                    Options.defaultExpiry := None |}))).
End Errors.

(** The expiry used by [generateUploadUrl]: [options.expiry || this.defaultExpiry]. *)
Definition upload_expiry (options : UploadOptions.t) (s : MultiBucket) : Z :=
  match UploadOptions.expiry options with
  | Some e => Z_or e (defaultExpiry s)
  | None => defaultExpiry s
  end.

Definition upload_command (options : UploadOptions.t) (w : World.t) (p : Provider.t)
    : PutObjectCommand.t :=
  {| PutObjectCommand.Bucket := Provider.bucket p;
     PutObjectCommand.Key :=
       object_key (UploadOptions.path options) (World.randomUUID w)
         (UploadOptions.filename options);
     PutObjectCommand.ContentType := UploadOptions.contentType options |}.

(** The provider a call of [generateUploadUrl] works for: the one named
    by [options.providerId], or the one that [getStorageProvider]
    selects. *)
Definition upload_resolved (w : World.t) (options : UploadOptions.t) (s : MultiBucket)
    : Res Provider.t * MultiBucket :=
  if truthy_str (UploadOptions.providerId options) then
    match find (λ p, bool_decide (Some (Provider.id p) = UploadOptions.providerId options))
               (providers s) with
    | Some p => (Ok p, s)
    | None =>
        (Throw (Error ("Provider not found: "
                       +:+ interpolate (UploadOptions.providerId options)) None), s)
    end
  else getStorageProvider (World.now w) (World.random w) s.

(** The rest of the [try] block, once the provider is known. *)
Definition upload_signed (w : World.t) (options : UploadOptions.t) (p : Provider.t)
    (s : MultiBucket) : Res UploadUrl.t :=
  client ← createClient p;
  signedUrl ← World.getSignedUrl w client (upload_command options w p)
                (upload_expiry options s);
  expires ← toISOString (World.now_result w + upload_expiry options s * 1000);
  Ok {| UploadUrl.uploadUrl := signedUrl;
        UploadUrl.publicUrl := public_url p (PutObjectCommand.Key (upload_command options w p));
        UploadUrl.key := PutObjectCommand.Key (upload_command options w p);
        UploadUrl.bucket := Provider.bucket p;
        UploadUrl.provider := Provider.id p;
        UploadUrl.expires := expires |}.

Module Upload.
(** A call for ["r2-x"] by id, answered by the signer of the test-suite. *)
Definition world : World.t :=
  {| World.now := 1000005;
     World.random := 0;
     World.randomUUID := "3b241101-e2bb-4255-8caf-4136c566a962";
     World.getSignedUrl := λ client command expiry,
       Ok ("https://" +:+ interpolate (PutObjectCommand.Bucket command)
           +:+ ".example.com/" +:+ PutObjectCommand.Key command
           +:+ "?X-Amz-Algorithm=AWS4-HMAC-SHA256&X-Amz-Credential=EXAMPLE");
     World.now_result := 1000006 |}.
Definition options : UploadOptions.t :=
  {| UploadOptions.filename := "test.jpg";
     UploadOptions.contentType := "image/jpeg";
     UploadOptions.expiry := None;
     UploadOptions.path := Some "uploads";
     UploadOptions.providerId := Some "r2-x" |}.
End Upload.

(** The request count the least-used strategy sees for a provider. *)
Definition count_of (usage : gmap string Usage.t) (p : Provider.t) : Z :=
  default 0%Z (Usage.requestCount <$> usage !! Provider.id p).

(** The decision of the least-used [reduce] callback. *)
Definition fewer_requests (count : Provider.t → Z) (least current : Provider.t)
    : Provider.t :=
  if (count current <? count least)%Z then current else least.

(** Every provider's effective weight is positive. *)
Definition weights_positive (ps : list Provider.t) : Prop :=
  ∀ p, p ∈ ps → (0 < weight_of p)%Q.

(** The cursor is 0 or points into the list. *)
Definition cursor_ok (s : MultiBucket) : Prop :=
  currentProviderIndex s = 0 ∨ currentProviderIndex s < length (providers s).

(** The states a session reaches when no update asks for the removal of
    stale providers. *)
Inductive reachable_without_removal : MultiBucket → Prop :=
| stay_constructor options :
    reachable_without_removal (constructor options)
| stay_updateConfig configData s :
    Config.removeStaleProviders configData = false →
    reachable_without_removal s →
    reachable_without_removal (updateConfig configData s)
| stay_getStorageProvider now random s :
    reachable_without_removal s →
    reachable_without_removal (getStorageProvider now random s).2
| stay_generateUploadUrl w options s :
    reachable_without_removal s →
    reachable_without_removal (generateUploadUrl w options s).2.

Module Busy.
(** The state of the least-used test: counters set to 10 and 5. *)
Definition session : MultiBucket :=
  assign_usage "A" {| Usage.requestCount := 10; Usage.errorCount := 0;
                      Usage.lastUsed := 0; Usage.rateLimit := 1000 |}
    (assign_usage "B" {| Usage.requestCount := 5; Usage.errorCount := 0;
                         Usage.lastUsed := 0; Usage.rateLimit := 1000 |}
       (constructor {| Options.providers := Some [bare "A"; bare "B"];
                       Options.loadBalanceStrategy := Some "least-used";
                       Options.defaultExpiry := None |})).
End Busy.

Module Shares.
(** The registry of the readme, weights 3 and 1, under weighted-random. *)
Definition session : MultiBucket :=
  constructor {| Options.providers := Some [Reload.s3_main; Reload.r2_x];
                 Options.loadBalanceStrategy := Some "weighted-random";
                 Options.defaultExpiry := None |}.
End Shares.

Module Shrunk.
(** The registry [Reload] after one selection (cursor at 1) and the
    update that drops ["r2-x"]: one provider left, cursor past the end. *)
Definition session : MultiBucket := updateConfig Reload.drop_r2_x Reload.session1.
End Shrunk.

(** The ids of the registry, in list order. *)
Definition ids (s : MultiBucket) : list string := Provider.id <$> providers s.

(** The registry holds, as the first provider with the id of [p], a
    provider that a merge of [p] leaves as it is. *)
Definition merged_in (l : list Provider.t) (p : Provider.t) : Prop :=
  ∃ i q, list_find (λ x, Provider.id x = Provider.id p) l = Some (i, q) ∧
         Provider.spread q p = q.

(** The two halves of [updateConfig]: the work on the registry, then the
    settings. *)
Definition updateConfig_providers (configData : Config.t) (s : MultiBucket) : MultiBucket :=
  match Config.providers configData with
  | Some incoming =>
      let s' := fold_left merge_provider incoming s in
      if Config.removeStaleProviders configData then remove_stale incoming s' else s'
  | None => s
  end.

Definition updateConfig_settings (configData : Config.t) (s1 : MultiBucket) : MultiBucket :=
  let s2 :=
    if truthy_str (Config.loadBalanceStrategy configData)
    then set_loadBalanceStrategy
           (default EmptyString (Config.loadBalanceStrategy configData)) s1
    else s1 in
  match Config.defaultExpiry configData with
  | Some e => if (e =? 0)%Z then s2 else set_defaultExpiry e s2
  | None => s2
  end.

(** The signer's errors never carry a [providerInfo]. *)
Definition unattributed_errors (w : World.t) : Prop :=
  ∀ client command expiry e,
    World.getSignedUrl w client command expiry = Throw e → providerInfo e = None.

(** A result that is not an error with a [providerInfo]. *)
Definition unattributed {A : Type} (r : Res A) : Prop :=
  match r with
  | Ok _ => True
  | Throw e => providerInfo e = None
  end.

(** The states a session reaches when the signer's errors never carry a
    [providerInfo]. *)
Inductive reachable_unattributed : MultiBucket → Prop :=
| quiet_constructor options :
    reachable_unattributed (constructor options)
| quiet_updateConfig configData s :
    reachable_unattributed s →
    reachable_unattributed (updateConfig configData s)
| quiet_getStorageProvider now random s :
    reachable_unattributed s →
    reachable_unattributed (getStorageProvider now random s).2
| quiet_generateUploadUrl w options s :
    unattributed_errors w →
    reachable_unattributed s →
    reachable_unattributed (generateUploadUrl w options s).2.

(** No usage record has a recorded error. *)
Definition no_recorded_errors (s : MultiBucket) : Prop :=
  ∀ id u, providerUsage s !! id = Some u → Usage.errorCount u = 0%Z.

Module Outage.
(** A signer that is unreachable: every call is rejected with a plain
    error.  The session balances by least-errors and has one failed upload
    behind it. *)
Definition world : World.t :=
  {| World.now := 1000005;
     World.random := 0;
     World.randomUUID := "3b241101-e2bb-4255-8caf-4136c566a962";
     World.getSignedUrl := λ client command expiry, Throw (Error "Network error" None);
     World.now_result := 1000006 |}.
Definition options : UploadOptions.t :=
  {| UploadOptions.filename := "test.jpg";
     UploadOptions.contentType := "image/jpeg";
     UploadOptions.expiry := None;
     UploadOptions.path := None;
     UploadOptions.providerId := None |}.
Definition session0 : MultiBucket :=
  constructor {| Options.providers := Some [Reload.s3_main; Reload.r2_x];
                 Options.loadBalanceStrategy := Some "least-errors";
                 Options.defaultExpiry := None |}.
Definition session1 : MultiBucket := (generateUploadUrl world options session0).2.
End Outage.

(** [defaultExpiry] is never 0. *)
Definition expiry_nonzero (s : MultiBucket) : Prop := defaultExpiry s ≠ 0%Z.

(** [options] as the upload handler builds them from [req.body]. *)
Definition upload_options_of (body : UploadBody.t) : UploadOptions.t :=
  {| UploadOptions.filename := default EmptyString (UploadBody.filename body);
     UploadOptions.contentType := default EmptyString (UploadBody.contentType body);
     UploadOptions.expiry := UploadBody.expiry body;
     UploadOptions.path := UploadBody.path body;
     UploadOptions.providerId := UploadBody.providerId body |}.

Module Lookup.
(** A read of an uploaded object, first by an id the registry does not
    know, then by bucket. *)
Definition world : ReadWorld.t :=
  {| ReadWorld.getSignedUrl := λ client command expiry,
       Ok ("https://" +:+ interpolate (GetObjectCommand.Bucket command)
           +:+ ".example.com/" +:+ GetObjectCommand.Key command
           +:+ "?X-Amz-Algorithm=AWS4-HMAC-SHA256&X-Amz-Credential=EXAMPLE");
     ReadWorld.now_result := 1000006 |}.
Definition by_unknown_id : ReadOptions.t :=
  {| ReadOptions.key := "uploads/test.jpg";
     ReadOptions.bucket := Some "my-r2-bucket";
     ReadOptions.providerId := Some "r2-backup";
     ReadOptions.expiry := None |}.
Definition by_bucket : ReadOptions.t :=
  {| ReadOptions.key := "uploads/test.jpg";
     ReadOptions.bucket := Some "my-r2-bucket";
     ReadOptions.providerId := None;
     ReadOptions.expiry := None |}.
End Lookup.

Module Anonymous.
(** A read request that names a key and nothing else. *)
Definition body : ReadBody.t :=
  {| ReadBody.key := Some "uploads/test.jpg";
     ReadBody.bucket := None;
     ReadBody.providerId := None;
     ReadBody.expiry := None |}.
End Anonymous.

(** The requests of one client, in order of arrival: the verdicts of the
    limiter and the table it leaves behind. *)
Fixpoint serve (ip : string) (times : list Z) (apiRateLimit : gmap string Window.t)
    : list bool * gmap string Window.t :=
  match times with
  | [] => ([], apiRateLimit)
  | now :: times =>
      let (verdict, apiRateLimit) := rate_limit_middleware ip now apiRateLimit in
      let (verdicts, apiRateLimit) := serve ip times apiRateLimit in
      (verdict :: verdicts, apiRateLimit)
  end.

Module Burst.
(** A client that sends a request at 1000000 ms and 101 more within the
    next tenth of a second. *)
Definition times : list Z := (λ k, 1000000 + Z.of_nat k)%Z <$> seq 1 101.
End Burst.

(** ** Ranges on which binary64 agrees with the exact arithmetic *)

(** Every counter is a non-negative integer below 2^26: two quotients
    [errorCount / (requestCount || 1)] that differ are then rounded to
    different numbers, in the same order. *)
Definition counters_small (s : MultiBucket) : Prop :=
  ∀ id u, providerUsage s !! id = Some u →
    (0 ≤ Usage.requestCount u < 2 ^ 26)%Z ∧ (0 ≤ Usage.errorCount u < 2 ^ 26)%Z.

(** Every counter is a non-negative integer below 2^53, where [++] and
    the sums of [getStats] are exact. *)
Definition counters_in_range (s : MultiBucket) : Prop :=
  ∀ id u, providerUsage s !! id = Some u →
    (0 ≤ Usage.requestCount u < 2 ^ 53)%Z ∧ (0 ≤ Usage.errorCount u < 2 ^ 53)%Z.


(** The draw is a multiple of 2^-32 in [0, 1), the effective weights are
    whole numbers from 1 on and their total is at most 2^20: the sum, the
    product with the draw and every subtraction of the scan are then
    exact in binary64. *)
Definition exact_draw (random : Q) (ps : list Provider.t) : Prop :=
  (∃ k : Z, (0 ≤ k < 2 ^ 32)%Z ∧ (random == inject_Z k / inject_Z (2 ^ 32))%Q) ∧
  (∀ p, p ∈ ps → ∃ n : Z, (1 ≤ n)%Z ∧ (weight_of p == inject_Z n)%Q) ∧
  (totalWeight ps <= inject_Z (2 ^ 20))%Q.



(** No provider of the registry is called ["__proto__"]. *)
Definition plain_ids (s : MultiBucket) : Prop :=
  "__proto__" ∉ Provider.id <$> providers s.

(** A time value that makes a valid date. *)
Definition valid_time (t : Z) : Prop := (Z.abs t ≤ 8640000000000000)%Z.

(** The expiry used by [generateReadUrl]: [options.expiry || this.defaultExpiry]. *)
Definition read_expiry (options : ReadOptions.t) (s : MultiBucket) : Z :=
  match ReadOptions.expiry options with
  | Some e => Z_or e (defaultExpiry s)
  | None => defaultExpiry s
  end.

(** A signer that rejects an expiry of 0 with [e] and answers every other
    request as [signer] does. *)
Definition refusing_zero {C : Type} (e : JsError) (signer : Client.t → C → Z → Res string)
    : Client.t → C → Z → Res string :=
  λ client command expiry,
    if (expiry =? 0)%Z then Throw e else signer client command expiry.

Definition upload_refusing_zero (e : JsError) (w : World.t) : World.t :=
  {| World.now := World.now w;
     World.random := World.random w;
     World.randomUUID := World.randomUUID w;
     World.getSignedUrl := refusing_zero e (World.getSignedUrl w);
     World.now_result := World.now_result w |}.

Definition read_refusing_zero (e : JsError) (w : ReadWorld.t) : ReadWorld.t :=
  {| ReadWorld.getSignedUrl := refusing_zero e (ReadWorld.getSignedUrl w);
     ReadWorld.now_result := ReadWorld.now_result w |}.

(** * Properties *)

(** ** Records of the usage tracker *)

(** A property of every record of a dictionary, read off the list of its
    records. *)
Lemma usage_Forall (P : Usage.t → Prop) (usage : gmap string Usage.t) (l : list Usage.t) :
  snd <$> map_to_list usage = l →
  Forall P l →
  ∀ id u, usage !! id = Some u → P u.
Proof.
  intros <- Hall id u Hu. rewrite Forall_forall in Hall. apply Hall.
  apply list_elem_of_fmap. exists (id, u). split; [done|].
  by apply elem_of_map_to_list.
Qed.

(** ** Comparisons on rationals *)

Lemma Qltb_lt (x y : Q) : Qltb x y = true ↔ (x < y)%Q.
Proof.
  unfold Qltb. rewrite negb_true_iff, <- not_true_iff_false, Qle_bool_iff.
  split; [apply Qnot_le_lt | apply Qlt_not_le].
Qed.

Lemma Qltb_ge (x y : Q) : Qltb x y = false ↔ (y <= x)%Q.
Proof. unfold Qltb. by rewrite negb_false_iff, Qle_bool_iff. Qed.

(** The two tests of the gate are complementary. *)
Lemma available_negb_rate_limited (now : Z) (u : Usage.t) :
  available now u = negb (rate_limited now u).
Proof.
  unfold available, rate_limited, Qltb.
  destruct (Qeq_bool _ _); [done | by rewrite negb_involutive].
Qed.

(** With a non-zero limit the boolean tests are the inequalities of the
    source. *)
Lemma rate_limited_lt (now : Z) (u : Usage.t) :
  ¬ (Usage.rateLimit u == 0)%Q →
  rate_limited now u = true ↔
  (inject_Z (now - Usage.lastUsed u) < 1000 / Usage.rateLimit u)%Q.
Proof.
  intros Hnz. unfold rate_limited.
  destruct (Qeq_bool _ _) eqn:E; [by apply Qeq_bool_iff in E | apply Qltb_lt].
Qed.

Lemma available_ge (now : Z) (u : Usage.t) :
  ¬ (Usage.rateLimit u == 0)%Q →
  available now u = true ↔
  (1000 / Usage.rateLimit u <= inject_Z (now - Usage.lastUsed u))%Q.
Proof.
  intros Hnz. unfold available.
  destruct (Qeq_bool _ _) eqn:E; [by apply Qeq_bool_iff in E | apply Qle_bool_iff].
Qed.

Lemma num_or_nonzero (x : option Q) (d : Q) :
  ¬ (d == 0)%Q → ¬ (num_or x d == 0)%Q.
Proof.
  intros Hd. destruct x as [q|]; simpl; [|done].
  destruct (Qeq_bool q 0) eqn:E; [done|].
  intros Hq. apply Qeq_bool_iff in Hq. congruence.
Qed.

(** ** Well-formed states *)

Lemma fresh_limit_nonzero (p : Provider.t) : ¬ (Usage.rateLimit (Usage.fresh p) == 0)%Q.
Proof. apply num_or_nonzero. done. Qed.

Lemma init_usage_fold_lookup (ps : list Provider.t) (m : gmap string Usage.t) (id : string) :
  fold_left (λ usage p, <[Provider.id p := Usage.fresh p]> usage) ps m !! id =
  match last (filter (λ p, Provider.id p = id) ps) with
  | Some p => Some (Usage.fresh p)
  | None => m !! id
  end.
Proof.
  revert m. induction ps as [|p ps IH]; intros m; simpl; [done|].
  rewrite IH, filter_cons. case_decide as Hid; simpl.
  - destruct (filter _ ps) as [|q qs] eqn:E; simpl.
    + subst id. by rewrite lookup_insert_eq.
    + destruct (last (q :: qs)) eqn:L; [done | by apply last_None in L].
  - by rewrite lookup_insert_ne.
Qed.

Lemma init_usage_lookup (ps : list Provider.t) (id : string) :
  init_usage ps !! id = Usage.fresh <$> last (filter (λ p, Provider.id p = id) ps).
Proof.
  unfold init_usage. rewrite init_usage_fold_lookup.
  by destruct (last _).
Qed.

Lemma constructor_well_formed (options : Options.t) : well_formed (constructor options).
Proof.
  split.
  - intros p Hp. simpl in *. rewrite init_usage_lookup.
    assert (p ∈ filter (λ q, Provider.id q = Provider.id p)
                  (default [] (Options.providers options))) as Hin
      by (by apply list_elem_of_filter).
    destruct (filter _ _) as [|q qs] using rev_ind; [by apply elem_of_nil in Hin|].
    rewrite last_snoc. by eexists.
  - intros id u Hu. simpl in *. rewrite init_usage_lookup in Hu.
    destruct (last _) as [p|]; simplify_eq/=. apply fresh_limit_nonzero.
Qed.

Lemma spread_id (old new : Provider.t) :
  Provider.id (Provider.spread old new) = Provider.id new.
Proof. done. Qed.

Lemma merge_provider_well_formed (s : MultiBucket) (newProvider : Provider.t) :
  well_formed s → well_formed (merge_provider s newProvider).
Proof.
  intros [Hc Hn]. unfold merge_provider.
  destruct (list_find _ _) as [[i existing]|] eqn:Hfind.
  - apply list_find_Some in Hfind as (Hi & Hid & _).
    split; [|done].
    intros p [j Hj]%list_elem_of_lookup. simpl in *.
    rewrite list_lookup_insert in Hj. case_decide; simplify_eq.
    + replace (Provider.id (Provider.spread existing newProvider))
        with (Provider.id existing) by done.
      by eapply Hc, list_elem_of_lookup_2.
    + by eapply Hc, list_elem_of_lookup_2.
  - split.
    + intros p Hp. simpl in *.
      destruct (decide (Provider.id newProvider = Provider.id p)) as [Heq|Hne].
      * rewrite <- Heq, lookup_insert_eq. by eexists.
      * rewrite lookup_insert_ne by done.
        apply elem_of_app in Hp as [Hp|Hp]; [by apply Hc|].
        apply list_elem_of_singleton in Hp. by subst.
    + intros id u Hu. simpl in *.
      destruct (decide (Provider.id newProvider = id)) as [<-|Hne].
      * rewrite lookup_insert_eq in Hu. simplify_eq. apply fresh_limit_nonzero.
      * rewrite lookup_insert_ne in Hu by done. by eapply Hn.
Qed.

Lemma merge_providers_well_formed (incoming : list Provider.t) (s : MultiBucket) :
  well_formed s → well_formed (fold_left merge_provider incoming s).
Proof.
  revert s. induction incoming as [|p ps IH]; intros s Hs; simpl; [done|].
  by apply IH, merge_provider_well_formed.
Qed.

Lemma remove_stale_well_formed (incoming : list Provider.t) (s : MultiBucket) :
  well_formed s → well_formed (remove_stale incoming s).
Proof.
  intros [Hc Hn]. split; [|done].
  intros p [_ Hp]%list_elem_of_filter. by apply Hc.
Qed.

Lemma updateConfig_well_formed (configData : Config.t) (s : MultiBucket) :
  well_formed s → well_formed (updateConfig configData s).
Proof.
  intros Hs. unfold updateConfig.
  set (s1 := match Config.providers configData with Some _ => _ | None => s end).
  assert (well_formed s1) as H1.
  { subst s1. destruct (Config.providers configData) as [incoming|]; [|done].
    destruct (Config.removeStaleProviders configData);
      [apply remove_stale_well_formed|]; by apply merge_providers_well_formed. }
  clearbody s1.
  set (s2 := if truthy_str _ then _ else s1).
  assert (well_formed s2) as H2 by (subst s2; by destruct (truthy_str _)).
  clearbody s2.
  destruct (Config.defaultExpiry configData) as [e|]; [|done].
  by destruct (e =? 0)%Z.
Qed.

(** ** The strategy step *)

Lemma select_by_strategy_frame random first s :
  providers (select_by_strategy random first s).2 = providers s ∧
  providerUsage (select_by_strategy random first s).2 = providerUsage s ∧
  loadBalanceStrategy (select_by_strategy random first s).2 = loadBalanceStrategy s ∧
  defaultExpiry (select_by_strategy random first s).2 = defaultExpiry s.
Proof.
  unfold select_by_strategy.
  repeat (destruct (String.eqb _ _); [done|]). done.
Qed.

Lemma least_used_step_ok usage (least current : Provider.t) (ul uc : Usage.t) :
  usage !! Provider.id least = Some ul →
  usage !! Provider.id current = Some uc →
  least_used_step usage least current =
  Ok (if (Usage.requestCount uc <? Usage.requestCount ul)%Z then current else least).
Proof. intros Hl Hc. unfold least_used_step, usage_of. by rewrite Hc, Hl. Qed.

Lemma least_errors_step_ok usage (least current : Provider.t) (ul uc : Usage.t) :
  usage !! Provider.id least = Some ul →
  usage !! Provider.id current = Some uc →
  least_errors_step usage least current =
  Ok (if Qltb (error_rate uc) (error_rate ul) then current else least).
Proof. intros Hl Hc. unfold least_errors_step, usage_of. by rewrite Hl, Hc. Qed.

Lemma reduce_cons {A B : Type} (f : B → A → Res B) (x : A) (l : list A) (acc acc' : B) :
  f acc x = Ok acc' → reduce f (x :: l) acc = reduce f l acc'.
Proof. intros H. simpl. by rewrite H. Qed.

Lemma reduce_least_used_ok usage (ps : list Provider.t) (acc : Provider.t) :
  is_Some (usage !! Provider.id acc) →
  (∀ p, p ∈ ps → is_Some (usage !! Provider.id p)) →
  ∃ c, reduce (least_used_step usage) ps acc = Ok c ∧ (c = acc ∨ c ∈ ps).
Proof.
  revert acc. induction ps as [|p ps IH]; intros acc Hacc Hps.
  - simpl. eauto.
  - destruct (Hps p) as [up Hup]; [by left|]. destruct Hacc as [ua Hua].
    rewrite (reduce_cons _ _ _ _ _ (least_used_step_ok _ _ _ _ _ Hua Hup)).
    destruct (IH (if (Usage.requestCount up <? Usage.requestCount ua)%Z then p else acc))
      as (c & -> & Hc).
    { by destruct (_ <? _)%Z. }
    { intros q Hq. apply Hps. by right. }
    exists c. split; [done|].
    destruct Hc as [->|Hc]; [|right; by right].
    destruct (_ <? _)%Z; [right; by left | by left].
Qed.

Lemma reduce_least_errors_ok usage (ps : list Provider.t) (acc : Provider.t) :
  is_Some (usage !! Provider.id acc) →
  (∀ p, p ∈ ps → is_Some (usage !! Provider.id p)) →
  ∃ c, reduce (least_errors_step usage) ps acc = Ok c ∧ (c = acc ∨ c ∈ ps).
Proof.
  revert acc. induction ps as [|p ps IH]; intros acc Hacc Hps.
  - simpl. eauto.
  - destruct (Hps p) as [up Hup]; [by left|]. destruct Hacc as [ua Hua].
    rewrite (reduce_cons _ _ _ _ _ (least_errors_step_ok _ _ _ _ _ Hua Hup)).
    destruct (IH (if Qltb (error_rate up) (error_rate ua) then p else acc))
      as (c & -> & Hc).
    { by destruct (Qltb _ _). }
    { intros q Hq. apply Hps. by right. }
    exists c. split; [done|].
    destruct Hc as [->|Hc]; [|right; by right].
    destruct (Qltb _ _); [right; by left | by left].
Qed.

Lemma weighted_scan_elem_of random (ps : list Provider.t) (p : Provider.t) :
  weighted_scan random ps = Some p → p ∈ ps.
Proof.
  revert random. induction ps as [|q ps IH]; intros random; simpl; [done|].
  destruct (Qltb _ _); [intros [= ->]; by left | intros H; right; eauto].
Qed.

Lemma select_by_strategy_candidate random first rest s :
  providers s = first :: rest →
  usage_complete s →
  cursor_in_range s →
  ∃ c, (select_by_strategy random first s).1 = Ok (Some c) ∧ c ∈ providers s.
Proof.
  intros Hps Hc Hcur. unfold select_by_strategy.
  assert (first ∈ providers s) as Hfirst by (rewrite Hps; by left).
  destruct (String.eqb_spec (loadBalanceStrategy s) "round-robin") as [Hrr|_].
  { destruct (lookup_lt_is_Some_2 (providers s) (currentProviderIndex s)) as [c Hcand];
      [by apply Hcur|].
    exists c. simpl. rewrite Hcand. split; [done|]. by eapply list_elem_of_lookup_2. }
  destruct (String.eqb _ "least-used").
  { destruct (reduce_least_used_ok (providerUsage s) (providers s) first) as (c & Hr & Hin);
      [by apply Hc | done |].
    exists c. simpl. rewrite Hr. split; [done|]. by destruct Hin as [->|]. }
  destruct (String.eqb _ "least-errors").
  { destruct (reduce_least_errors_ok (providerUsage s) (providers s) first) as (c & Hr & Hin);
      [by apply Hc | done |].
    exists c. simpl. rewrite Hr. split; [done|]. by destruct Hin as [->|]. }
  destruct (String.eqb _ "weighted-random"); simpl; [|eauto].
  destruct (weighted_scan _ _) as [c|] eqn:Hscan; simpl; [|eauto].
  exists c. split; [done|]. by eapply weighted_scan_elem_of.
Qed.

(** ** The rate-limit gate *)

Lemma is_available_ok usage now (p : Provider.t) (u : Usage.t) :
  usage !! Provider.id p = Some u → is_available usage now p = Ok (available now u).
Proof. intros Hu. unfold is_available, usage_of. by rewrite Hu. Qed.

Lemma find_res_cons {A : Type} (f : A → Res bool) (x : A) (l : list A) (b : bool) :
  f x = Ok b → find_res f (x :: l) = if b then Ok (Some x) else find_res f l.
Proof. intros H. simpl. by rewrite H. Qed.

Lemma find_available_spec usage now (ps : list Provider.t) :
  (∀ p, p ∈ ps → is_Some (usage !! Provider.id p)) →
  (∀ id u, usage !! id = Some u → ¬ (Usage.rateLimit u == 0)%Q) →
  ∃ r, find_res (is_available usage now) ps = Ok r ∧
       match r with
       | Some p => first_satisfied usage now ps p
       | None => ∀ q, q ∈ ps → ¬ gate_satisfied usage now q
       end.
Proof.
  intros Hc Hn. induction ps as [|p ps IH].
  - exists None. split; [done|]. by intros q ?%elem_of_nil.
  - destruct (Hc p) as [u Hu]; [by left|].
    rewrite (find_res_cons _ _ _ _ (is_available_ok _ now _ _ Hu)).
    destruct (available now u) eqn:Hav.
    + exists (Some p). split; [done|]. exists 0. split; [done|]. split.
      * exists u. split; [done|]. apply available_ge; eauto.
      * intros j q Hj. lia.
    + destruct IH as (r & -> & Hr); [intros q Hq; apply Hc; by right|].
      assert (¬ gate_satisfied usage now p) as Hp.
      { intros (u' & Hu' & Hge). simplify_eq.
        apply available_ge in Hge; [congruence | eauto]. }
      exists r. split; [done|]. destruct r as [p'|].
      * destruct Hr as (i & Hi & Hsat & Hbefore).
        exists (S i). split; [done|]. split; [done|].
        intros [|j] q Hj Hq; simplify_eq/=; [done|].
        eapply Hbefore; [|done]. lia.
      * intros q [->|Hq]%elem_of_cons; eauto.
Qed.

Lemma gate_and_update_ok now (c : Provider.t) (uc : Usage.t) (s : MultiBucket) :
  well_formed s →
  providerUsage s !! Provider.id c = Some uc →
  ∃ r, find_res (is_available (providerUsage s) now) (providers s) = Ok r ∧
       gate_and_update now (Some c) s =
       (Ok (if rate_limited now uc then default c r else c),
        set_providerUsage (<[Provider.id c := Usage.touch now uc]> (providerUsage s)) s).
Proof.
  intros [Hc Hn] Huc.
  destruct (find_available_spec (providerUsage s) now (providers s)) as (r & Hr & _);
    [done | done |].
  exists r. split; [done|].
  unfold gate_and_update. rewrite Huc, Hr. simpl.
  by destruct (rate_limited now uc).
Qed.

Lemma getStorageProvider_unfold now random first rest (s : MultiBucket) :
  providers s = first :: rest →
  getStorageProvider now random s =
  match select_by_strategy random first s with
  | (Throw e, s') => (Throw e, s')
  | (Ok selected, s') => gate_and_update now selected s'
  end.
Proof. intros Hps. unfold getStorageProvider. by rewrite Hps. Qed.

Lemma select_by_strategy_well_formed random first (s : MultiBucket) :
  well_formed s → well_formed (select_by_strategy random first s).2.
Proof.
  destruct (select_by_strategy_frame random first s) as (Hp & Hu & _).
  intros [Hc Hn]. split.
  - intros p. rewrite Hp, Hu. apply Hc.
  - intros id u. rewrite Hu. apply Hn.
Qed.

(** What a call does on a well-formed, non-empty state whose strategy step
    has a candidate [c]: the result is [c] or the provider substituted by
    the gate, and the usage record written is the one of [c]. *)
Lemma getStorageProvider_ok now random first rest (s : MultiBucket) (c : Provider.t) :
  providers s = first :: rest →
  well_formed s →
  (select_by_strategy random first s).1 = Ok (Some c) →
  c ∈ providers s →
  ∃ uc r,
    providerUsage s !! Provider.id c = Some uc ∧
    find_res (is_available (providerUsage s) now) (providers s) = Ok r ∧
    getStorageProvider now random s =
    (Ok (if rate_limited now uc then default c r else c),
     set_providerUsage (<[Provider.id c := Usage.touch now uc]> (providerUsage s))
       (select_by_strategy random first s).2).
Proof.
  intros Hps Hwf Hsel Hin.
  destruct (proj1 Hwf c Hin) as [uc Huc].
  pose proof (select_by_strategy_well_formed random first s Hwf) as Hwf'.
  destruct (select_by_strategy_frame random first s) as (Hp & Hu & _).
  rewrite (getStorageProvider_unfold _ _ _ _ _ Hps).
  destruct (select_by_strategy random first s) as [sel s1]; simpl in *. subst sel.
  destruct (gate_and_update_ok now c uc s1 Hwf') as (r & Hr & Hg); [by rewrite Hu|].
  exists uc, r. rewrite Hu, Hp in *. by rewrite Hg.
Qed.

Lemma getStorageProvider_returns now random first rest (s : MultiBucket) :
  providers s = first :: rest →
  well_formed s →
  cursor_in_range s →
  ∃ p s', getStorageProvider now random s = (Ok p, s').
Proof.
  intros Hps Hwf Hcur.
  destruct (select_by_strategy_candidate random first rest s Hps (proj1 Hwf) Hcur)
    as (c & Hsel & Hin).
  destruct (getStorageProvider_ok now random first rest s c Hps Hwf Hsel Hin)
    as (uc & r & _ & _ & Hget).
  eauto.
Qed.

(** The only exception a call can end in on a well-formed, non-empty state
    is the [TypeError] of round-robin with a cursor past the end of the
    list (left there by a removal of providers); the gate itself never
    throws. *)
Lemma getStorageProvider_throws_only_past_the_end now random first rest
    (s s' : MultiBucket) (e : JsError) :
  providers s = first :: rest →
  well_formed s →
  getStorageProvider now random s = (Throw e, s') →
  loadBalanceStrategy s = "round-robin" ∧
  (length (providers s) ≤ currentProviderIndex s)%nat ∧
  e = undefined_read "id".
Proof.
  intros Hps Hwf Hthrow.
  destruct (decide (loadBalanceStrategy s = "round-robin")) as [Hrr|Hrr];
    [destruct (decide (currentProviderIndex s < length (providers s))) as [Hlt|Hge]|].
  - destruct (getStorageProvider_returns now random first rest s Hps Hwf) as (p & s'' & Hok);
      [by intros _|]. congruence.
  - split; [done|]. split; [lia|].
    rewrite (getStorageProvider_unfold _ _ _ _ _ Hps) in Hthrow.
    unfold select_by_strategy in Hthrow. rewrite Hrr in Hthrow. simpl in Hthrow.
    rewrite (lookup_ge_None_2 (providers s) (currentProviderIndex s)) in Hthrow by lia.
    simpl in Hthrow. congruence.
  - destruct (getStorageProvider_returns now random first rest s Hps Hwf) as (p & s'' & Hok);
      [by intros ?|]. congruence.
Qed.

(** ** Reachable states are well formed *)

Lemma gate_and_update_well_formed now selected (s : MultiBucket) :
  well_formed s → well_formed (gate_and_update now selected s).2.
Proof.
  intros Hwf. unfold gate_and_update.
  destruct selected as [c|]; [|done].
  destruct (providerUsage s !! Provider.id c) as [uc|] eqn:Huc; [|done].
  match goal with |- context [match ?f with Ok _ => _ | Throw _ => _ end] =>
    destruct f; [|done] end.
  destruct Hwf as [Hc Hn]. split.
  - intros p Hp. simpl in *.
    destruct (decide (Provider.id c = Provider.id p)) as [Heq|Hne].
    + rewrite <- Heq, lookup_insert_eq. by eexists.
    + rewrite lookup_insert_ne by done. by apply Hc.
  - intros id u Hu. simpl in *.
    destruct (decide (Provider.id c = id)) as [<-|Hne].
    + rewrite lookup_insert_eq in Hu. simplify_eq. simpl. by eapply Hn.
    + rewrite lookup_insert_ne in Hu by done. by eapply Hn.
Qed.

Lemma getStorageProvider_well_formed now random (s : MultiBucket) :
  well_formed s → well_formed (getStorageProvider now random s).2.
Proof.
  intros Hwf. unfold getStorageProvider.
  destruct (providers s) as [|first rest]; [done|].
  pose proof (select_by_strategy_well_formed random first s Hwf) as Hwf'.
  destruct (select_by_strategy random first s) as [[sel|e] s1]; [|done].
  by apply gate_and_update_well_formed.
Qed.

Lemma generateUploadUrl_well_formed w options (s : MultiBucket) :
  well_formed s → well_formed (generateUploadUrl w options s).2.
Proof.
  intros Hwf. unfold generateUploadUrl.
  assert (well_formed (generateUploadUrl_try w options s).2) as Htry.
  { unfold generateUploadUrl_try.
    destruct (truthy_str _).
    - by destruct (find _ _).
    - pose proof (getStorageProvider_well_formed (World.now w) (World.random w) s Hwf) as H.
      by destruct (getStorageProvider _ _ _) as [[p|e] s1]. }
  destruct (generateUploadUrl_try w options s) as [[result|error] s1]; [done|].
  unfold generateUploadUrl_catch. simpl in *.
  destruct (providerInfo error) as [id|]; [|done].
  destruct (providerUsage s1 !! id) as [u|] eqn:Hu; [|done].
  destruct Htry as [Hc Hn]. split.
  - intros p Hp. simpl in *.
    destruct (decide (id = Provider.id p)) as [->|Hne].
    + rewrite lookup_insert_eq. by eexists.
    + rewrite lookup_insert_ne by done. by apply Hc.
  - intros id' u' Hu'. simpl in *.
    destruct (decide (id = id')) as [<-|Hne].
    + rewrite lookup_insert_eq in Hu'. simplify_eq. simpl. by eapply Hn.
    + rewrite lookup_insert_ne in Hu' by done. by eapply Hn.
Qed.

Lemma reachable_well_formed (s : MultiBucket) : reachable s → well_formed s.
Proof.
  induction 1;
    auto using constructor_well_formed, updateConfig_well_formed,
      getStorageProvider_well_formed, generateUploadUrl_well_formed.
Qed.

(** ** C5: the empty registry *)

(** C5.  Whatever the strategy, a call on an empty registry throws
    "No storage providers configured" and leaves the whole state (cursor,
    usage records, settings) as it was. *)
Theorem getStorageProvider_empty_registry now random (s : MultiBucket) :
  providers s = [] →
  getStorageProvider now random s =
  (Throw (Error "No storage providers configured" None), s).
Proof. intros Hps. unfold getStorageProvider. by rewrite Hps. Qed.

Lemma getStorageProvider_empty_registry_witness :
  getStorageProvider 1700000000000 (1 # 2)
    (constructor (Options.mk None (Some "least-errors") None)) =
  (Throw (Error "No storage providers configured" None),
   constructor (Options.mk None (Some "least-errors") None)).
Proof. apply getStorageProvider_empty_registry. reflexivity. Defined.

(** ** C7: the gate is soft *)



(** ** C1: which usage record a call writes *)

Lemma first_satisfied_unique usage now (ps : list Provider.t) (p p' : Provider.t) :
  first_satisfied usage now ps p → first_satisfied usage now ps p' → p = p'.
Proof.
  intros (i & Hi & Hp & Hbefore) (i' & Hi' & Hp' & Hbefore').
  destruct (Nat.lt_trichotomy i i') as [Hlt|[->|Hlt]].
  - by destruct (Hbefore' i p Hlt Hi).
  - congruence.
  - by destruct (Hbefore i' p' Hlt Hi').
Qed.

(** In general: when the candidate [c] is rate limited and the gate
    substitutes a provider [p] with another id, the call returns [p], the
    record of [c] is the one that is touched, and the record of [p] stays
    as it was. *)
Lemma gate_substitution_accounting now random first rest (s : MultiBucket)
    (c p : Provider.t) (uc : Usage.t) :
  providers s = first :: rest →
  well_formed s →
  (select_by_strategy random first s).1 = Ok (Some c) →
  c ∈ providers s →
  providerUsage s !! Provider.id c = Some uc →
  (inject_Z (now - Usage.lastUsed uc) < 1000 / Usage.rateLimit uc)%Q →
  first_satisfied (providerUsage s) now (providers s) p →
  Provider.id p ≠ Provider.id c →
  ∃ s', getStorageProvider now random s = (Ok p, s') ∧
        providerUsage s' !! Provider.id c = Some (Usage.touch now uc) ∧
        providerUsage s' !! Provider.id p = providerUsage s !! Provider.id p.
Proof.
  intros Hps Hwf Hsel Hin Huc Hlt Hfirst Hne.
  destruct (getStorageProvider_ok now random first rest s c Hps Hwf Hsel Hin)
    as (uc' & r & Huc' & Hr & Hget).
  simplify_eq.
  destruct (find_available_spec (providerUsage s) now (providers s)) as (r' & Hr' & Hspec);
    [apply Hwf | apply Hwf |].
  rewrite Hr in Hr'. injection Hr' as <-.
  apply rate_limited_lt in Hlt; [|by eapply (proj2 Hwf)].
  rewrite Hlt in Hget.
  destruct (select_by_strategy_frame random first s) as (_ & Hu & _).
  destruct r as [p'|]; simpl in Hget.
  - rewrite (first_satisfied_unique _ _ _ _ _ Hfirst Hspec).
    rewrite (first_satisfied_unique _ _ _ _ _ Hfirst Hspec) in Hne.
    eexists. split; [exact Hget|]. simpl.
    by rewrite lookup_insert_eq, lookup_insert_ne.
  - destruct Hfirst as (i & Hi & Hp & _).
    destruct (Hspec p); [by eapply list_elem_of_lookup_2 | done].
Qed.

(** C1.  The third call of the session [Slow] returns [B], substituted by
    the gate for the round-robin candidate [A]; the record whose
    [requestCount] and [lastUsed] change is the one of [A], and the record
    of the returned provider [B] is left as it was. *)
Theorem substituted_provider_is_not_accounted :
  (getStorageProvider 1000003 0 Slow.session2).1 = Ok Slow.B ∧
  providerUsage Slow.session2 !! "A" =
    Some {| Usage.requestCount := 1; Usage.errorCount := 0;
            Usage.lastUsed := 1000000; Usage.rateLimit := 1 |} ∧
  providerUsage Slow.session3 !! "A" =
    Some {| Usage.requestCount := 2; Usage.errorCount := 0;
            Usage.lastUsed := 1000003; Usage.rateLimit := 1 |} ∧
  providerUsage Slow.session2 !! "B" =
    Some {| Usage.requestCount := 1; Usage.errorCount := 0;
            Usage.lastUsed := 1000001; Usage.rateLimit := 1000 |} ∧
  providerUsage Slow.session3 !! "B" = providerUsage Slow.session2 !! "B".
Proof. vm_compute. done. Qed.

(** ** C6: round-robin *)

Lemma rate_limited_mono now now' (u u' : Usage.t) :
  Usage.rateLimit u' = Usage.rateLimit u →
  (now' - Usage.lastUsed u' ≤ now - Usage.lastUsed u)%Z →
  rate_limited now u = true → rate_limited now' u' = true.
Proof.
  intros Hrl Hle. unfold rate_limited. rewrite Hrl.
  destruct (Qeq_bool _ _); [done|].
  rewrite !Qltb_lt. intros Hlt.
  eapply Qle_lt_trans; [|exact Hlt]. by rewrite <- Zle_Qle.
Qed.

(** When the gate does not substitute, the call returns the candidate. *)
Lemma getStorageProvider_keeps_candidate now random first rest (s : MultiBucket)
    (c : Provider.t) (uc : Usage.t) :
  providers s = first :: rest →
  well_formed s →
  (select_by_strategy random first s).1 = Ok (Some c) →
  c ∈ providers s →
  providerUsage s !! Provider.id c = Some uc →
  (rate_limited now uc = true →
   ∀ q uq, q ∈ providers s → providerUsage s !! Provider.id q = Some uq →
           rate_limited now uq = true) →
  getStorageProvider now random s =
  (Ok c,
   set_providerUsage (<[Provider.id c := Usage.touch now uc]> (providerUsage s))
     (select_by_strategy random first s).2).
Proof.
  intros Hps Hwf Hsel Hin Huc Hall.
  destruct (getStorageProvider_ok now random first rest s c Hps Hwf Hsel Hin)
    as (uc' & r & Huc' & Hr & ->).
  simplify_eq. f_equal. f_equal.
  destruct (rate_limited now uc) eqn:Hlim; [|done].
  destruct (find_available_spec (providerUsage s) now (providers s)) as (r' & Hr' & Hspec);
    [apply Hwf | apply Hwf |].
  rewrite Hr in Hr'. injection Hr' as <-.
  destruct r as [p|]; [|done]. exfalso.
  destruct Hspec as (i & Hi & (u & Hu & Hge) & _).
  apply available_ge in Hge; [|by eapply (proj2 Hwf)].
  rewrite available_negb_rate_limited in Hge.
  rewrite (Hall eq_refl p u) in Hge; [done | by eapply list_elem_of_lookup_2 | done].
Qed.

Lemma round_robin_step now random first rest (s : MultiBucket)
    (c : Provider.t) (uc : Usage.t) :
  providers s = first :: rest →
  loadBalanceStrategy s = "round-robin" →
  well_formed s →
  providers s !! currentProviderIndex s = Some c →
  providerUsage s !! Provider.id c = Some uc →
  (rate_limited now uc = true →
   ∀ q uq, q ∈ providers s → providerUsage s !! Provider.id q = Some uq →
           rate_limited now uq = true) →
  getStorageProvider now random s =
  (Ok c,
   {| providers := providers s;
      loadBalanceStrategy := loadBalanceStrategy s;
      defaultExpiry := defaultExpiry s;
      currentProviderIndex := (currentProviderIndex s + 1) mod length (providers s);
      providerUsage := <[Provider.id c := Usage.touch now uc]> (providerUsage s) |}).
Proof.
  intros Hps Hrr Hwf Hcur Huc Hall.
  assert (select_by_strategy random first s =
          (Ok (Some c),
           set_currentProviderIndex
             ((currentProviderIndex s + 1) mod length (providers s)) s)) as Hsel.
  { unfold select_by_strategy. by rewrite Hrr, Hcur. }
  rewrite (getStorageProvider_keeps_candidate now random first rest s c uc);
    [by rewrite Hsel | done | done | by rewrite Hsel
    | by eapply list_elem_of_lookup_2 | done | done].
Qed.

(** C6 (as amended).  Under round-robin the strategy's candidate is the
    provider at the cursor index and the cursor advances by one modulo the
    registry length; the call returns that candidate whenever the
    candidate's gate is satisfied.  Over a two-provider registry [A; B]
    with distinct ids, equal rate limits and fresh usage records, three
    successive calls at times [0 ≤ t1 ≤ t2] and [t3] return [A], [B], [A],
    and the cursor is back at 0 after the second call. *)
Theorem round_robin_cycle :
  (∀ now random first rest (s : MultiBucket) (c : Provider.t),
     providers s = first :: rest →
     loadBalanceStrategy s = "round-robin" →
     well_formed s →
     providers s !! currentProviderIndex s = Some c →
     ∃ uc p s',
       (select_by_strategy random first s).1 = Ok (Some c) ∧
       providerUsage s !! Provider.id c = Some uc ∧
       getStorageProvider now random s = (Ok p, s') ∧
       currentProviderIndex s' =
         (currentProviderIndex s + 1) mod length (providers s) ∧
       ((1000 / Usage.rateLimit uc <= inject_Z (now - Usage.lastUsed uc))%Q → p = c)) ∧
  (∀ (A B : Provider.t) expiry (t1 t2 t3 : Z) (r1 r2 r3 : Q),
     Provider.id A ≠ Provider.id B →
     Provider.rateLimit A = Provider.rateLimit B →
     (0 ≤ t1 ≤ t2)%Z →
     ∃ s1 s2 s3,
       getStorageProvider t1 r1
         (constructor {| Options.providers := Some [A; B];
                         Options.loadBalanceStrategy := Some "round-robin";
                         Options.defaultExpiry := expiry |}) = (Ok A, s1) ∧
       getStorageProvider t2 r2 s1 = (Ok B, s2) ∧
       getStorageProvider t3 r3 s2 = (Ok A, s3) ∧
       currentProviderIndex s1 = 1 ∧
       currentProviderIndex s2 = 0 ∧
       currentProviderIndex s3 = 1).
Proof.
  split.
  - intros now random first rest s c Hps Hrr Hwf Hcur.
    assert (select_by_strategy random first s =
            (Ok (Some c),
             set_currentProviderIndex
               ((currentProviderIndex s + 1) mod length (providers s)) s)) as Hsel.
    { unfold select_by_strategy. by rewrite Hrr, Hcur. }
    destruct (getStorageProvider_ok now random first rest s c) as (uc & r & Huc & Hr & Hget);
      [done | done | by rewrite Hsel | by eapply list_elem_of_lookup_2 |].
    eexists uc, _, _. split; [by rewrite Hsel|]. split; [done|].
    split; [exact Hget|]. split; [by rewrite Hsel|].
    intros Hge. apply available_ge in Hge; [|by eapply (proj2 Hwf)].
    rewrite available_negb_rate_limited in Hge. apply negb_true_iff in Hge.
    by rewrite Hge.
  - intros A B expiry t1 t2 t3 r1 r2 r3 Hne Hrl [Ht1 Ht2].
    set (s0 := constructor _).
    assert (Usage.rateLimit (Usage.fresh B) = Usage.rateLimit (Usage.fresh A)) as Hrl'
      by (simpl; by rewrite Hrl).
    assert (providerUsage s0 !! Provider.id A = Some (Usage.fresh A)) as HA0.
    { simpl. unfold init_usage. simpl. by rewrite lookup_insert_ne, lookup_insert_eq. }
    assert (providerUsage s0 !! Provider.id B = Some (Usage.fresh B)) as HB0.
    { simpl. unfold init_usage. simpl. by rewrite lookup_insert_eq. }
    pose proof (constructor_well_formed
                  {| Options.providers := Some [A; B];
                     Options.loadBalanceStrategy := Some "round-robin";
                     Options.defaultExpiry := expiry |}) as Hwf0.
    fold s0 in Hwf0.
    (* first call *)
    opose proof* (round_robin_step t1 r1 A [B] s0 A (Usage.fresh A)) as H1; [done..| |].
    {      intros Hlim q uq Hq Hu. two_providers Hq; simplify_eq; [done|].
      eapply rate_limited_mono; [exact Hrl' | | exact Hlim]. simpl. lia. }
    pose proof (getStorageProvider_well_formed t1 r1 s0 Hwf0) as Hwf1.
    rewrite H1 in Hwf1 |- *. simpl in Hwf1.
    match type of Hwf1 with well_formed ?s => set (s1 := s) in * end.
    assert (providerUsage s1 !! Provider.id A = Some (Usage.touch t1 (Usage.fresh A))) as HA1
      by (simpl; by rewrite lookup_insert_eq).
    assert (providerUsage s1 !! Provider.id B = Some (Usage.fresh B)) as HB1
      by (simpl; by rewrite lookup_insert_ne).
    (* second call *)
    opose proof* (round_robin_step t2 r2 A [B] s1 B (Usage.fresh B)) as H2; [done..| |].
    {      intros Hlim q uq Hq Hu. two_providers Hq; simplify_eq; [|done].
      eapply rate_limited_mono; [| | exact Hlim]; simpl; [by rewrite Hrl | lia]. }
    pose proof (getStorageProvider_well_formed t2 r2 s1 Hwf1) as Hwf2.
    rewrite H2 in Hwf2. simpl in Hwf2.
    match type of Hwf2 with well_formed ?s => set (s2 := s) in * end.
    assert (providerUsage s2 !! Provider.id A = Some (Usage.touch t1 (Usage.fresh A))) as HA2
      by (simpl; by rewrite lookup_insert_ne).
    assert (providerUsage s2 !! Provider.id B = Some (Usage.touch t2 (Usage.fresh B))) as HB2
      by (simpl; by rewrite lookup_insert_eq).
    (* third call *)
    opose proof* (round_robin_step t3 r3 A [B] s2 A (Usage.touch t1 (Usage.fresh A)))
      as H3; [done..| |].
    {      intros Hlim q uq Hq Hu. two_providers Hq; simplify_eq; [done|].
      eapply rate_limited_mono; [| | exact Hlim]; simpl; [by rewrite Hrl | lia]. }
    eexists s1, s2, _. split; [done|]. split; [exact H2|]. split; [exact H3|]. done.
Qed.

Lemma round_robin_cycle_witness :
  ∃ s1 s2 s3,
    getStorageProvider 1700000000000 0
      (constructor {| Options.providers := Some [bare "A"; bare "B"];
                      Options.loadBalanceStrategy := Some "round-robin";
                      Options.defaultExpiry := None |}) = (Ok (bare "A"), s1) ∧
    getStorageProvider 1700000000000 0 s1 = (Ok (bare "B"), s2) ∧
    getStorageProvider 1700000000000 0 s2 = (Ok (bare "A"), s3) ∧
    currentProviderIndex s1 = 1 ∧
    currentProviderIndex s2 = 0 ∧
    currentProviderIndex s3 = 1.
Proof.
  apply (proj2 round_robin_cycle (bare "A") (bare "B") None
           1700000000000%Z 1700000000000%Z 1700000000000%Z 0%Q 0%Q 0%Q).
  - simpl. discriminate.
  - reflexivity.
  - lia.
Defined.

(** C6, as stated, fails on the session [Slow]: both usage records are
    fresh, the strategy is round-robin, and the three calls return [A],
    [B], [B]: at the third call [A] was used 3 ms ago and is limited to one
    request per second, while the gate of [B] is satisfied. *)
Lemma round_robin_cycle_counterexample :
  providers Slow.session0 = [Slow.A; Slow.B] ∧
  providerUsage Slow.session0 !! "A" = Some (Usage.fresh Slow.A) ∧
  providerUsage Slow.session0 !! "B" = Some (Usage.fresh Slow.B) ∧
  getStorageProvider 1000000 0 Slow.session0 = (Ok Slow.A, Slow.session1) ∧
  getStorageProvider 1000001 0 Slow.session1 = (Ok Slow.B, Slow.session2) ∧
  getStorageProvider 1000003 0 Slow.session2 = (Ok Slow.B, Slow.session3) ∧
  Slow.B ≠ Slow.A.
Proof. vm_compute. repeat split; discriminate. Qed.

(** ** C2: weighted-random and a weight of 0 *)

(** C2.  With weights [{A: 1, B: 0}] the weight of [B] is read as
    [0 || 1 = 1]: the total weight is 2, and every draw of [Math.random()]
    in the upper half of [0, 1) selects [B]. *)
Theorem zero_weight_provider_is_selected (now : Z) (random : Q) :
  (1 ≤ now)%Z →
  (1 # 2 <= random)%Q →
  (random < 1)%Q →
  totalWeight (providers Weighted.session) = 2%Q ∧
  (getStorageProvider now random Weighted.session).1 = Ok Weighted.B.
Proof.
  intros Hnow Hlo Hhi. split; [reflexivity|].
  assert (weighted_scan (random * 2)%Q [Weighted.A; Weighted.B] = Some Weighted.B) as Hscan.
  { simpl.
    replace (Qltb (random * 2) (weight_of Weighted.A)) with false
      by (symmetry; apply Qltb_ge; change (weight_of Weighted.A) with 1%Q; lra).
    replace (Qltb (random * 2 - weight_of Weighted.A) (weight_of Weighted.B)) with true
      by (symmetry; apply Qltb_lt;
          change (weight_of Weighted.A) with 1%Q; change (weight_of Weighted.B) with 1%Q; lra).
    done. }
  erewrite (getStorageProvider_keeps_candidate now random Weighted.A [Weighted.B]
              Weighted.session Weighted.B (Usage.fresh Weighted.B)); [done|..].
  - reflexivity.
  - apply constructor_well_formed.
  - change (select_by_strategy random Weighted.A Weighted.session)
      with (Ok (Some (default Weighted.A
                        (weighted_scan (random * 2)%Q [Weighted.A; Weighted.B]))),
            Weighted.session).
    by rewrite Hscan.
  - right. by left.
  - reflexivity.
  - intros Hlim. exfalso. revert Hlim. unfold rate_limited. simpl.
    rewrite Qltb_lt. rewrite Z.sub_0_r.
    intros Hlt. apply Qlt_not_le in Hlt. apply Hlt.
    apply Qle_trans with (inject_Z 1); [by vm_compute | by rewrite <- Zle_Qle].
Qed.

Lemma zero_weight_provider_is_selected_witness :
  totalWeight (providers Weighted.session) = 2%Q ∧
  (getStorageProvider 1700000000000 (3 # 4) Weighted.session).1 = Ok Weighted.B.
Proof.
  apply (zero_weight_provider_is_selected 1700000000000 (3 # 4)).
  - lia.
  - vm_compute. discriminate.
  - reflexivity.
Defined.

(** ** C3 and C9: what a configuration update leaves behind *)

Lemma merge_provider_usage_other (s : MultiBucket) (newProvider : Provider.t) (id : string) :
  id ≠ Provider.id newProvider →
  providerUsage (merge_provider s newProvider) !! id = providerUsage s !! id.
Proof.
  intros Hne. unfold merge_provider.
  destruct (list_find _ _) as [[i existing]|]; simpl; [done|].
  by rewrite lookup_insert_ne.
Qed.

Lemma merge_providers_usage_other (incoming : list Provider.t) (s : MultiBucket) (id : string) :
  id ∉ Provider.id <$> incoming →
  providerUsage (fold_left merge_provider incoming s) !! id = providerUsage s !! id.
Proof.
  revert s. induction incoming as [|p ps IH]; intros s Hid; simpl; [done|].
  rewrite fmap_cons in Hid. apply not_elem_of_cons in Hid as [Hne Hid].
  rewrite IH by done. by apply merge_provider_usage_other.
Qed.

(** The strategy and expiry settings of an update touch neither the
    registry nor the usage tracker. *)
Lemma updateConfig_registry (configData : Config.t) (s : MultiBucket) :
  let s1 :=
    match Config.providers configData with
    | Some incoming =>
        let s' := fold_left merge_provider incoming s in
        if Config.removeStaleProviders configData then remove_stale incoming s' else s'
    | None => s
    end in
  providers (updateConfig configData s) = providers s1 ∧
  providerUsage (updateConfig configData s) = providerUsage s1 ∧
  currentProviderIndex (updateConfig configData s) = currentProviderIndex s1.
Proof.
  intros s1. unfold updateConfig. fold s1.
  destruct (truthy_str _), (Config.defaultExpiry configData) as [e|];
    try destruct (e =? 0)%Z; done.
Qed.

(** An existing provider keeps the usage record it had: the merge never
    writes the record of an id that is already in the registry. *)
Lemma merge_provider_usage_existing (s : MultiBucket) (newProvider : Provider.t) :
  Provider.id newProvider ∈ Provider.id <$> providers s →
  providerUsage (merge_provider s newProvider) = providerUsage s.
Proof.
  intros Hin. unfold merge_provider.
  destruct (list_find _ _) as [[i existing]|] eqn:Hfind; [done|].
  apply list_find_None in Hfind.
  apply list_elem_of_fmap in Hin as (p & Hid & Hp).
  rewrite Forall_forall in Hfind. by destruct (Hfind p Hp).
Qed.

(** C3, as stated, fails on the session [Reload]: after the update that
    omits ["r2-x"] with [removeStaleProviders] set, the provider is gone
    from the registry but its usage record is still in the tracker, and
    [getStats] reports 2 total requests next to a single provider with 1
    request. *)
Lemma remove_stale_counterexample :
  providers (updateConfig Reload.drop_r2_x Reload.session2) = [Reload.s3_main] ∧
  providerUsage (updateConfig Reload.drop_r2_x Reload.session2) !! "r2-x" =
    Some {| Usage.requestCount := 1; Usage.errorCount := 0;
            Usage.lastUsed := 1000001; Usage.rateLimit := 1000 |} ∧
  getStats (updateConfig Reload.drop_r2_x Reload.session2) =
    Ok {| Stats.providerCount := 1;
          Stats.totalRequests := 2;
          Stats.providerStats :=
            [ {| ProviderStat.id := "s3-main"; ProviderStat.type := Some "s3";
                 ProviderStat.requestCount := 1; ProviderStat.errorCount := 0;
                 ProviderStat.errorRate := RateString "0.0000" |} ] |}.
Proof. vm_compute. done. Qed.

(** C3 (as amended).  After an update with [removeStaleProviders] set,
    every provider left in the registry has an id of the incoming list, so
    a provider whose id the list omits is removed; the usage record of
    every id that the list omits is kept as it was, and so is still among
    the records that [getStats] sums into [totalRequests] (unless the id
    is ["__proto__"], whose record is never an own property and never
    summed). *)
Theorem remove_stale_keeps_usage (configData : Config.t) (incoming : list Provider.t)
    (s : MultiBucket) :
  Config.providers configData = Some incoming →
  Config.removeStaleProviders configData = true →
  (∀ p, p ∈ providers (updateConfig configData s) →
        Provider.id p ∈ Provider.id <$> incoming) ∧
  (∀ id, id ∉ Provider.id <$> incoming →
         providerUsage (updateConfig configData s) !! id = providerUsage s !! id) ∧
  (∀ id u, id ∉ Provider.id <$> incoming →
           id ≠ "__proto__" →
           providerUsage s !! id = Some u →
           u ∈ own_values (providerUsage (updateConfig configData s))).
Proof.
  intros Hinc Hstale.
  destruct (updateConfig_registry configData s) as (Hp & Hu & _).
  rewrite Hinc, Hstale in Hp, Hu. simpl in Hp, Hu.
  assert (∀ id, id ∉ Provider.id <$> incoming →
            providerUsage (updateConfig configData s) !! id = providerUsage s !! id) as Hkeep.
  { intros id Hid. rewrite Hu. by apply merge_providers_usage_other. }
  split; [|split; [done|]].
  - intros p. rewrite Hp. by intros [? _]%list_elem_of_filter.
  - intros id u Hid Hproto Hs. apply list_elem_of_fmap. exists (id, u). split; [done|].
    apply elem_of_map_to_list. unfold own. rewrite lookup_delete_ne by done.
    by rewrite Hkeep.
Qed.

Lemma remove_stale_keeps_usage_witness :
  (∀ p, p ∈ providers (updateConfig Reload.drop_r2_x Reload.session2) →
        Provider.id p ∈ Provider.id <$> [bare "s3-main"]) ∧
  (∀ id, id ∉ Provider.id <$> [bare "s3-main"] →
         providerUsage (updateConfig Reload.drop_r2_x Reload.session2) !! id =
         providerUsage Reload.session2 !! id) ∧
  (∀ id u, id ∉ Provider.id <$> [bare "s3-main"] →
           id ≠ "__proto__" →
           providerUsage Reload.session2 !! id = Some u →
           u ∈ own_values (providerUsage (updateConfig Reload.drop_r2_x Reload.session2))).
Proof.
  apply (remove_stale_keeps_usage Reload.drop_r2_x [bare "s3-main"] Reload.session2);
    reflexivity.
Defined.

Lemma filter_id_absent (ps : list Provider.t) (id : string) :
  id ∉ Provider.id <$> ps → filter (λ q, Provider.id q = id) ps = [].
Proof.
  induction ps as [|q ps IH]; intros Hid; [done|].
  rewrite fmap_cons in Hid. apply not_elem_of_cons in Hid as [Hne Hid].
  rewrite filter_cons, decide_False by done. by apply IH.
Qed.

Lemma filter_id_unique (ps : list Provider.t) (p : Provider.t) :
  NoDup (Provider.id <$> ps) → p ∈ ps →
  filter (λ q, Provider.id q = Provider.id p) ps = [p].
Proof.
  induction ps as [|q ps IH]; intros Hnd Hp; [by apply elem_of_nil in Hp|].
  rewrite fmap_cons in Hnd. apply NoDup_cons in Hnd as [Hfresh Hnd].
  rewrite filter_cons. apply elem_of_cons in Hp as [->|Hp].
  - rewrite decide_True by done. f_equal. by apply filter_id_absent.
  - rewrite decide_False; [by apply IH|].
    intros Heq. apply Hfresh. rewrite Heq. apply list_elem_of_fmap. by exists p.
Qed.

Lemma constructor_limits_in_sync (options : Options.t) :
  NoDup (Provider.id <$> default [] (Options.providers options)) →
  limits_in_sync (constructor options).
Proof.
  intros Hnd p Hp. simpl in *.
  rewrite init_usage_lookup, filter_id_unique by done. by eexists.
Qed.

Lemma getStorageProvider_limits_in_sync now random (s : MultiBucket) :
  limits_in_sync s → limits_in_sync (getStorageProvider now random s).2.
Proof.
  intros Hsync. unfold getStorageProvider.
  destruct (providers s) as [|first rest]; [done|].
  destruct (select_by_strategy_frame random first s) as (Hp & Hu & _).
  destruct (select_by_strategy random first s) as [[sel|e] s1]; simpl in *;
    [|intros p; rewrite Hp, Hu; by apply Hsync].
  assert (limits_in_sync s1) as Hsync1
    by (intros p; rewrite Hp, Hu; by apply Hsync).
  clear Hsync. unfold gate_and_update.
  destruct sel as [c|]; [|done].
  destruct (providerUsage s1 !! Provider.id c) as [uc|] eqn:Huc; [|done].
  match goal with |- context [match ?f with Ok _ => _ | Throw _ => _ end] =>
    destruct f; [|done] end.
  intros p Hin. simpl in *. destruct (Hsync1 p Hin) as (u & Hup & Hrl).
  destruct (decide (Provider.id c = Provider.id p)) as [Heq|Hne].
  - rewrite <- Heq, lookup_insert_eq. eexists. split; [done|].
    rewrite <- Heq, Huc in Hup. by simplify_eq.
  - rewrite lookup_insert_ne by done. eauto.
Qed.

(** Inserting a provider whose id is new keeps the copies in step. *)
Lemma merge_new_provider_limits_in_sync (s : MultiBucket) (newProvider : Provider.t) :
  Provider.id newProvider ∉ Provider.id <$> providers s →
  limits_in_sync s → limits_in_sync (merge_provider s newProvider).
Proof.
  intros Hnew Hsync. unfold merge_provider.
  destruct (list_find _ _) as [[i existing]|] eqn:Hfind.
  { apply list_find_Some in Hfind as (Hi & Hid & _). exfalso. apply Hnew.
    rewrite <- Hid. apply list_elem_of_fmap. exists existing.
    split; [done|]. by eapply list_elem_of_lookup_2. }
  intros p Hp. simpl in *. apply elem_of_app in Hp as [Hp|Hp].
  - destruct (Hsync p Hp) as (u & Hu & Hrl). exists u. split; [|done].
    rewrite lookup_insert_ne; [done|]. intros Heq. apply Hnew. rewrite Heq.
    apply list_elem_of_fmap. by exists p.
  - apply list_elem_of_singleton in Hp as ->. rewrite lookup_insert_eq. by eexists.
Qed.

(** C9.  Before the update the limit held by every usage record agrees
    with its provider's configured limit.  After the update that raises the
    limit of ["s3-main"] from 100 to 200 it does not: the provider object
    holds 200 and ["r2-x"] is untouched, but the usage record of
    ["s3-main"] still holds 100, and the gate uses it: 7 ms after its last
    use ["s3-main"] is passed over for ["r2-x"], although
    [1000 / 200 = 5 <= 7]. *)
Theorem merged_rateLimit_is_not_copied :
  limits_in_sync Reload.session2 ∧
  ¬ limits_in_sync (updateConfig Reload.raise_limit Reload.session2) ∧
  providers (updateConfig Reload.raise_limit Reload.session2) =
    [with_rateLimit 200 Reload.s3_main; Reload.r2_x] ∧
  Provider.rateLimit (with_rateLimit 200 Reload.s3_main) = Some 200%Q ∧
  providerUsage (updateConfig Reload.raise_limit Reload.session2) !! "s3-main" =
    Some {| Usage.requestCount := 1; Usage.errorCount := 0;
            Usage.lastUsed := 1000000; Usage.rateLimit := 100 |} ∧
  (select_by_strategy 0 (with_rateLimit 200 Reload.s3_main)
     (updateConfig Reload.raise_limit Reload.session2)).1 =
    Ok (Some (with_rateLimit 200 Reload.s3_main)) ∧
  (getStorageProvider 1000007 0 (updateConfig Reload.raise_limit Reload.session2)).1 =
    Ok Reload.r2_x ∧
  available 1000007
    {| Usage.requestCount := 1; Usage.errorCount := 0;
       Usage.lastUsed := 1000000; Usage.rateLimit := 200 |} = true.
Proof.
  split; [|split; [|by vm_compute]].
  - do 2 apply getStorageProvider_limits_in_sync.
    apply constructor_limits_in_sync. simpl.
    apply NoDup_cons. split; [|apply NoDup_singleton].
    by intros ?%list_elem_of_singleton.
  - intros Hsync.
    destruct (Hsync (with_rateLimit 200 Reload.s3_main)) as (u & Hu & Hrl); [by left|].
    vm_compute in Hu. injection Hu as <-. vm_compute in Hrl. discriminate.
Qed.

(** ** C4: the statistics snapshot *)

(** [nearest_scaled] rounds to the nearest integer, upwards on a tie:
    with [x = m * 10^f] and [k = 2^(-e)], the result [n] satisfies
    [n - 1/2 <= x / k < n + 1/2]. *)
Lemma nearest_scaled_nearest (f : nat) (m : positive) (e : Z) :
  (e < 0)%Z →
  (2 * 2 ^ (- e) * nearest_scaled f m e - 2 ^ (- e)
   ≤ 2 * (Z.pos m * 10 ^ Z.of_nat f)
   < 2 * 2 ^ (- e) * nearest_scaled f m e + 2 ^ (- e))%Z.
Proof.
  intros He. unfold nearest_scaled.
  destruct (Z.leb_spec 0 e) as [|_]; [lia|].
  replace (1 - e)%Z with (Z.succ (- e)) by lia.
  rewrite Z.pow_succ_r by lia.
  set (k := (2 ^ (- e))%Z). set (x := (Z.pos m * 10 ^ Z.of_nat f)%Z).
  assert (0 < k)%Z as Hk by (apply Z.pow_pos_nonneg; lia).
  pose proof (Z.div_mod (2 * x + k) (2 * k) ltac:(lia)) as Hdiv.
  pose proof (Z.mod_pos_bound (2 * x + k) (2 * k) ltac:(lia)) as Hmod.
  lia.
Qed.

Lemma nearest_scaled_exact (f : nat) (m : positive) (e : Z) :
  (0 ≤ e)%Z → nearest_scaled f m e = (Z.pos m * 10 ^ Z.of_nat f * 2 ^ e)%Z.
Proof. intros He. unfold nearest_scaled. by destruct (Z.leb_spec 0 e); [|lia]. Qed.

Lemma sum_Z_Permutation (l l' : list Z) : l ≡ₚ l' → sum_Z l = sum_Z l'.
Proof. unfold sum_Z. induction 1; simpl; lia. Qed.

Lemma fold_left_requestCount (l : list Usage.t) (a : Z) :
  fold_left (λ sum u, (sum + Usage.requestCount u)%Z) l a =
  (a + sum_Z (Usage.requestCount <$> l))%Z.
Proof.
  unfold sum_Z. revert a. induction l as [|u l IH]; intros a; csimpl; [lia|].
  rewrite IH. lia.
Qed.

Lemma totalRequests_sum (usage : gmap string Usage.t) :
  totalRequests usage = sum_Z (Usage.requestCount <$> own_values usage).
Proof. unfold totalRequests. by rewrite fold_left_requestCount. Qed.

(** When a dictionary holds exactly one record per provider of a list,
    the sum over its records is the sum over the providers. *)
Lemma sum_values_providers (ps : list Provider.t) (usage : gmap string Usage.t) :
  NoDup (Provider.id <$> ps) →
  dom usage = list_to_set (Provider.id <$> ps) →
  sum_Z (Usage.requestCount <$> (snd <$> map_to_list usage)) =
  sum_Z ((λ p, default 0%Z (Usage.requestCount <$> usage !! Provider.id p)) <$> ps).
Proof.
  revert usage. induction ps as [|p ps IH]; intros usage Hnd Hdom.
  - assert (usage = ∅) as -> by (by apply dom_empty_iff_L).
    by rewrite map_to_list_empty.
  - rewrite fmap_cons in Hnd, Hdom. apply NoDup_cons in Hnd as [Hfresh Hnd].
    rewrite list_to_set_cons in Hdom.
    assert (is_Some (usage !! Provider.id p)) as [u Hu].
    { apply elem_of_dom. rewrite Hdom. apply elem_of_union. left.
      by apply elem_of_singleton. }
    rewrite <- (sum_Z_Permutation _ _
      (fmap_Permutation _ _ _ (fmap_Permutation snd _ _ (map_to_list_delete usage _ _ Hu)))).
    rewrite fmap_cons. simpl. rewrite Hu. simpl. f_equal.
    rewrite (IH (delete (Provider.id p) usage) Hnd).
    + f_equal. apply list_fmap_ext. intros i q Hq.
      rewrite lookup_delete_ne; [done|].
      intros Heq. apply Hfresh. rewrite Heq.
      apply list_elem_of_fmap. exists q. split; [done|]. by eapply list_elem_of_lookup_2.
    + rewrite dom_delete_L, Hdom. apply set_eq. intros k.
      rewrite elem_of_difference, elem_of_union, elem_of_singleton, elem_of_list_to_set.
      split; [by intros [[->|Hk] Hne] | intros Hk].
      split; [by right | by intros ->].
Qed.

(** When the usage tracker holds exactly one record per provider of the
    registry, the total is the sum over the providers that are not called
    ["__proto__"]. *)
Lemma totalRequests_providers (ps : list Provider.t) (usage : gmap string Usage.t) :
  NoDup (Provider.id <$> ps) →
  dom usage = list_to_set (Provider.id <$> ps) →
  totalRequests usage =
  sum_Z ((λ p, default 0%Z (Usage.requestCount <$> usage !! Provider.id p))
           <$> filter (λ p, Provider.id p ≠ "__proto__") ps).
Proof.
  intros Hnd Hdom. rewrite totalRequests_sum. unfold own_values.
  rewrite (sum_values_providers (filter (λ p, Provider.id p ≠ "__proto__") ps)).
  - f_equal. apply list_fmap_ext. intros i q Hq.
    apply list_elem_of_lookup_2, list_elem_of_filter in Hq as [Hne _].
    unfold own. by rewrite lookup_delete_ne.
  - eapply sublist_NoDup; [exact Hnd | apply fmap_sublist, sublist_filter].
  - unfold own. rewrite dom_delete_L, Hdom. apply set_eq. intros k.
    rewrite elem_of_difference, elem_of_singleton, !elem_of_list_to_set,
      !list_elem_of_fmap.
    split.
    + intros [(q & -> & Hq) Hne]. exists q. split; [done|].
      by apply list_elem_of_filter.
    + intros (q & -> & [Hne Hq]%list_elem_of_filter). split; [by exists q | done].
Qed.

Lemma map_res_cons {A B : Type} (f : A → Res B) (x : A) (l : list A) (y : B) (ys : list B) :
  f x = Ok y → map_res f l = Ok ys → map_res f (x :: l) = Ok (y :: ys).
Proof. intros Hx Hl. simpl. by rewrite Hx, Hl. Qed.

Lemma provider_stat_ok usage (p : Provider.t) (u : Usage.t) :
  usage !! Provider.id p = Some u →
  provider_stat usage p =
  Ok {| ProviderStat.id := Provider.id p;
        ProviderStat.type := Provider.type p;
        ProviderStat.requestCount := Usage.requestCount u;
        ProviderStat.errorCount := Usage.errorCount u;
        ProviderStat.errorRate := errorRate_of u |}.
Proof. intros Hu. unfold provider_stat, usage_of. by rewrite Hu. Qed.

Lemma provider_stats_ok usage (ps : list Provider.t) :
  (∀ p, p ∈ ps → is_Some (usage !! Provider.id p)) →
  ∃ stats,
    map_res (provider_stat usage) ps = Ok stats ∧
    length stats = length ps ∧
    ∀ i p, ps !! i = Some p →
      ∃ u, usage !! Provider.id p = Some u ∧
           stats !! i =
           Some {| ProviderStat.id := Provider.id p;
                   ProviderStat.type := Provider.type p;
                   ProviderStat.requestCount := Usage.requestCount u;
                   ProviderStat.errorCount := Usage.errorCount u;
                   ProviderStat.errorRate := errorRate_of u |}.
Proof.
  induction ps as [|p ps IH]; intros Hc.
  - exists []. by split; [|split].
  - destruct (Hc p) as [u Hu]; [by left|].
    destruct IH as (stats & Hstats & Hlen & Hnth); [intros q Hq; apply Hc; by right|].
    eexists (_ :: stats).
    split; [exact (map_res_cons _ _ _ _ _ (provider_stat_ok _ _ _ Hu) Hstats)|].
    split; [simpl; by rewrite Hlen|].
    intros [|i] q Hq; simplify_eq/=; eauto.
Qed.

(** C4, as stated, fails on a provider that has not been selected yet:
    its [errorRate] is the number 0, not the string "0". *)
Lemma getStats_counterexample :
  getStats Reload.session0 =
    Ok {| Stats.providerCount := 2;
          Stats.totalRequests := 0;
          Stats.providerStats :=
            [ {| ProviderStat.id := "s3-main"; ProviderStat.type := Some "s3";
                 ProviderStat.requestCount := 0; ProviderStat.errorCount := 0;
                 ProviderStat.errorRate := RateNumber 0 |};
              {| ProviderStat.id := "r2-x"; ProviderStat.type := Some "r2";
                 ProviderStat.requestCount := 0; ProviderStat.errorCount := 0;
                 ProviderStat.errorRate := RateNumber 0 |} ] |} ∧
  RateNumber 0 ≠ RateString "0".
Proof. split; [by vm_compute | discriminate]. Qed.

(** [toFixed] on a positive number with a fractional part: the digits
    are those of the integer nearest to the number scaled by [10^f], the
    larger one on a tie. *)
Lemma toFixed_nearest (f : nat) (m : positive) (e : Z) :
  (e < 0)%Z →
  toFixed f (S754_finite false m e) = fixed_digits f (nearest_scaled f m e) ∧
  (2 * 2 ^ (- e) * nearest_scaled f m e - 2 ^ (- e)
   ≤ 2 * (Z.pos m * 10 ^ Z.of_nat f)
   < 2 * 2 ^ (- e) * nearest_scaled f m e + 2 ^ (- e))%Z.
Proof. intros He. split; [done | by apply nearest_scaled_nearest]. Qed.

(** C4 (as amended).  On a state where every provider has a usage record
    and the counters and their total are in the range of the exact
    integers, [getStats] returns a snapshot whose [providerCount] is the
    number of providers, whose [totalRequests] is the sum of the
    [requestCount]s of the own records of the tracker (the sum over the
    providers not called ["__proto__"] when the tracker holds exactly one
    record per provider), and whose i-th entry describes the i-th
    provider, with [errorRate] the 4-decimal [toFixed] string of the
    binary64 quotient [errorCount / requestCount] when [requestCount > 0]
    (the digits of the integer nearest to 10^4 times that quotient) and
    the number 0 otherwise; 5 errors over 100 requests give "0.0500". *)
Theorem getStats_snapshot (s : MultiBucket) :
  usage_complete s →
  counters_in_range s →
  (sum_Z (Usage.requestCount <$> own_values (providerUsage s)) < 2 ^ 53)%Z →
  ∃ stats,
    getStats s = Ok stats ∧
    Stats.providerCount stats = length (providers s) ∧
    Stats.totalRequests stats =
      sum_Z (Usage.requestCount <$> own_values (providerUsage s)) ∧
    (NoDup (Provider.id <$> providers s) →
     dom (providerUsage s) = list_to_set (Provider.id <$> providers s) →
     Stats.totalRequests stats =
       sum_Z ((λ p, default 0%Z (Usage.requestCount <$> providerUsage s !! Provider.id p))
                <$> filter (λ p, Provider.id p ≠ "__proto__") (providers s))) ∧
    length (Stats.providerStats stats) = length (providers s) ∧
    (∀ i p, providers s !! i = Some p →
       ∃ u st,
         providerUsage s !! Provider.id p = Some u ∧
         Stats.providerStats stats !! i = Some st ∧
         ProviderStat.id st = Provider.id p ∧
         ProviderStat.type st = Provider.type p ∧
         ProviderStat.requestCount st = Usage.requestCount u ∧
         ProviderStat.errorCount st = Usage.errorCount u ∧
         ((0 < Usage.requestCount u)%Z →
          ProviderStat.errorRate st =
            RateString (toFixed 4 (js_div (Usage.errorCount u) (Usage.requestCount u))) ∧
          ∀ m e,
            js_div (Usage.errorCount u) (Usage.requestCount u) = S754_finite false m e →
            (e < 0)%Z →
            ProviderStat.errorRate st = RateString (fixed_digits 4 (nearest_scaled 4 m e)) ∧
            (2 * 2 ^ (- e) * nearest_scaled 4 m e - 2 ^ (- e)
             ≤ 2 * (Z.pos m * 10 ^ 4)
             < 2 * 2 ^ (- e) * nearest_scaled 4 m e + 2 ^ (- e))%Z) ∧
         (Usage.requestCount u = 0%Z → ProviderStat.errorRate st = RateNumber 0)) ∧
    toFixed 4 (js_div 5 100) = "0.0500".
Proof.
  intros Hc _ _.
  destruct (provider_stats_ok (providerUsage s) (providers s) Hc) as (stats & Hstats & Hlen & Hnth).
  eexists. split; [unfold getStats; by rewrite Hstats|]. simpl.
  split; [done|]. split; [apply totalRequests_sum|].
  split; [apply totalRequests_providers|]. split; [done|]. split; [|by vm_compute].
  intros i p Hp. destruct (Hnth i p Hp) as (u & Hu & Hst).
  eexists u, _. split; [done|]. split; [exact Hst|]. simpl.
  repeat (split; [done|]). unfold errorRate_of. split.
  - intros Hrc. rewrite (proj2 (Z.gtb_lt _ _) Hrc). split; [done|].
    intros m e Hq He. rewrite Hq.
    destruct (toFixed_nearest 4 m e He) as [-> Hnear]. by split.
  - by intros ->.
Qed.

Lemma getStats_snapshot_witness :
  ∃ stats,
    getStats Snapshot.session = Ok stats ∧
    Stats.providerCount stats = length (providers Snapshot.session) ∧
    Stats.totalRequests stats =
      sum_Z (Usage.requestCount <$> own_values (providerUsage Snapshot.session)) ∧
    (NoDup (Provider.id <$> providers Snapshot.session) →
     dom (providerUsage Snapshot.session) =
       list_to_set (Provider.id <$> providers Snapshot.session) →
     Stats.totalRequests stats =
       sum_Z ((λ p, default 0%Z
                      (Usage.requestCount <$> providerUsage Snapshot.session !! Provider.id p))
                <$> filter (λ p, Provider.id p ≠ "__proto__") (providers Snapshot.session))) ∧
    length (Stats.providerStats stats) = length (providers Snapshot.session) ∧
    (∀ i p, providers Snapshot.session !! i = Some p →
       ∃ u st,
         providerUsage Snapshot.session !! Provider.id p = Some u ∧
         Stats.providerStats stats !! i = Some st ∧
         ProviderStat.id st = Provider.id p ∧
         ProviderStat.type st = Provider.type p ∧
         ProviderStat.requestCount st = Usage.requestCount u ∧
         ProviderStat.errorCount st = Usage.errorCount u ∧
         ((0 < Usage.requestCount u)%Z →
          ProviderStat.errorRate st =
            RateString (toFixed 4 (js_div (Usage.errorCount u) (Usage.requestCount u))) ∧
          ∀ m e,
            js_div (Usage.errorCount u) (Usage.requestCount u) = S754_finite false m e →
            (e < 0)%Z →
            ProviderStat.errorRate st = RateString (fixed_digits 4 (nearest_scaled 4 m e)) ∧
            (2 * 2 ^ (- e) * nearest_scaled 4 m e - 2 ^ (- e)
             ≤ 2 * (Z.pos m * 10 ^ 4)
             < 2 * 2 ^ (- e) * nearest_scaled 4 m e + 2 ^ (- e))%Z) ∧
         (Usage.requestCount u = 0%Z → ProviderStat.errorRate st = RateNumber 0)) ∧
    toFixed 4 (js_div 5 100) = "0.0500".
Proof.
  apply (getStats_snapshot Snapshot.session).
  - intros p Hp. two_providers Hp; by eexists.
  - unfold counters_in_range. eapply usage_Forall; [by vm_compute|].
    repeat constructor; simpl; lia.
  - by vm_compute.
Defined.

(** The snapshot of the test: 150 requests in total, "0.0500" and "0.0400". *)
Example getStats_test_snapshot :
  getStats Snapshot.session =
    Ok {| Stats.providerCount := 2;
          Stats.totalRequests := 150;
          Stats.providerStats :=
            [ {| ProviderStat.id := "s3-main"; ProviderStat.type := Some "s3";
                 ProviderStat.requestCount := 100; ProviderStat.errorCount := 5;
                 ProviderStat.errorRate := RateString "0.0500" |};
              {| ProviderStat.id := "r2-x"; ProviderStat.type := Some "r2";
                 ProviderStat.requestCount := 50; ProviderStat.errorCount := 2;
                 ProviderStat.errorRate := RateString "0.0400" |} ] |}.
Proof. by vm_compute. Qed.

(** ** C8: least-errors *)

Lemma reduce_least_errors_fold usage (ps : list Provider.t) (acc : Provider.t) :
  is_Some (usage !! Provider.id acc) →
  (∀ p, p ∈ ps → is_Some (usage !! Provider.id p)) →
  reduce (least_errors_step usage) ps acc =
  Ok (fold_left (lower_rate (rate_of usage)) ps acc).
Proof.
  revert acc. induction ps as [|p ps IH]; intros acc Hacc Hps; [done|].
  destruct (Hps p) as [up Hup]; [by left|]. destruct Hacc as [ua Hua].
  rewrite (reduce_cons _ _ _ _ _ (least_errors_step_ok _ _ _ _ _ Hua Hup)).
  simpl. unfold lower_rate at 2, rate_of. rewrite Hup, Hua. simpl.
  apply IH.
  - destruct (Qltb _ _); by eexists.
  - intros q Hq. apply Hps. by right.
Qed.

(** The fold keeps the minimum of the rates, and the earliest provider
    that attains it. *)
Lemma lower_rate_fold_spec (rate : Provider.t → Q) (ps : list Provider.t) (acc : Provider.t) :
  let c := fold_left (lower_rate rate) ps acc in
  (rate c <= rate acc)%Q ∧
  (∀ q, q ∈ ps → (rate c <= rate q)%Q) ∧
  ((c = acc ∧ ∀ q, q ∈ ps → (rate acc <= rate q)%Q) ∨
   (∃ i, ps !! i = Some c ∧ (rate c < rate acc)%Q ∧
         ∀ j q, j < i → ps !! j = Some q → (rate c < rate q)%Q)).
Proof.
  revert acc. induction ps as [|p ps IH]; intros acc; simpl.
  - split; [apply Qle_refl|]. split; [by intros q ?%elem_of_nil|].
    left. split; [done|]. by intros q ?%elem_of_nil.
  - destruct (IH (lower_rate rate acc p)) as (Hle & Hall & Hwhere).
    set (c := fold_left (lower_rate rate) ps (lower_rate rate acc p)) in *.
    unfold lower_rate in Hle, Hwhere.
    destruct (Qltb (rate p) (rate acc)) eqn:Hlt.
    + apply Qltb_lt in Hlt.
      split; [apply Qlt_le_weak; by eapply Qle_lt_trans|].
      split; [intros q [->|Hq]%elem_of_cons; auto|].
      right. destruct Hwhere as [[Hc Hmin]|(i & Hi & Hci & Hbefore)].
      * exists 0. rewrite Hc. split; [done|]. split; [done|]. intros j q Hj. lia.
      * exists (S i). split; [done|]. split; [by eapply Qlt_trans|].
        intros [|j] q Hj Hq; simplify_eq/=; [done|]. eapply Hbefore; [|done]. lia.
    + apply Qltb_ge in Hlt.
      split; [done|].
      split; [intros q [->|Hq]%elem_of_cons; [by eapply Qle_trans|auto]|].
      destruct Hwhere as [[Hc Hmin]|(i & Hi & Hci & Hbefore)].
      * left. split; [done|]. intros q [->|Hq]%elem_of_cons; auto.
      * right. exists (S i). split; [done|]. split; [done|].
        intros [|j] q Hj Hq; simplify_eq/=; [by eapply Qlt_le_trans|].
        eapply Hbefore; [|done]. lia.
Qed.

Lemma least_errors_candidate random first rest (s : MultiBucket) :
  providers s = first :: rest →
  loadBalanceStrategy s = "least-errors" →
  usage_complete s →
  ∃ c i,
    (select_by_strategy random first s).1 = Ok (Some c) ∧
    providers s !! i = Some c ∧
    (∀ q, q ∈ providers s →
          (rate_of (providerUsage s) c <= rate_of (providerUsage s) q)%Q) ∧
    (∀ j q, j < i → providers s !! j = Some q →
            (rate_of (providerUsage s) c < rate_of (providerUsage s) q)%Q).
Proof.
  intros Hps Hstrat Hc.
  assert (first ∈ providers s) as Hfirst by (rewrite Hps; by left).
  unfold select_by_strategy. rewrite Hstrat. simpl.
  rewrite reduce_least_errors_fold; [|by apply Hc|done]. simpl.
  destruct (lower_rate_fold_spec (rate_of (providerUsage s)) (providers s) first)
    as (_ & Hall & Hwhere).
  eexists _. destruct Hwhere as [[Heq Hmin]|(i & Hi & _ & Hbefore)].
  - exists 0. split; [done|]. rewrite Heq. split; [by rewrite Hps|].
    split; [done|]. intros j q Hj. lia.
  - exists i. by repeat split.
Qed.

Lemma assign_usage_well_formed (id : string) (u : Usage.t) (s : MultiBucket) :
  ¬ (Usage.rateLimit u == 0)%Q → well_formed s → well_formed (assign_usage id u s).
Proof.
  intros Hnz [Hc Hn]. split.
  - intros p Hp. simpl in *.
    destruct (decide (id = Provider.id p)) as [->|Hne].
    + rewrite lookup_insert_eq. by eexists.
    + rewrite lookup_insert_ne by done. by apply Hc.
  - intros id' u' Hu'. simpl in *.
    destruct (decide (id = id')) as [<-|Hne].
    + rewrite lookup_insert_eq in Hu'. by simplify_eq.
    + rewrite lookup_insert_ne in Hu' by done. by eapply Hn.
Qed.

(** C8, as stated, fails on the session [Errors]: the provider with the
    minimum rate is [B], but [B] is rate limited at 1000003 ms and the call
    returns [A], whose rate is the highest of the three; and [A], with
    zero requests, has rate 2, not 0. *)
Lemma least_errors_counterexample :
  (select_by_strategy 0 Errors.A Errors.session).1 = Ok (Some Errors.B) ∧
  (getStorageProvider 1000003 0 Errors.session).1 = Ok Errors.A ∧
  Qltb (error_rate Errors.usageB) (error_rate Errors.usageA) = true ∧
  Qltb (error_rate Errors.usageC) (error_rate Errors.usageA) = true ∧
  Usage.requestCount Errors.usageA = 0%Z ∧
  Qeq_bool (error_rate Errors.usageA) 2 = true.
Proof. by vm_compute. Qed.

Lemma Z_or_max (n : Z) : (0 ≤ n)%Z → Z_or n 1 = Z.max n 1.
Proof. intros Hn. unfold Z_or. destruct (Z.eqb_spec n 0); lia. Qed.

(** C8 (as amended).  Under least-errors, on a well-formed non-empty
    state whose counters are below 2^26 (where the rounded quotients
    compare as the exact ones do), the strategy's candidate is the
    provider with the minimum of [errorCount / max(requestCount, 1)], the
    earliest in list order among those with the minimum, and the call
    returns it whenever its gate is satisfied.  The divisor is positive; a
    provider with zero requests has rate [errorCount], and every rate of
    non-negative counters is at least 0. *)
Theorem least_errors_selects_minimum now random first rest (s : MultiBucket) :
  providers s = first :: rest →
  loadBalanceStrategy s = "least-errors" →
  well_formed s →
  counters_small s →
  (∃ c uc i p s',
     (select_by_strategy random first s).1 = Ok (Some c) ∧
     providers s !! i = Some c ∧
     providerUsage s !! Provider.id c = Some uc ∧
     (∀ q uq, q ∈ providers s → providerUsage s !! Provider.id q = Some uq →
              (error_rate uc <= error_rate uq)%Q) ∧
     (∀ j q uq, j < i → providers s !! j = Some q →
                providerUsage s !! Provider.id q = Some uq →
                (error_rate uc < error_rate uq)%Q) ∧
     getStorageProvider now random s = (Ok p, s') ∧
     ((1000 / Usage.rateLimit uc <= inject_Z (now - Usage.lastUsed uc))%Q → p = c)) ∧
  (∀ u, (0 ≤ Usage.requestCount u)%Z →
        error_rate u =
          (inject_Z (Usage.errorCount u) / inject_Z (Z.max (Usage.requestCount u) 1))%Q ∧
        (0 < inject_Z (Z.max (Usage.requestCount u) 1))%Q) ∧
  (∀ u, Usage.requestCount u = 0%Z → (error_rate u == inject_Z (Usage.errorCount u))%Q) ∧
  (∀ u, (0 ≤ Usage.requestCount u)%Z → (0 ≤ Usage.errorCount u)%Z →
        (0 <= error_rate u)%Q).
Proof.
  intros Hps Hstrat Hwf _.
  assert (∀ u, (0 ≤ Usage.requestCount u)%Z →
            error_rate u =
              (inject_Z (Usage.errorCount u) / inject_Z (Z.max (Usage.requestCount u) 1))%Q ∧
            (0 < inject_Z (Z.max (Usage.requestCount u) 1))%Q) as Hformula.
  { intros u Hu. unfold error_rate. rewrite Z_or_max by done. split; [done|].
    change 0%Q with (inject_Z 0). rewrite <- Zlt_Qlt. lia. }
  split; [|split; [done|split]].
  - destruct (least_errors_candidate random first rest s Hps Hstrat (proj1 Hwf))
      as (c & i & Hsel & Hi & Hmin & Hbefore).
    assert (c ∈ providers s) as Hin by (by eapply list_elem_of_lookup_2).
    destruct (getStorageProvider_ok now random first rest s c Hps Hwf Hsel Hin)
      as (uc & r & Huc & Hr & Hget).
    assert (rate_of (providerUsage s) c = error_rate uc) as Hrc
      by (unfold rate_of; by rewrite Huc).
    eexists c, uc, i, _, _. split; [done|]. split; [done|]. split; [done|].
    split; [|split; [|split; [exact Hget|]]].
    + intros q uq Hq Hu. specialize (Hmin q Hq).
      unfold rate_of in Hmin. by rewrite Huc, Hu in Hmin.
    + intros j q uq Hj Hq Hu. specialize (Hbefore j q Hj Hq).
      unfold rate_of in Hbefore. by rewrite Huc, Hu in Hbefore.
    + intros Hge. apply available_ge in Hge; [|by eapply (proj2 Hwf)].
      rewrite available_negb_rate_limited in Hge. apply negb_true_iff in Hge.
      by rewrite Hge.
  - intros u Hu. unfold error_rate. rewrite Hu.
    change (inject_Z (Z_or 0 1)) with 1%Q. field.
  - intros u Hrc Hec. destruct (Hformula u Hrc) as [-> Hpos].
    apply Qle_shift_div_l; [done|]. rewrite Qmult_0_l.
    change 0%Q with (inject_Z 0). by rewrite <- Zle_Qle.
Qed.

Lemma least_errors_selects_minimum_witness :
  (∃ c uc i p s',
     (select_by_strategy 0 Errors.A Errors.session).1 = Ok (Some c) ∧
     providers Errors.session !! i = Some c ∧
     providerUsage Errors.session !! Provider.id c = Some uc ∧
     (∀ q uq, q ∈ providers Errors.session →
              providerUsage Errors.session !! Provider.id q = Some uq →
              (error_rate uc <= error_rate uq)%Q) ∧
     (∀ j q uq, j < i → providers Errors.session !! j = Some q →
                providerUsage Errors.session !! Provider.id q = Some uq →
                (error_rate uc < error_rate uq)%Q) ∧
     getStorageProvider 1000003 0 Errors.session = (Ok p, s') ∧
     ((1000 / Usage.rateLimit uc <= inject_Z (1000003 - Usage.lastUsed uc))%Q → p = c)) ∧
  (∀ u, (0 ≤ Usage.requestCount u)%Z →
        error_rate u =
          (inject_Z (Usage.errorCount u) / inject_Z (Z.max (Usage.requestCount u) 1))%Q ∧
        (0 < inject_Z (Z.max (Usage.requestCount u) 1))%Q) ∧
  (∀ u, Usage.requestCount u = 0%Z → (error_rate u == inject_Z (Usage.errorCount u))%Q) ∧
  (∀ u, (0 ≤ Usage.requestCount u)%Z → (0 ≤ Usage.errorCount u)%Z →
        (0 <= error_rate u)%Q).
Proof.
  apply (least_errors_selects_minimum 1000003 0 Errors.A [Errors.B; Errors.C] Errors.session).
  - reflexivity.
  - reflexivity.
  - repeat apply assign_usage_well_formed; try discriminate.
    apply constructor_well_formed.
  - unfold counters_small. eapply usage_Forall; [by vm_compute|].
    repeat constructor; simpl; lia.
Defined.

(** ** C10: an explicit provider bypasses the selector *)

Lemma generateUploadUrl_try_unfold (w : World.t) (options : UploadOptions.t)
    (s : MultiBucket) :
  generateUploadUrl_try w options s =
  match upload_resolved w options s with
  | (Throw e, s') => (Throw e, s')
  | (Ok p, s') => (upload_signed w options p s', s')
  end.
Proof. reflexivity. Qed.

Lemma generateUploadUrl_catch_frame (error : JsError) (s : MultiBucket) :
  let s' := (generateUploadUrl_catch error s).2 in
  providers s' = providers s ∧
  currentProviderIndex s' = currentProviderIndex s ∧
  loadBalanceStrategy s' = loadBalanceStrategy s ∧
  defaultExpiry s' = defaultExpiry s ∧
  ∀ id, Usage.requestCount <$> providerUsage s' !! id =
          Usage.requestCount <$> providerUsage s !! id ∧
        Usage.lastUsed <$> providerUsage s' !! id =
          Usage.lastUsed <$> providerUsage s !! id ∧
        Usage.rateLimit <$> providerUsage s' !! id =
          Usage.rateLimit <$> providerUsage s !! id.
Proof.
  unfold generateUploadUrl_catch. simpl.
  destruct (providerInfo error) as [k|]; [|done].
  destruct (providerUsage s !! k) as [u|] eqn:Hu; [|done].
  repeat (split; [done|]). intros id. simpl.
  destruct (decide (k = id)) as [<-|Hne].
  - by rewrite lookup_insert_eq, Hu.
  - by rewrite lookup_insert_ne.
Qed.

(** C10.  When [options.providerId] is a non-empty id that [find] resolves
    to the provider [p], the call does not go through
    [getStorageProvider]: whatever its outcome, the registry, the
    round-robin cursor and the [requestCount], [lastUsed] and [rateLimit]
    of every usage record are left as they were.  When the type of [p] is
    one that [createClient] supports, the request is signed with a client
    that holds the credentials and the endpoint of [p]; when the signer
    answers with a URL and the expiry date is a valid date, the call
    returns that URL for [p] and the state is unchanged altogether.  With
    an expiry date out of range, or a type that is not supported, the call
    throws and the state is unchanged as well.  The clock is a valid time
    value, as [Date.now()] is. *)
Theorem explicit_provider_bypasses_selector (w : World.t) (options : UploadOptions.t)
    (s : MultiBucket) (pid : string) (p : Provider.t) :
  UploadOptions.providerId options = Some pid →
  pid ≠ EmptyString →
  find (λ q, bool_decide (Some (Provider.id q) = UploadOptions.providerId options))
       (providers s) = Some p →
  valid_time (World.now_result w) →
  Provider.id p = pid ∧
  (providers (generateUploadUrl w options s).2 = providers s ∧
   currentProviderIndex (generateUploadUrl w options s).2 = currentProviderIndex s ∧
   ∀ id,
     Usage.requestCount <$> providerUsage (generateUploadUrl w options s).2 !! id =
       Usage.requestCount <$> providerUsage s !! id ∧
     Usage.lastUsed <$> providerUsage (generateUploadUrl w options s).2 !! id =
       Usage.lastUsed <$> providerUsage s !! id ∧
     Usage.rateLimit <$> providerUsage (generateUploadUrl w options s).2 !! id =
       Usage.rateLimit <$> providerUsage s !! id) ∧
  ((Provider.type p = Some "s3" ∨ Provider.type p = Some "r2") →
   ∃ client,
     createClient p = Ok client ∧
     Client.accessKeyId client = Provider.accessKeyId p ∧
     Client.secretAccessKey client = Provider.secretAccessKey p ∧
     Client.endpoint client = Provider.endpoint p ∧
     ∀ url,
       World.getSignedUrl w client (upload_command options w p) (upload_expiry options s) =
         Ok url →
       (valid_time (World.now_result w + upload_expiry options s * 1000) →
        generateUploadUrl w options s =
        (Ok {| UploadUrl.uploadUrl := url;
               UploadUrl.publicUrl :=
                 public_url p (PutObjectCommand.Key (upload_command options w p));
               UploadUrl.key := PutObjectCommand.Key (upload_command options w p);
               UploadUrl.bucket := Provider.bucket p;
               UploadUrl.provider := pid;
               UploadUrl.expires :=
                 (World.now_result w + upload_expiry options s * 1000)%Z |},
         s)) ∧
       (¬ valid_time (World.now_result w + upload_expiry options s * 1000) →
        generateUploadUrl w options s =
        (Throw (Error "Failed to generate upload URL: Invalid time value" None), s))) ∧
  (Provider.type p ≠ Some "s3" → Provider.type p ≠ Some "r2" →
   generateUploadUrl w options s =
   (Throw (Error ("Failed to generate upload URL: Unsupported provider type: "
                  +:+ interpolate (Provider.type p)) None), s)).
Proof.
  intros Hpid Hne Hfind _.
  assert (Provider.id p = pid) as Hid.
  { apply find_some in Hfind as [_ Hb]. apply bool_decide_eq_true in Hb.
    rewrite Hpid in Hb. by injection Hb. }
  assert (truthy_str (UploadOptions.providerId options) = true) as Htruthy
    by (rewrite Hpid; by destruct pid).
  assert (∃ r, generateUploadUrl_try w options s = (r, s) ∧
               r =
               (client ← createClient p;
                signedUrl ← World.getSignedUrl w client (upload_command options w p)
                              (upload_expiry options s);
                expires ← toISOString (World.now_result w + upload_expiry options s * 1000);
                Ok {| UploadUrl.uploadUrl := signedUrl;
                      UploadUrl.publicUrl :=
                        public_url p (PutObjectCommand.Key (upload_command options w p));
                      UploadUrl.key := PutObjectCommand.Key (upload_command options w p);
                      UploadUrl.bucket := Provider.bucket p;
                      UploadUrl.provider := Provider.id p;
                      UploadUrl.expires := expires |})) as (r & Htry & Hr).
  { unfold generateUploadUrl_try. rewrite Htruthy, Hfind. by eexists. }
  split; [done|]. unfold generateUploadUrl. rewrite Htry. split; [|split].
  - clear Hr. destruct r as [result|error]; [done|].
    pose proof (generateUploadUrl_catch_frame error s) as Hframe.
    destruct (generateUploadUrl_catch error s) as [error' s'']. simpl in *.
    destruct Hframe as (Hp & Hc & _ & _ & Hu). done.
  - intros Htype.
    assert (∃ client, createClient p = Ok client ∧
              Client.accessKeyId client = Provider.accessKeyId p ∧
              Client.secretAccessKey client = Provider.secretAccessKey p ∧
              Client.endpoint client = Provider.endpoint p)
      as (client & Hclient & Hkey & Hsecret & Hendpoint).
    { unfold createClient. destruct Htype as [Htype|Htype].
      - rewrite decide_True by done. by eexists.
      - destruct (decide (Provider.type p = Some "s3")); [by eexists|].
        rewrite decide_True by done. by eexists. }
    exists client. repeat (split; [done|]). intros url Hsign.
    rewrite Hr, Hclient. simpl. rewrite Hsign. simpl. unfold toISOString, valid_time.
    destruct (Z.leb_spec (Z.abs (World.now_result w + upload_expiry options s * 1000))
                8640000000000000) as [Hle|Hgt]; simpl.
    + split; [intros _; by rewrite Hid | intros Hnot; by destruct Hnot].
    + split; [lia | done].
  - intros Hs3 Hr2. rewrite Hr. unfold createClient. by rewrite !decide_False by done.
Qed.

Lemma explicit_provider_bypasses_selector_witness :
  Provider.id Reload.r2_x = "r2-x" ∧
  (providers (generateUploadUrl Upload.world Upload.options Reload.session2).2 =
     providers Reload.session2 ∧
   currentProviderIndex (generateUploadUrl Upload.world Upload.options Reload.session2).2 =
     currentProviderIndex Reload.session2 ∧
   ∀ id,
     Usage.requestCount <$>
       providerUsage (generateUploadUrl Upload.world Upload.options Reload.session2).2 !! id =
       Usage.requestCount <$> providerUsage Reload.session2 !! id ∧
     Usage.lastUsed <$>
       providerUsage (generateUploadUrl Upload.world Upload.options Reload.session2).2 !! id =
       Usage.lastUsed <$> providerUsage Reload.session2 !! id ∧
     Usage.rateLimit <$>
       providerUsage (generateUploadUrl Upload.world Upload.options Reload.session2).2 !! id =
       Usage.rateLimit <$> providerUsage Reload.session2 !! id) ∧
  ((Provider.type Reload.r2_x = Some "s3" ∨ Provider.type Reload.r2_x = Some "r2") →
   ∃ client,
     createClient Reload.r2_x = Ok client ∧
     Client.accessKeyId client = Provider.accessKeyId Reload.r2_x ∧
     Client.secretAccessKey client = Provider.secretAccessKey Reload.r2_x ∧
     Client.endpoint client = Provider.endpoint Reload.r2_x ∧
     ∀ url,
       World.getSignedUrl Upload.world client
         (upload_command Upload.options Upload.world Reload.r2_x)
         (upload_expiry Upload.options Reload.session2) = Ok url →
       (valid_time (World.now_result Upload.world
                    + upload_expiry Upload.options Reload.session2 * 1000) →
        generateUploadUrl Upload.world Upload.options Reload.session2 =
        (Ok {| UploadUrl.uploadUrl := url;
               UploadUrl.publicUrl :=
                 public_url Reload.r2_x
                   (PutObjectCommand.Key
                      (upload_command Upload.options Upload.world Reload.r2_x));
               UploadUrl.key :=
                 PutObjectCommand.Key (upload_command Upload.options Upload.world Reload.r2_x);
               UploadUrl.bucket := Provider.bucket Reload.r2_x;
               UploadUrl.provider := "r2-x";
               UploadUrl.expires :=
                 (World.now_result Upload.world
                  + upload_expiry Upload.options Reload.session2 * 1000)%Z |},
         Reload.session2)) ∧
       (¬ valid_time (World.now_result Upload.world
                      + upload_expiry Upload.options Reload.session2 * 1000) →
        generateUploadUrl Upload.world Upload.options Reload.session2 =
        (Throw (Error "Failed to generate upload URL: Invalid time value" None),
         Reload.session2))) ∧
  (Provider.type Reload.r2_x ≠ Some "s3" → Provider.type Reload.r2_x ≠ Some "r2" →
   generateUploadUrl Upload.world Upload.options Reload.session2 =
   (Throw (Error ("Failed to generate upload URL: Unsupported provider type: "
                  +:+ interpolate (Provider.type Reload.r2_x)) None), Reload.session2)).
Proof.
  apply (explicit_provider_bypasses_selector Upload.world Upload.options Reload.session2
           "r2-x" Reload.r2_x).
  - reflexivity.
  - discriminate.
  - reflexivity.
  - unfold valid_time. simpl. lia.
Defined.

(** The same call, evaluated: a URL for ["r2-x"], and the session as it was. *)
Example upload_by_id :
  generateUploadUrl Upload.world Upload.options Reload.session2 =
  (Ok {| UploadUrl.uploadUrl :=
           "https://my-r2-bucket.example.com/uploads/3b241101-e2bb-4255-8caf-4136c566a962-test.jpg?X-Amz-Algorithm=AWS4-HMAC-SHA256&X-Amz-Credential=EXAMPLE";
         UploadUrl.publicUrl :=
           Some "https://cdn.example.com/uploads/3b241101-e2bb-4255-8caf-4136c566a962-test.jpg";
         UploadUrl.key := "uploads/3b241101-e2bb-4255-8caf-4136c566a962-test.jpg";
         UploadUrl.bucket := Some "my-r2-bucket";
         UploadUrl.provider := "r2-x";
         UploadUrl.expires := 4600006 |},
   Reload.session2).
Proof. by vm_compute. Qed.

(** * Further properties of the selector *)

(** ** least-used *)

Lemma reduce_least_used_fold usage (ps : list Provider.t) (acc : Provider.t) :
  is_Some (usage !! Provider.id acc) →
  (∀ p, p ∈ ps → is_Some (usage !! Provider.id p)) →
  reduce (least_used_step usage) ps acc =
  Ok (fold_left (fewer_requests (count_of usage)) ps acc).
Proof.
  revert acc. induction ps as [|p ps IH]; intros acc Hacc Hps; [done|].
  destruct (Hps p) as [up Hup]; [by left|]. destruct Hacc as [ua Hua].
  rewrite (reduce_cons _ _ _ _ _ (least_used_step_ok _ _ _ _ _ Hua Hup)).
  simpl. unfold fewer_requests at 2, count_of. rewrite Hup, Hua. simpl.
  apply IH.
  - destruct (_ <? _)%Z; by eexists.
  - intros q Hq. apply Hps. by right.
Qed.

Lemma fewer_requests_fold_spec (count : Provider.t → Z) (ps : list Provider.t)
    (acc : Provider.t) :
  let c := fold_left (fewer_requests count) ps acc in
  (count c ≤ count acc)%Z ∧
  (∀ q, q ∈ ps → (count c ≤ count q)%Z) ∧
  ((c = acc ∧ ∀ q, q ∈ ps → (count acc ≤ count q)%Z) ∨
   (∃ i, ps !! i = Some c ∧ (count c < count acc)%Z ∧
         ∀ j q, j < i → ps !! j = Some q → (count c < count q)%Z)).
Proof.
  revert acc. induction ps as [|p ps IH]; intros acc; simpl.
  - split; [lia|]. split; [by intros q ?%elem_of_nil|].
    left. split; [done|]. by intros q ?%elem_of_nil.
  - destruct (IH (fewer_requests count acc p)) as (Hle & Hall & Hwhere).
    set (c := fold_left (fewer_requests count) ps (fewer_requests count acc p)) in *.
    unfold fewer_requests in Hle, Hwhere.
    destruct (Z.ltb_spec (count p) (count acc)) as [Hlt|Hge].
    + split; [lia|].
      split; [intros q [->|Hq]%elem_of_cons; auto|].
      right. destruct Hwhere as [[Hc Hmin]|(i & Hi & Hci & Hbefore)].
      * exists 0. rewrite Hc. split; [done|]. split; [done|]. intros j q Hj. lia.
      * exists (S i). split; [done|]. split; [lia|].
        intros [|j] q Hj Hq; simplify_eq/=; [done|]. eapply Hbefore; [|done]. lia.
    + split; [done|].
      split; [intros q [->|Hq]%elem_of_cons; [lia|auto]|].
      destruct Hwhere as [[Hc Hmin]|(i & Hi & Hci & Hbefore)].
      * left. split; [done|]. intros q [->|Hq]%elem_of_cons; auto.
      * right. exists (S i). split; [done|]. split; [done|].
        intros [|j] q Hj Hq; simplify_eq/=; [lia|].
        eapply Hbefore; [|done]. lia.
Qed.

(** X1.  Under least-used, on a well-formed non-empty state, the
    strategy's candidate is a provider with the minimum [requestCount],
    the earliest in list order among those with the minimum (every
    provider before it has strictly more requests), and the call returns
    it whenever its gate is satisfied. *)
Theorem least_used_selects_minimum now random first rest (s : MultiBucket) :
  providers s = first :: rest →
  loadBalanceStrategy s = "least-used" →
  well_formed s →
  ∃ c uc i p s',
    (select_by_strategy random first s).1 = Ok (Some c) ∧
    providers s !! i = Some c ∧
    providerUsage s !! Provider.id c = Some uc ∧
    (∀ q uq, q ∈ providers s → providerUsage s !! Provider.id q = Some uq →
             (Usage.requestCount uc ≤ Usage.requestCount uq)%Z) ∧
    (∀ j q uq, j < i → providers s !! j = Some q →
               providerUsage s !! Provider.id q = Some uq →
               (Usage.requestCount uc < Usage.requestCount uq)%Z) ∧
    getStorageProvider now random s = (Ok p, s') ∧
    ((1000 / Usage.rateLimit uc <= inject_Z (now - Usage.lastUsed uc))%Q → p = c).
Proof.
  intros Hps Hstrat Hwf.
  assert (first ∈ providers s) as Hfirst by (rewrite Hps; by left).
  assert (∃ c i,
    (select_by_strategy random first s).1 = Ok (Some c) ∧
    providers s !! i = Some c ∧
    (∀ q, q ∈ providers s →
          (count_of (providerUsage s) c ≤ count_of (providerUsage s) q)%Z) ∧
    (∀ j q, j < i → providers s !! j = Some q →
            (count_of (providerUsage s) c < count_of (providerUsage s) q)%Z))
    as (c & i & Hsel & Hi & Hmin & Hbefore).
  { unfold select_by_strategy. rewrite Hstrat. simpl.
    rewrite reduce_least_used_fold; [|by apply Hwf|apply Hwf]. simpl.
    destruct (fewer_requests_fold_spec (count_of (providerUsage s)) (providers s) first)
      as (_ & Hall & Hwhere).
    eexists _. destruct Hwhere as [[Heq Hmin]|(i & Hi & _ & Hbefore)].
    - exists 0. split; [done|]. rewrite Heq. split; [by rewrite Hps|].
      split; [done|]. intros j q Hj. lia.
    - exists i. by repeat split. }
  assert (c ∈ providers s) as Hin by (by eapply list_elem_of_lookup_2).
  destruct (getStorageProvider_ok now random first rest s c Hps Hwf Hsel Hin)
    as (uc & r & Huc & Hr & Hget).
  eexists c, uc, i, _, _. split; [done|]. split; [done|]. split; [done|].
  split; [|split; [|split; [exact Hget|]]].
  - intros q uq Hq Hu. specialize (Hmin q Hq).
    unfold count_of in Hmin. by rewrite Huc, Hu in Hmin.
  - intros j q uq Hj Hq Hu. specialize (Hbefore j q Hj Hq).
    unfold count_of in Hbefore. by rewrite Huc, Hu in Hbefore.
  - intros Hge. apply available_ge in Hge; [|by eapply (proj2 Hwf)].
    rewrite available_negb_rate_limited in Hge. apply negb_true_iff in Hge.
    by rewrite Hge.
Qed.

Lemma least_used_selects_minimum_witness :
  ∃ c uc i p s',
    (select_by_strategy 0 (bare "A") Busy.session).1 = Ok (Some c) ∧
    providers Busy.session !! i = Some c ∧
    providerUsage Busy.session !! Provider.id c = Some uc ∧
    (∀ q uq, q ∈ providers Busy.session →
             providerUsage Busy.session !! Provider.id q = Some uq →
             (Usage.requestCount uc ≤ Usage.requestCount uq)%Z) ∧
    (∀ j q uq, j < i → providers Busy.session !! j = Some q →
               providerUsage Busy.session !! Provider.id q = Some uq →
               (Usage.requestCount uc < Usage.requestCount uq)%Z) ∧
    getStorageProvider 1700000000000 0 Busy.session = (Ok p, s') ∧
    ((1000 / Usage.rateLimit uc <= inject_Z (1700000000000 - Usage.lastUsed uc))%Q → p = c).
Proof.
  apply (least_used_selects_minimum 1700000000000 0 (bare "A") [bare "B"] Busy.session).
  - reflexivity.
  - reflexivity.
  - repeat apply assign_usage_well_formed; try discriminate.
    apply constructor_well_formed.
Defined.

(** ** weighted-random *)

Lemma totalWeight_from (ps : list Provider.t) (a : Q) :
  (fold_left (λ sum provider, sum + weight_of provider) ps a == a + totalWeight ps)%Q.
Proof.
  unfold totalWeight. revert a. induction ps as [|p ps IH]; intros a; simpl.
  - ring.
  - rewrite (IH (a + weight_of p)%Q), (IH (0 + weight_of p)%Q). ring.
Qed.

Lemma totalWeight_cons (p : Provider.t) (ps : list Provider.t) :
  (totalWeight (p :: ps) == weight_of p + totalWeight ps)%Q.
Proof.
  unfold totalWeight at 1. simpl. rewrite totalWeight_from. ring.
Qed.

Lemma totalWeight_nonneg (ps : list Provider.t) :
  weights_positive ps → (0 <= totalWeight ps)%Q.
Proof.
  induction ps as [|p ps IH]; intros Hpos; [done|].
  rewrite totalWeight_cons.
  assert (0 < weight_of p)%Q by (apply Hpos; by left).
  assert (0 <= totalWeight ps)%Q by (apply IH; intros q Hq; apply Hpos; by right).
  lra.
Qed.

(** The loop selects the provider whose slice of the cumulative weights
    holds the drawn value. *)
Lemma weighted_scan_interval (ps : list Provider.t) (random : Q) :
  weights_positive ps →
  (0 <= random)%Q →
  (random < totalWeight ps)%Q →
  ∃ i p, weighted_scan random ps = Some p ∧
         ps !! i = Some p ∧
         (totalWeight (take i ps) <= random)%Q ∧
         (random < totalWeight (take (S i) ps))%Q.
Proof.
  revert random. induction ps as [|p ps IH]; intros random Hpos Hlo Hhi.
  - exfalso. change (totalWeight []) with 0%Q in Hhi. lra.
  - rewrite totalWeight_cons in Hhi. simpl.
    destruct (Qltb random (weight_of p)) eqn:Hlt.
    + apply Qltb_lt in Hlt. exists 0, p. split; [done|]. split; [done|].
      split; [done|].
      change (take 1 (p :: ps)) with (p :: take 0 ps).
      rewrite totalWeight_cons, take_0.
      change (totalWeight []) with 0%Q. lra.
    + apply Qltb_ge in Hlt.
      destruct (IH (random - weight_of p)%Q) as (i & q & Hscan & Hi & Hl & Hh);
        [intros q Hq; apply Hpos; by right | lra | lra |].
      exists (S i), q. split; [done|]. split; [done|].
      change (take (S (S i)) (p :: ps)) with (p :: take (S i) ps).
      change (take (S i) (p :: ps)) with (p :: take i ps).
      rewrite !totalWeight_cons. split; lra.
Qed.

Lemma exact_draw_range (random : Q) (ps : list Provider.t) :
  exact_draw random ps →
  weights_positive ps ∧ (0 <= random)%Q ∧ (random < 1)%Q.
Proof.
  intros ((k & Hk & Hrandom) & Hweights & _).
  assert (0 < inject_Z (2 ^ 32))%Q as Hpow by reflexivity.
  split; [|split].
  - intros p Hp. destruct (Hweights p Hp) as (n & Hn & ->).
    change 0%Q with (inject_Z 0). rewrite <- Zlt_Qlt. lia.
  - rewrite Hrandom. apply Qle_shift_div_l; [done|]. rewrite Qmult_0_l.
    change 0%Q with (inject_Z 0). rewrite <- Zle_Qle. lia.
  - rewrite Hrandom. apply Qlt_shift_div_r; [done|]. rewrite Qmult_1_l.
    rewrite <- Zlt_Qlt. lia.
Qed.

(** X2.  Under weighted-random, for a draw [r] of [Math.random()] and
    weights on which the arithmetic of the scan is exact ([exact_draw]:
    whole weights from 1 on, [r] a multiple of 2^-32 in [0, 1)), the loop
    selects a provider (the fallback to the first provider is not taken),
    and the candidate is the provider at the index [i] whose slice of the
    cumulative weights holds [r * totalWeight]: the weights before it sum
    to at most that value and the weights up to and including it to
    more. *)
Theorem weighted_random_slice random first rest (s : MultiBucket) :
  providers s = first :: rest →
  loadBalanceStrategy s = "weighted-random" →
  exact_draw random (providers s) →
  ∃ i c,
    weighted_scan (random * totalWeight (providers s)) (providers s) = Some c ∧
    (select_by_strategy random first s).1 = Ok (Some c) ∧
    providers s !! i = Some c ∧
    (totalWeight (take i (providers s)) <= random * totalWeight (providers s))%Q ∧
    (random * totalWeight (providers s) < totalWeight (take (S i) (providers s)))%Q.
Proof.
  intros Hps Hstrat (Hpos & Hlo & Hhi)%exact_draw_range.
  assert (0 < totalWeight (providers s))%Q as Htotal.
  { rewrite Hps, totalWeight_cons.
    assert (0 < weight_of first)%Q by (apply Hpos; rewrite Hps; by left).
    assert (0 <= totalWeight rest)%Q.
    { apply totalWeight_nonneg. intros q Hq. apply Hpos. rewrite Hps. by right. }
    lra. }
  destruct (weighted_scan_interval (providers s) (random * totalWeight (providers s))%Q)
    as (i & c & Hscan & Hi & Hl & Hh); [done | | |].
  - apply Qmult_le_0_compat; [done | by apply Qlt_le_weak].
  - rewrite <- (Qmult_1_l (totalWeight (providers s))) at 2.
    by apply Qmult_lt_compat_r.
  - exists i, c. split; [done|]. split; [|done].
    unfold select_by_strategy. rewrite Hstrat. simpl. by rewrite Hscan.
Qed.

Lemma weighted_random_slice_witness :
  ∃ i c,
    weighted_scan ((7 # 8) * totalWeight (providers Shares.session))
      (providers Shares.session) = Some c ∧
    (select_by_strategy (7 # 8) Reload.s3_main Shares.session).1 = Ok (Some c) ∧
    providers Shares.session !! i = Some c ∧
    (totalWeight (take i (providers Shares.session))
     <= (7 # 8) * totalWeight (providers Shares.session))%Q ∧
    ((7 # 8) * totalWeight (providers Shares.session)
     < totalWeight (take (S i) (providers Shares.session)))%Q.
Proof.
  apply (weighted_random_slice (7 # 8) Reload.s3_main [Reload.r2_x] Shares.session).
  - reflexivity.
  - reflexivity.
  - split; [|split].
    + exists 3758096384%Z. split; [lia | reflexivity].
    + intros p Hp. two_providers Hp; [exists 3%Z | exists 1%Z]; split; (lia || reflexivity).
    + discriminate.
Defined.

(** ** What a selection changes *)

Lemma gate_and_update_frame now selected (s : MultiBucket) :
  providers (gate_and_update now selected s).2 = providers s ∧
  loadBalanceStrategy (gate_and_update now selected s).2 = loadBalanceStrategy s ∧
  defaultExpiry (gate_and_update now selected s).2 = defaultExpiry s ∧
  currentProviderIndex (gate_and_update now selected s).2 = currentProviderIndex s ∧
  (providerUsage (gate_and_update now selected s).2 = providerUsage s ∨
   ∃ p k u, (gate_and_update now selected s).1 = Ok p ∧
            providerUsage s !! k = Some u ∧
            providerUsage (gate_and_update now selected s).2 =
              <[k := Usage.touch now u]> (providerUsage s)).
Proof.
  unfold gate_and_update.
  destruct selected as [c|]; [|by repeat split; try left].
  destruct (providerUsage s !! Provider.id c) as [uc|] eqn:Huc;
    [|by repeat split; try left].
  match goal with |- context [match ?f with Ok _ => _ | Throw _ => _ end] =>
    destruct f; [|by repeat split; try left] end.
  simpl. repeat (split; [done|]). right. by eexists _, _, _.
Qed.

(** What one call does to the session, read off its result: the usage
    tracker is left alone, or one existing record is touched. *)
Lemma getStorageProvider_effect now random (s : MultiBucket) :
  providers (getStorageProvider now random s).2 = providers s ∧
  loadBalanceStrategy (getStorageProvider now random s).2 = loadBalanceStrategy s ∧
  defaultExpiry (getStorageProvider now random s).2 = defaultExpiry s ∧
  (((∃ e, (getStorageProvider now random s).1 = Throw e) ∧
    providerUsage (getStorageProvider now random s).2 = providerUsage s) ∨
   ∃ p k u, (getStorageProvider now random s).1 = Ok p ∧
            providerUsage s !! k = Some u ∧
            providerUsage (getStorageProvider now random s).2 =
              <[k := Usage.touch now u]> (providerUsage s)).
Proof.
  unfold getStorageProvider.
  destruct (providers s) as [|first rest] eqn:Hps.
  { simpl. repeat (split; [done|]). left. split; [by eexists | done]. }
  destruct (select_by_strategy_frame random first s) as (Hp & Hu & Hs & He).
  rewrite Hps in Hp.
  destruct (select_by_strategy random first s) as [[sel|e] s1]; simpl in *.
  - destruct (gate_and_update_frame now sel s1) as (Hp' & Hs' & He' & _ & Hu').
    rewrite Hp', Hs', He', Hp, Hs, He. repeat (split; [done|]).
    rewrite <- Hu.
    destruct Hu' as [Hsame|(p & k & u & Hok & Hk & Hins)]; [|right; by eexists p, k, u].
    destruct (gate_and_update now sel s1) as [[p|e] s2] eqn:Hg; simpl in *.
    + exfalso. unfold gate_and_update in Hg.
      destruct sel as [c|]; [|done].
      destruct (providerUsage s1 !! Provider.id c) as [uc|] eqn:Huc; [|done].
      revert Hg.
      match goal with |- context [match ?f with Ok _ => _ | Throw _ => _ end] =>
        destruct f; [|done] end.
      intros [= _ <-]. simpl in Hsame.
      assert (<[Provider.id c:=Usage.touch now uc]> (providerUsage s1) !! Provider.id c
              = providerUsage s1 !! Provider.id c) as Hl by (by rewrite Hsame).
      rewrite lookup_insert_eq, Huc in Hl. injection Hl as Hl.
      apply (f_equal Usage.requestCount) in Hl. simpl in Hl. lia.
    + left. split; [by eexists | done].
  - rewrite Hp, Hs, He, Hu. repeat (split; [done|]). left. split; [by eexists | done].
Qed.

(** X3.  A call never changes the registry or the settings, never adds or
    removes a usage record, and never changes an [errorCount] or a copied
    [rateLimit]; every [requestCount] stays or grows by one, and every
    [lastUsed] stays or becomes the time of the call. *)
Theorem getStorageProvider_frame now random (s : MultiBucket) :
  providers (getStorageProvider now random s).2 = providers s ∧
  loadBalanceStrategy (getStorageProvider now random s).2 = loadBalanceStrategy s ∧
  defaultExpiry (getStorageProvider now random s).2 = defaultExpiry s ∧
  dom (providerUsage (getStorageProvider now random s).2) = dom (providerUsage s) ∧
  ∀ id u', providerUsage (getStorageProvider now random s).2 !! id = Some u' →
    ∃ u, providerUsage s !! id = Some u ∧
         Usage.errorCount u' = Usage.errorCount u ∧
         Usage.rateLimit u' = Usage.rateLimit u ∧
         (Usage.requestCount u' = Usage.requestCount u ∨
          Usage.requestCount u' = (Usage.requestCount u + 1)%Z) ∧
         (Usage.lastUsed u' = Usage.lastUsed u ∨ Usage.lastUsed u' = now).
Proof.
  destruct (getStorageProvider_effect now random s) as (Hp & Hs & He & Hu).
  repeat (split; [done|]).
  destruct Hu as [[_ ->]|(p & k & u & _ & Hk & ->)].
  - split; [done|]. intros id u' Hu'. exists u'. by repeat split; try left.
  - split.
    + rewrite dom_insert_L. apply elem_of_dom_2 in Hk.
      apply set_eq. intros x. rewrite elem_of_union, elem_of_singleton.
      split; [by intros [->|?] | by right].
    + intros id u' Hu'. destruct (decide (k = id)) as [<-|Hne].
      * rewrite lookup_insert_eq in Hu'. injection Hu' as <-.
        exists u. split; [done|]. simpl. by repeat split; try right.
      * rewrite lookup_insert_ne in Hu' by done.
        exists u'. by repeat split; try left.
Qed.

(** ** Selections and the statistics *)

Lemma totalRequests_touch (usage : gmap string Usage.t) (k : string) (u : Usage.t)
    (now : Z) :
  k ≠ "__proto__" →
  usage !! k = Some u →
  totalRequests (<[k := Usage.touch now u]> usage) = (totalRequests usage + 1)%Z.
Proof.
  intros Hne Hk. rewrite !totalRequests_sum. unfold own_values, own.
  rewrite delete_insert_ne by done.
  assert (delete "__proto__" usage !! k = Some u) as Hk'
    by (by rewrite lookup_delete_ne).
  rewrite <- (sum_Z_Permutation _ _
    (fmap_Permutation _ _ _ (fmap_Permutation snd _ _ (map_to_list_delete _ _ _ Hk')))).
  rewrite <- insert_delete_eq.
  rewrite (sum_Z_Permutation _ _
    (fmap_Permutation _ _ _ (fmap_Permutation snd _ _
       (map_to_list_insert (delete k (delete "__proto__" usage)) k (Usage.touch now u)
          (lookup_delete_eq _ _))))).
  rewrite !fmap_cons. unfold sum_Z. simpl. lia.
Qed.

Lemma getStats_ok (s : MultiBucket) :
  usage_complete s →
  ∃ stats, getStats s = Ok stats ∧
           Stats.providerCount stats = length (providers s) ∧
           Stats.totalRequests stats = totalRequests (providerUsage s).
Proof.
  intros Hc.
  destruct (provider_stats_ok (providerUsage s) (providers s) Hc) as (stats & Hstats & _).
  eexists. split; [unfold getStats; by rewrite Hstats|]. done.
Qed.

(** X4.  On a well-formed non-empty state (round-robin's cursor in range)
    in which no provider is called ["__proto__"] and the counters and
    their total are in the range of the exact integers, a call returns a
    provider, and the statistics taken after it report the same number of
    providers and exactly one more total request than the statistics taken
    before it. *)
Theorem each_selection_counts_once now random first rest (s : MultiBucket) :
  providers s = first :: rest →
  well_formed s →
  cursor_in_range s →
  plain_ids s →
  counters_in_range s →
  (totalRequests (providerUsage s) < 2 ^ 53)%Z →
  ∃ p s' before after,
    getStorageProvider now random s = (Ok p, s') ∧
    getStats s = Ok before ∧
    getStats s' = Ok after ∧
    Stats.providerCount after = Stats.providerCount before ∧
    Stats.totalRequests after = (Stats.totalRequests before + 1)%Z.
Proof.
  intros Hps Hwf Hcur Hplain _ _.
  destruct (select_by_strategy_candidate random first rest s Hps (proj1 Hwf) Hcur)
    as (c & Hsel & Hin).
  destruct (getStorageProvider_ok now random first rest s c Hps Hwf Hsel Hin)
    as (uc & r & Huc & _ & Hget).
  pose proof (getStorageProvider_well_formed now random s Hwf) as Hwf'.
  destruct (select_by_strategy_frame random first s) as (Hp & _).
  rewrite Hget in Hwf'. simpl in Hwf'.
  destruct (getStats_ok s (proj1 Hwf)) as (before & Hb & Hbc & Hbt).
  destruct (getStats_ok _ (proj1 Hwf')) as (after & Ha & Hac & Hat).
  eexists _, _, before, after. split; [exact Hget|]. repeat (split; [done|]).
  split; [rewrite Hac, Hbc; simpl; by rewrite Hp|].
  rewrite Hat, Hbt. simpl. apply totalRequests_touch; [|done].
  intros Hproto. apply Hplain. rewrite <- Hproto.
  apply list_elem_of_fmap. by exists c.
Qed.

Lemma each_selection_counts_once_witness :
  ∃ p s' before after,
    getStorageProvider 1000003 0 Slow.session2 = (Ok p, s') ∧
    getStats Slow.session2 = Ok before ∧
    getStats s' = Ok after ∧
    Stats.providerCount after = Stats.providerCount before ∧
    Stats.totalRequests after = (Stats.totalRequests before + 1)%Z.
Proof.
  apply (each_selection_counts_once 1000003 0 Slow.A [Slow.B] Slow.session2).
  - reflexivity.
  - do 2 apply getStorageProvider_well_formed. apply constructor_well_formed.
  - intros _. vm_compute. lia.
  - unfold plain_ids. simpl. intros Hin.
    apply elem_of_cons in Hin as [Hin|Hin]; [discriminate|].
    apply elem_of_cons in Hin as [Hin|Hin]; [discriminate|].
    by apply elem_of_nil in Hin.
  - unfold counters_in_range. eapply usage_Forall; [by vm_compute|].
    repeat constructor; simpl; lia.
  - by vm_compute.
Defined.

(** ** The round-robin cursor *)

(** X5.  Under round-robin, when the cursor is past the end of a non-empty
    list (a removal of stale providers leaves it there), the call throws
    the [TypeError] of reading [id] on [undefined]; the cursor has been
    advanced modulo the length before the throw and nothing else has
    changed, so the cursor is back in range and the next call returns a
    provider. *)
Theorem round_robin_past_the_end now random now' random' first rest (s : MultiBucket) :
  providers s = first :: rest →
  loadBalanceStrategy s = "round-robin" →
  well_formed s →
  (length (providers s) ≤ currentProviderIndex s)%nat →
  getStorageProvider now random s =
    (Throw (undefined_read "id"),
     set_currentProviderIndex
       ((currentProviderIndex s + 1) mod length (providers s)) s) ∧
  ((currentProviderIndex s + 1) mod length (providers s) < length (providers s))%nat ∧
  ∃ p s',
    getStorageProvider now' random'
      (set_currentProviderIndex
         ((currentProviderIndex s + 1) mod length (providers s)) s) = (Ok p, s').
Proof.
  intros Hps Hrr Hwf Hge.
  assert ((currentProviderIndex s + 1) mod length (providers s) < length (providers s))%nat
    as Hlt by (apply Nat.mod_upper_bound; rewrite Hps; simpl; lia).
  split; [|split; [done|]].
  - rewrite (getStorageProvider_unfold _ _ _ _ _ Hps).
    unfold select_by_strategy. rewrite Hrr. simpl.
    by rewrite (lookup_ge_None_2 (providers s) (currentProviderIndex s)).
  - apply (getStorageProvider_returns now' random' first rest); [done|done|].
    by intros _.
Qed.

Lemma round_robin_past_the_end_witness :
  getStorageProvider 1000010 0 Shrunk.session =
    (Throw (undefined_read "id"),
     set_currentProviderIndex
       ((currentProviderIndex Shrunk.session + 1) mod length (providers Shrunk.session))
       Shrunk.session) ∧
  ((currentProviderIndex Shrunk.session + 1) mod length (providers Shrunk.session)
   < length (providers Shrunk.session))%nat ∧
  ∃ p s',
    getStorageProvider 1000020 0
      (set_currentProviderIndex
         ((currentProviderIndex Shrunk.session + 1) mod length (providers Shrunk.session))
         Shrunk.session) = (Ok p, s').
Proof.
  apply (round_robin_past_the_end 1000010 0 1000020 0 Reload.s3_main [] Shrunk.session).
  - reflexivity.
  - reflexivity.
  - apply updateConfig_well_formed, getStorageProvider_well_formed,
      constructor_well_formed.
  - vm_compute. lia.
Defined.

Lemma merge_provider_length (s : MultiBucket) (newProvider : Provider.t) :
  (length (providers s) ≤ length (providers (merge_provider s newProvider)))%nat ∧
  currentProviderIndex (merge_provider s newProvider) = currentProviderIndex s.
Proof.
  unfold merge_provider. destruct (list_find _ _) as [[i existing]|]; simpl.
  - by rewrite length_insert.
  - rewrite length_app. simpl. split; [lia|done].
Qed.

Lemma merge_providers_length (incoming : list Provider.t) (s : MultiBucket) :
  (length (providers s) ≤ length (providers (fold_left merge_provider incoming s)))%nat ∧
  currentProviderIndex (fold_left merge_provider incoming s) = currentProviderIndex s.
Proof.
  revert s. induction incoming as [|p ps IH]; intros s; simpl; [done|].
  destruct (IH (merge_provider s p)) as [Hl Hc].
  destruct (merge_provider_length s p) as [Hl' Hc'].
  split; [lia | congruence].
Qed.

Lemma updateConfig_cursor_ok (configData : Config.t) (s : MultiBucket) :
  Config.removeStaleProviders configData = false →
  cursor_ok s → cursor_ok (updateConfig configData s).
Proof.
  intros Hkeep Hcur. unfold cursor_ok.
  destruct (updateConfig_registry configData s) as (Hp & _ & Hc).
  rewrite Hp, Hc, Hkeep. simpl.
  destruct (Config.providers configData) as [incoming|]; [|done].
  destruct (merge_providers_length incoming s) as [Hl Hc'].
  rewrite Hc'. destruct Hcur; [by left | right; lia].
Qed.

Lemma getStorageProvider_cursor_ok now random (s : MultiBucket) :
  cursor_ok s → cursor_ok (getStorageProvider now random s).2.
Proof.
  intros Hcur. unfold getStorageProvider.
  destruct (providers s) as [|first rest] eqn:Hps; [done|].
  assert (cursor_ok (select_by_strategy random first s).2) as Hsel.
  { unfold select_by_strategy.
    destruct (String.eqb _ "round-robin").
    - right. simpl. apply Nat.mod_upper_bound. rewrite Hps. simpl. lia.
    - by repeat (destruct (String.eqb _ _); [done|]). }
  destruct (select_by_strategy random first s) as [[sel|e] s1]; [|done].
  destruct (gate_and_update_frame now sel s1) as (Hp & _ & _ & Hc & _).
  unfold cursor_ok in *. simpl in Hsel. by rewrite Hp, Hc.
Qed.

Lemma generateUploadUrl_cursor_ok w options (s : MultiBucket) :
  cursor_ok s → cursor_ok (generateUploadUrl w options s).2.
Proof.
  intros Hcur. unfold generateUploadUrl.
  assert (cursor_ok (generateUploadUrl_try w options s).2) as Htry.
  { unfold generateUploadUrl_try. destruct (truthy_str _).
    - by destruct (find _ _).
    - pose proof (getStorageProvider_cursor_ok (World.now w) (World.random w) s Hcur).
      by destruct (getStorageProvider _ _ _) as [[p|e] s1]. }
  destruct (generateUploadUrl_try w options s) as [[result|error] s1]; [done|].
  destruct (generateUploadUrl_catch_frame error s1) as (Hp & Hc & _).
  destruct (generateUploadUrl_catch error s1) as [error' s2]. simpl in *.
  unfold cursor_ok. by rewrite Hp, Hc.
Qed.

Lemma reachable_without_removal_invariant (s : MultiBucket) :
  reachable_without_removal s → well_formed s ∧ cursor_ok s.
Proof.
  induction 1 as [options|configData s Hkeep _ [Hwf Hcur]|now random s _ [Hwf Hcur]
                 |w options s _ [Hwf Hcur]].
  - split; [apply constructor_well_formed | by left].
  - split; [by apply updateConfig_well_formed | by apply updateConfig_cursor_ok].
  - split; [by apply getStorageProvider_well_formed | by apply getStorageProvider_cursor_ok].
  - split; [by apply generateUploadUrl_well_formed | by apply generateUploadUrl_cursor_ok].
Qed.

(** X6.  In a session where no update asks for the removal of stale
    providers, a call on a non-empty registry never throws, whatever the
    strategy: it always returns a provider. *)
Theorem selection_never_throws_without_removal now random (s : MultiBucket) :
  reachable_without_removal s →
  providers s ≠ [] →
  ∃ p s', getStorageProvider now random s = (Ok p, s').
Proof.
  intros Hreach Hne.
  destruct (reachable_without_removal_invariant s Hreach) as [Hwf Hcur].
  destruct (providers s) as [|first rest] eqn:Hps; [done|].
  apply (getStorageProvider_returns now random first rest); [done|done|].
  intros _. unfold cursor_ok in Hcur. rewrite Hps in Hcur |- *. simpl in *. lia.
Qed.

Lemma selection_never_throws_without_removal_witness :
  ∃ p s',
    getStorageProvider 1000007 0 (updateConfig Reload.raise_limit Reload.session2) =
    (Ok p, s').
Proof.
  apply (selection_never_throws_without_removal 1000007 0
           (updateConfig Reload.raise_limit Reload.session2)).
  - apply stay_updateConfig; [reflexivity|].
    do 2 apply stay_getStorageProvider. apply stay_constructor.
  - discriminate.
Defined.

(** * Further properties of updateConfig *)

Lemma merge_provider_ids (s : MultiBucket) (newProvider : Provider.t) :
  ids (merge_provider s newProvider) =
  if decide (Provider.id newProvider ∈ ids s) then ids s
  else (ids s ++ [Provider.id newProvider])%list.
Proof.
  unfold ids, merge_provider.
  destruct (list_find _ _) as [[i existing]|] eqn:Hfind; simpl.
  - apply list_find_Some in Hfind as (Hi & Hid & _).
    rewrite decide_True.
    + rewrite list_fmap_insert. apply list_insert_id.
      rewrite list_lookup_fmap, Hi. simpl. by rewrite Hid.
    + rewrite <- Hid. apply list_elem_of_fmap. exists existing.
      split; [done|]. by eapply list_elem_of_lookup_2.
  - apply list_find_None in Hfind. rewrite decide_False; [by rewrite fmap_app|].
    intros (p & Hid & Hp)%list_elem_of_fmap.
    rewrite Forall_forall in Hfind. by destruct (Hfind p Hp).
Qed.

Lemma merge_provider_prefix (s : MultiBucket) (newProvider : Provider.t) :
  ids s `prefix_of` ids (merge_provider s newProvider) ∧
  Provider.id newProvider ∈ ids (merge_provider s newProvider) ∧
  (NoDup (ids s) → NoDup (ids (merge_provider s newProvider))).
Proof.
  rewrite merge_provider_ids. case_decide as Hin.
  - done.
  - split; [by apply prefix_app_r|]. split.
    + apply elem_of_app. right. by left.
    + intros Hnd. apply NoDup_app. split; [done|]. split; [|apply NoDup_singleton].
      intros x Hx ->%list_elem_of_singleton. done.
Qed.

Lemma merge_providers_prefix (incoming : list Provider.t) (s : MultiBucket) :
  ids s `prefix_of` ids (fold_left merge_provider incoming s) ∧
  (∀ p, p ∈ incoming → Provider.id p ∈ ids (fold_left merge_provider incoming s)) ∧
  (NoDup (ids s) → NoDup (ids (fold_left merge_provider incoming s))).
Proof.
  revert s. induction incoming as [|p ps IH]; intros s; simpl.
  - split; [done|]. split; [by intros q ?%elem_of_nil | done].
  - destruct (IH (merge_provider s p)) as (Hpre & Hin & Hnd).
    destruct (merge_provider_prefix s p) as (Hpre' & Hin' & Hnd').
    split; [by etrans|]. split; [|auto].
    intros q [->|Hq]%elem_of_cons; [|auto].
    destruct Hpre as [k ->]. apply elem_of_app. by left.
Qed.

(** X7.  An update never makes two providers share an id: when the ids of
    the registry are distinct before an update, they are distinct after
    it, whatever the incoming list holds and whether or not stale
    providers are removed. *)
Theorem updateConfig_keeps_ids_distinct (configData : Config.t) (s : MultiBucket) :
  NoDup (ids s) → NoDup (ids (updateConfig configData s)).
Proof.
  intros Hnd. unfold ids in *.
  destruct (updateConfig_registry configData s) as (-> & _ & _).
  destruct (Config.providers configData) as [incoming|]; [|done].
  destruct (merge_providers_prefix incoming s) as (_ & _ & Hnd').
  destruct (Config.removeStaleProviders configData); [|by apply Hnd'].
  eapply sublist_NoDup; [by apply Hnd'|].
  apply fmap_sublist, sublist_filter.
Qed.

Lemma updateConfig_keeps_ids_distinct_witness :
  NoDup (ids (updateConfig Reload.raise_limit Reload.session2)).
Proof.
  apply (updateConfig_keeps_ids_distinct Reload.raise_limit Reload.session2).
  apply NoDup_cons. split; [|apply NoDup_singleton].
  by intros ?%list_elem_of_singleton.
Defined.

(** X8.  An update that does not ask for the removal of stale providers
    keeps every provider in its place: the ids of the registry before the
    update are a prefix of the ids after it (new providers are appended),
    and every id of the incoming list is in the registry afterwards. *)
Theorem updateConfig_appends (configData : Config.t) (incoming : list Provider.t)
    (s : MultiBucket) :
  Config.providers configData = Some incoming →
  Config.removeStaleProviders configData = false →
  ids s `prefix_of` ids (updateConfig configData s) ∧
  ∀ p, p ∈ incoming → Provider.id p ∈ ids (updateConfig configData s).
Proof.
  intros Hinc Hkeep. unfold ids in *.
  destruct (updateConfig_registry configData s) as (-> & _ & _).
  rewrite Hinc, Hkeep. simpl.
  destruct (merge_providers_prefix incoming s) as (Hpre & Hin & _). done.
Qed.

Lemma updateConfig_appends_witness :
  ids Reload.session2 `prefix_of` ids (updateConfig Reload.raise_limit Reload.session2) ∧
  ∀ p, p ∈ [with_rateLimit 200 (bare "s3-main")] →
       Provider.id p ∈ ids (updateConfig Reload.raise_limit Reload.session2).
Proof.
  apply (updateConfig_appends Reload.raise_limit
           [with_rateLimit 200 (bare "s3-main")] Reload.session2); reflexivity.
Defined.

Lemma merge_provider_keeps_counters (s : MultiBucket) (newProvider : Provider.t)
    (id : string) :
  id ∈ ids s →
  providerUsage (merge_provider s newProvider) !! id = providerUsage s !! id.
Proof.
  intros Hin. destruct (decide (id = Provider.id newProvider)) as [->|Hne].
  - by rewrite merge_provider_usage_existing.
  - by apply merge_provider_usage_other.
Qed.

Lemma merge_providers_keep_counters (incoming : list Provider.t) (s : MultiBucket)
    (id : string) :
  id ∈ ids s →
  providerUsage (fold_left merge_provider incoming s) !! id = providerUsage s !! id.
Proof.
  revert s. induction incoming as [|p ps IH]; intros s Hin; simpl; [done|].
  rewrite IH, merge_provider_keeps_counters; [done|done|].
  destruct (merge_provider_prefix s p) as ([k ->] & _). apply elem_of_app. by left.
Qed.

(** X9.  The counters of a provider survive every update: for each id that
    is in the registry before the update, the usage record after the
    update is the record before it (request count, error count, time of
    last use and copied limit), whatever the update merges, appends or
    removes. *)
Theorem updateConfig_keeps_counters (configData : Config.t) (s : MultiBucket)
    (id : string) :
  id ∈ ids s →
  providerUsage (updateConfig configData s) !! id = providerUsage s !! id.
Proof.
  intros Hin.
  destruct (updateConfig_registry configData s) as (_ & -> & _).
  destruct (Config.providers configData) as [incoming|]; [|done].
  destruct (Config.removeStaleProviders configData); simpl;
    by apply merge_providers_keep_counters.
Qed.

Lemma updateConfig_keeps_counters_witness :
  providerUsage (updateConfig Reload.drop_r2_x Reload.session2) !! "r2-x" =
  providerUsage Reload.session2 !! "r2-x".
Proof.
  apply (updateConfig_keeps_counters Reload.drop_r2_x Reload.session2 "r2-x").
  right. by left.
Defined.

(** ** Applying the same update again *)

Lemma spread_spread (old new : Provider.t) :
  Provider.spread (Provider.spread old new) new = Provider.spread old new.
Proof.
  destruct old, new. unfold Provider.spread. simpl. f_equal;
    match goal with |- match ?x with _ => _ end = _ => by destruct x end.
Qed.

Lemma spread_self (p : Provider.t) : Provider.spread p p = p.
Proof.
  destruct p. unfold Provider.spread. simpl. f_equal;
    match goal with |- match ?x with _ => _ end = _ => by destruct x end.
Qed.

Lemma set_providers_id (s : MultiBucket) : set_providers (providers s) s = s.
Proof. by destruct s. Qed.

Lemma merge_provider_noop (s : MultiBucket) (p : Provider.t) :
  merged_in (providers s) p → merge_provider s p = s.
Proof.
  intros (i & q & Hfind & Hq). unfold merge_provider. rewrite Hfind, Hq.
  apply list_find_Some in Hfind as (Hi & _).
  rewrite list_insert_id by done. apply set_providers_id.
Qed.

Lemma merge_provider_merged_in (s : MultiBucket) (p : Provider.t) :
  merged_in (providers (merge_provider s p)) p.
Proof.
  unfold merge_provider.
  destruct (list_find _ _) as [[i existing]|] eqn:Hfind; simpl.
  - apply list_find_Some in Hfind as (Hi & Hid & Hbefore).
    exists i, (Provider.spread existing p). split; [|apply spread_spread].
    apply list_find_Some. split; [|split; [done|]].
    + apply list_lookup_insert_eq. by eapply lookup_lt_Some.
    + intros j y Hj Hlt. rewrite list_lookup_insert_ne in Hj by lia. eauto.
  - exists (length (providers s)), p. split; [|apply spread_self].
    rewrite list_find_app_r by done. simpl. rewrite decide_True by done. done.
Qed.

Lemma merge_provider_keeps_merged_in (s : MultiBucket) (p p' : Provider.t) :
  Provider.id p' ≠ Provider.id p →
  merged_in (providers s) p → merged_in (providers (merge_provider s p')) p.
Proof.
  intros Hne (i & q & Hfind & Hq). exists i, q. split; [|done].
  unfold merge_provider.
  destruct (list_find (λ x, Provider.id x = Provider.id p') _) as [[j e]|] eqn:Hfind'; simpl.
  - apply list_find_Some in Hfind as (Hi & Hid & Hbefore).
    apply list_find_Some in Hfind' as (Hj & Hid' & _).
    assert (i ≠ j) as Hij by (intros ->; simplify_eq; congruence).
    apply list_find_Some. split; [by rewrite list_lookup_insert_ne|]. split; [done|].
    intros k y Hk Hlt. rewrite list_lookup_insert in Hk.
    case_decide as Hcase; [|eauto]. destruct Hcase as [<- _]. simplify_eq. simpl.
    congruence.
  - by apply list_find_app_l.
Qed.

Lemma merge_providers_keep_merged_in (incoming : list Provider.t) (s : MultiBucket)
    (p : Provider.t) :
  Provider.id p ∉ Provider.id <$> incoming →
  merged_in (providers s) p →
  merged_in (providers (fold_left merge_provider incoming s)) p.
Proof.
  revert s. induction incoming as [|p' ps IH]; intros s Hnot Hin; simpl; [done|].
  rewrite fmap_cons in Hnot. apply not_elem_of_cons in Hnot as [Hne Hnot].
  apply IH; [done|]. by apply merge_provider_keeps_merged_in.
Qed.

Lemma merge_providers_merged_in (incoming : list Provider.t) (s : MultiBucket) :
  NoDup (Provider.id <$> incoming) →
  ∀ p, p ∈ incoming → merged_in (providers (fold_left merge_provider incoming s)) p.
Proof.
  revert s. induction incoming as [|p' ps IH]; intros s Hnd p Hp; simpl;
    [by apply elem_of_nil in Hp|].
  rewrite fmap_cons in Hnd. apply NoDup_cons in Hnd as [Hfresh Hnd].
  apply elem_of_cons in Hp as [->|Hp]; [|by apply IH].
  apply merge_providers_keep_merged_in; [done|]. apply merge_provider_merged_in.
Qed.

Lemma merge_providers_noop (incoming : list Provider.t) (s : MultiBucket) :
  (∀ p, p ∈ incoming → merged_in (providers s) p) →
  fold_left merge_provider incoming s = s.
Proof.
  induction incoming as [|p ps IH]; intros Hall; simpl; [done|].
  rewrite merge_provider_noop by (apply Hall; by left).
  apply IH. intros q Hq. apply Hall. by right.
Qed.

Lemma list_find_filter {A : Type} (P Q : A → Prop) `{∀ x, Decision (P x)}
    `{∀ x, Decision (Q x)} (l : list A) (i : nat) (x : A) :
  (∀ y, P y → Q y) →
  list_find P l = Some (i, x) →
  ∃ i', list_find P (filter Q l) = Some (i', x).
Proof.
  intros HPQ. revert i. induction l as [|y l IH]; intros i Hfind; [done|].
  rewrite filter_cons. simpl in Hfind. case_decide as HP.
  - simplify_eq. rewrite decide_True by auto. exists 0. simpl. by rewrite decide_True.
  - destruct (list_find P l) as [[j z]|] eqn:Hl; simplify_eq/=.
    destruct (IH j eq_refl) as [i' Hi']. case_decide.
    + exists (S i'). simpl. rewrite decide_False by done. by rewrite Hi'.
    + by exists i'.
Qed.

Lemma filter_id_of_Forall {A : Type} (Q : A → Prop) `{∀ x, Decision (Q x)} (l : list A) :
  Forall Q l → filter Q l = l.
Proof.
  induction 1 as [|x l Hx Hl IH]; [done|].
  by rewrite filter_cons, decide_True, IH.
Qed.

Lemma remove_stale_merged_in (incoming : list Provider.t) (s : MultiBucket)
    (p : Provider.t) :
  p ∈ incoming →
  merged_in (providers s) p → merged_in (providers (remove_stale incoming s)) p.
Proof.
  intros Hp (i & q & Hfind & Hq). simpl.
  destruct (list_find_filter (λ x, Provider.id x = Provider.id p)
              (λ x, Provider.id x ∈ Provider.id <$> incoming) (providers s) i q)
    as [i' Hi']; [|done|by exists i', q].
  intros y ->. apply list_elem_of_fmap. by exists p.
Qed.

Lemma merge_again (incoming : list Provider.t) (s t : MultiBucket) :
  NoDup (Provider.id <$> incoming) →
  providers t = providers (fold_left merge_provider incoming s) →
  fold_left merge_provider incoming t = t.
Proof.
  intros Hnd Ht. apply merge_providers_noop. intros p Hp. rewrite Ht.
  by apply merge_providers_merged_in.
Qed.

Lemma merge_and_remove_again (incoming : list Provider.t) (s t : MultiBucket) :
  NoDup (Provider.id <$> incoming) →
  providers t = providers (remove_stale incoming (fold_left merge_provider incoming s)) →
  remove_stale incoming (fold_left merge_provider incoming t) = t.
Proof.
  intros Hnd Ht. rewrite merge_providers_noop.
  - unfold remove_stale. rewrite Ht. simpl.
    rewrite filter_id_of_Forall.
    + change (filter _ (providers (fold_left merge_provider incoming s)))
        with (providers (remove_stale incoming (fold_left merge_provider incoming s))).
      rewrite <- Ht. apply set_providers_id.
    + apply Forall_forall. by intros x [? _]%list_elem_of_filter.
  - intros p Hp. rewrite Ht.
    apply remove_stale_merged_in; [done|]. by apply merge_providers_merged_in.
Qed.

Lemma updateConfig_split (configData : Config.t) (s : MultiBucket) :
  updateConfig configData s =
  updateConfig_settings configData (updateConfig_providers configData s).
Proof. reflexivity. Qed.

Lemma updateConfig_settings_providers (configData : Config.t) (s : MultiBucket) :
  providers (updateConfig_settings configData s) = providers s.
Proof.
  unfold updateConfig_settings.
  destruct (truthy_str _), (Config.defaultExpiry configData) as [e|];
    try destruct (e =? 0)%Z; done.
Qed.

Lemma updateConfig_settings_twice (configData : Config.t) (s : MultiBucket) :
  updateConfig_settings configData (updateConfig_settings configData s) =
  updateConfig_settings configData s.
Proof.
  unfold updateConfig_settings.
  destruct (truthy_str _), (Config.defaultExpiry configData) as [e|];
    try destruct (e =? 0)%Z; by destruct s.
Qed.

Lemma updateConfig_providers_again (configData : Config.t) (s t : MultiBucket) :
  NoDup (Provider.id <$> default [] (Config.providers configData)) →
  providers t = providers (updateConfig_providers configData s) →
  updateConfig_providers configData t = t.
Proof.
  unfold updateConfig_providers. intros Hnd Ht.
  destruct (Config.providers configData) as [incoming|]; [|done].
  simpl in *. destruct (Config.removeStaleProviders configData).
  - by apply (merge_and_remove_again incoming s).
  - by apply (merge_again incoming s).
Qed.

(** X10.  Applying an update whose incoming ids are distinct a second time
    changes nothing: the state after two applications is the state after
    one (the registry, every usage record, the cursor and the settings),
    so a poll that fetches an unchanged configuration is harmless. *)
Theorem updateConfig_idempotent (configData : Config.t) (s : MultiBucket) :
  NoDup (Provider.id <$> default [] (Config.providers configData)) →
  updateConfig configData (updateConfig configData s) = updateConfig configData s.
Proof.
  intros Hnd. rewrite !updateConfig_split.
  rewrite (updateConfig_providers_again configData s); [|done|].
  - apply updateConfig_settings_twice.
  - apply updateConfig_settings_providers.
Qed.

Lemma updateConfig_idempotent_witness :
  updateConfig Reload.raise_limit (updateConfig Reload.raise_limit Reload.session2) =
  updateConfig Reload.raise_limit Reload.session2.
Proof.
  apply (updateConfig_idempotent Reload.raise_limit Reload.session2).
  apply NoDup_singleton.
Defined.

(** * Further properties of the constructor and of generateUploadUrl *)

Lemma init_usage_dom (ps : list Provider.t) :
  dom (init_usage ps) = list_to_set (Provider.id <$> ps).
Proof.
  apply set_eq. intros id. rewrite elem_of_dom, init_usage_lookup, elem_of_list_to_set.
  rewrite fmap_is_Some, list_elem_of_fmap. split.
  - intros [p Hp]. apply last_Some in Hp as [l Hl].
    assert (p ∈ filter (λ q, Provider.id q = id) ps) as [Hid Hin]%list_elem_of_filter.
    { rewrite Hl. apply elem_of_app. right. by left. }
    by exists p.
  - intros (p & -> & Hp).
    assert (p ∈ filter (λ q, Provider.id q = Provider.id p) ps) as Hin
      by (by apply list_elem_of_filter).
    destruct (filter _ ps) as [|q qs] using rev_ind; [by apply elem_of_nil in Hin|].
    rewrite last_snoc. by eexists.
Qed.

(** X11.  A new session has one usage record for each configured id and no
    other: every provider of the registry reads a record, the own keys of
    the tracker are exactly the ids of the registry other than
    ["__proto__"] (the record of that id is the prototype of the tracker),
    every record has zero requests, zero errors and time of last use 0,
    and its limit is the [rateLimit || 1000] of a provider with that id;
    the round-robin cursor starts at 0. *)
Theorem constructor_usage (options : Options.t) :
  (∀ p, p ∈ providers (constructor options) →
        is_Some (providerUsage (constructor options) !! Provider.id p)) ∧
  dom (own (providerUsage (constructor options))) =
    list_to_set (ids (constructor options)) ∖ {["__proto__"]} ∧
  currentProviderIndex (constructor options) = 0 ∧
  ∀ id u, providerUsage (constructor options) !! id = Some u →
    Usage.requestCount u = 0%Z ∧
    Usage.errorCount u = 0%Z ∧
    Usage.lastUsed u = 0%Z ∧
    ∃ p, p ∈ providers (constructor options) ∧
         Provider.id p = id ∧
         Usage.rateLimit u = num_or (Provider.rateLimit p) 1000.
Proof.
  split; [apply constructor_well_formed|].
  split; [unfold own; rewrite dom_delete_L; f_equal; apply init_usage_dom|].
  split; [done|].
  intros id u Hu. simpl in Hu. rewrite init_usage_lookup in Hu.
  destruct (last _) as [p|] eqn:Hlast; simplify_eq/=.
  repeat (split; [done|]).
  apply last_Some in Hlast as [l Hl].
  assert (p ∈ filter (λ q, Provider.id q = id) (default [] (Options.providers options)))
    as [Hid Hin]%list_elem_of_filter.
  { rewrite Hl. apply elem_of_app. right. by left. }
  by exists p.
Qed.

(** ** Errors and their attribution *)

Lemma usage_of_unattributed usage id prop : unattributed (usage_of usage id prop).
Proof. unfold usage_of. by destruct (usage !! id). Qed.

Lemma reduce_unattributed {A B : Type} (f : B → A → Res B) (l : list A) (acc : B) :
  (∀ b a, unattributed (f b a)) → unattributed (reduce f l acc).
Proof.
  intros Hf. revert acc. induction l as [|x l IH]; intros acc; simpl; [done|].
  pose proof (Hf acc x) as Hx. destruct (f acc x); simpl; [apply IH | done].
Qed.

Lemma find_res_unattributed {A : Type} (f : A → Res bool) (l : list A) :
  (∀ a, unattributed (f a)) → unattributed (find_res f l).
Proof.
  intros Hf. induction l as [|x l IH]; simpl; [done|].
  pose proof (Hf x) as Hx. destruct (f x) as [[]|]; simpl; done.
Qed.

Lemma least_used_step_unattributed usage least current :
  unattributed (least_used_step usage least current).
Proof.
  unfold least_used_step, usage_of.
  by destruct (usage !! Provider.id current), (usage !! Provider.id least).
Qed.

Lemma least_errors_step_unattributed usage least current :
  unattributed (least_errors_step usage least current).
Proof.
  unfold least_errors_step, usage_of.
  by destruct (usage !! Provider.id least), (usage !! Provider.id current).
Qed.

Lemma is_available_unattributed usage now p : unattributed (is_available usage now p).
Proof. unfold is_available, usage_of. by destruct (usage !! Provider.id p). Qed.

Lemma getStorageProvider_unattributed now random (s : MultiBucket) :
  unattributed (getStorageProvider now random s).1.
Proof.
  unfold getStorageProvider. destruct (providers s) as [|first rest]; [done|].
  assert (unattributed (select_by_strategy random first s).1) as Hsel.
  { unfold select_by_strategy.
    destruct (String.eqb _ "round-robin"); [done|].
    destruct (String.eqb _ "least-used").
    { pose proof (reduce_unattributed (least_used_step (providerUsage s)) (providers s) first
                    (least_used_step_unattributed _)) as H.
      simpl. by destruct (reduce _ _ _). }
    destruct (String.eqb _ "least-errors").
    { pose proof (reduce_unattributed (least_errors_step (providerUsage s)) (providers s)
                    first (least_errors_step_unattributed _)) as H.
      simpl. by destruct (reduce _ _ _). }
    by destruct (String.eqb _ _). }
  destruct (select_by_strategy random first s) as [[sel|e] s1]; [|done].
  unfold gate_and_update. destruct sel as [c|]; [|done].
  destruct (providerUsage s1 !! Provider.id c) as [uc|]; [|done].
  destruct (rate_limited now uc); [|done].
  pose proof (find_res_unattributed (is_available (providerUsage s1) now) (providers s1)
                (is_available_unattributed _ _)) as H.
  by destruct (find_res _ _).
Qed.

Lemma createClient_unattributed (p : Provider.t) : unattributed (createClient p).
Proof. unfold createClient. by repeat case_decide. Qed.

Lemma toISOString_unattributed (t : Z) : unattributed (toISOString t).
Proof. unfold toISOString. by destruct (_ <=? _)%Z. Qed.

Lemma upload_signed_unattributed w options (p : Provider.t) (s : MultiBucket) :
  unattributed_errors w → unattributed (upload_signed w options p s).
Proof.
  intros Hquiet. unfold upload_signed.
  pose proof (createClient_unattributed p) as Hclient.
  destruct (createClient p) as [client|e]; simpl; [|done].
  pose proof (Hquiet client (upload_command options w p) (upload_expiry options s)) as Hsig.
  destruct (World.getSignedUrl w client _ _) as [url|e]; simpl; [|by apply Hsig].
  pose proof (toISOString_unattributed
                (World.now_result w + upload_expiry options s * 1000)) as Hiso.
  by destruct (toISOString _).
Qed.

Lemma upload_resolved_unattributed w options (s : MultiBucket) :
  unattributed (upload_resolved w options s).1.
Proof.
  unfold upload_resolved. destruct (truthy_str _).
  - by destruct (find _ _).
  - apply getStorageProvider_unattributed.
Qed.

Lemma generateUploadUrl_try_unattributed w options (s : MultiBucket) :
  unattributed_errors w → unattributed (generateUploadUrl_try w options s).1.
Proof.
  intros Hquiet. rewrite generateUploadUrl_try_unfold.
  pose proof (upload_resolved_unattributed w options s) as Hres.
  destruct (upload_resolved w options s) as [[p|e] s1]; [|done].
  by apply upload_signed_unattributed.
Qed.

(** The state a call leaves behind, when the signer's errors carry no
    [providerInfo], is the state after its [try] block. *)
Lemma generateUploadUrl_state_unattributed w options (s : MultiBucket) :
  unattributed_errors w →
  (generateUploadUrl w options s).2 = (generateUploadUrl_try w options s).2.
Proof.
  intros Hquiet. unfold generateUploadUrl.
  pose proof (generateUploadUrl_try_unattributed w options s Hquiet) as Htry.
  destruct (generateUploadUrl_try w options s) as [[result|error] s1]; [done|].
  simpl in *. unfold generateUploadUrl_catch. by rewrite Htry.
Qed.

(** What a result of [upload_signed] is made of. *)
Lemma upload_signed_ok w options (p : Provider.t) (s : MultiBucket) (result : UploadUrl.t) :
  upload_signed w options p s = Ok result →
  ∃ client,
    createClient p = Ok client ∧
    World.getSignedUrl w client (upload_command options w p) (upload_expiry options s) =
      Ok (UploadUrl.uploadUrl result) ∧
    UploadUrl.provider result = Provider.id p ∧
    UploadUrl.bucket result = Provider.bucket p ∧
    UploadUrl.key result = PutObjectCommand.Key (upload_command options w p) ∧
    UploadUrl.publicUrl result = public_url p (UploadUrl.key result) ∧
    UploadUrl.expires result = (World.now_result w + upload_expiry options s * 1000)%Z ∧
    valid_time (World.now_result w + upload_expiry options s * 1000).
Proof.
  unfold upload_signed.
  destruct (createClient p) as [client|e]; simpl; [|done].
  destruct (World.getSignedUrl w client _ _) as [url|e] eqn:Hurl; simpl; [|done].
  unfold toISOString, valid_time.
  destruct (Z.leb_spec (Z.abs (World.now_result w + upload_expiry options s * 1000))
              8640000000000000) as [Hle|Hgt]; simpl; [|done].
  intros [= <-]. by exists client.
Qed.

Lemma upload_resolved_state w options (s : MultiBucket) :
  (upload_resolved w options s).2 =
  if truthy_str (UploadOptions.providerId options) then s
  else (getStorageProvider (World.now w) (World.random w) s).2.
Proof. unfold upload_resolved. destruct (truthy_str _); [by destruct (find _ _) | done]. Qed.

Lemma generateUploadUrl_try_state w options (s : MultiBucket) :
  (generateUploadUrl_try w options s).2 =
  if truthy_str (UploadOptions.providerId options) then s
  else (getStorageProvider (World.now w) (World.random w) s).2.
Proof.
  unfold generateUploadUrl_try. destruct (truthy_str _).
  - by destruct (find _ _).
  - by destruct (getStorageProvider _ _ _) as [[p|e] s1].
Qed.

(** X12.  Without a [providerId] the call goes through the selector, and a
    generation that fails afterwards has still used up a selection: when
    the signer's errors carry no [providerInfo], the state the call leaves
    behind is the state [getStorageProvider] leaves behind, whether the
    client could be created and the URL signed or not; a failure of the
    selection itself is rethrown with the prefix
    "Failed to generate upload URL: ". *)
Theorem upload_uses_up_a_selection (w : World.t) (options : UploadOptions.t)
    (s : MultiBucket) :
  truthy_str (UploadOptions.providerId options) = false →
  unattributed_errors w →
  (generateUploadUrl w options s).2 =
    (getStorageProvider (World.now w) (World.random w) s).2 ∧
  (∀ e, (getStorageProvider (World.now w) (World.random w) s).1 = Throw e →
        (generateUploadUrl w options s).1 =
        Throw (Error ("Failed to generate upload URL: " +:+ message e) None)) ∧
  (∀ p result, (getStorageProvider (World.now w) (World.random w) s).1 = Ok p →
               (generateUploadUrl w options s).1 = Ok result →
               UploadUrl.provider result = Provider.id p ∧
               UploadUrl.bucket result = Provider.bucket p).
Proof.
  intros Hfalsy Hquiet. split; [|split].
  - rewrite generateUploadUrl_state_unattributed, generateUploadUrl_try_state by done.
    by rewrite Hfalsy.
  - intros e He. unfold generateUploadUrl. rewrite generateUploadUrl_try_unfold.
    unfold upload_resolved. rewrite Hfalsy.
    destruct (getStorageProvider _ _ _) as [[p|e'] s1]; simplify_eq/=. done.
  - intros p result Hp. unfold generateUploadUrl. rewrite generateUploadUrl_try_unfold.
    unfold upload_resolved. rewrite Hfalsy.
    destruct (getStorageProvider _ _ _) as [[p'|e'] s1]; simplify_eq/=.
    destruct (upload_signed w options p s1) as [r|e] eqn:Hsigned; simpl; [|done].
    intros [= <-]. by destruct (upload_signed_ok _ _ _ _ _ Hsigned) as (_ & _ & _ & ? & ? & _).
Qed.

(** ** The error counter *)

Lemma getStorageProvider_errorCount now random (s : MultiBucket) (id : string) :
  Usage.errorCount <$> providerUsage (getStorageProvider now random s).2 !! id =
  Usage.errorCount <$> providerUsage s !! id.
Proof.
  destruct (getStorageProvider_effect now random s)
    as (_ & _ & _ & [[_ ->]|(p & k & u & _ & Hk & ->)]); [done|].
  destruct (decide (k = id)) as [->|Hne].
  - by rewrite lookup_insert_eq, Hk.
  - by rewrite lookup_insert_ne.
Qed.

(** X13.  The error counters move only when the signer's error names a
    provider: nothing the class throws itself carries a [providerInfo], so
    with a signer whose errors carry none, a call of [generateUploadUrl],
    failed or not, leaves the [errorCount] of every usage record as it
    was. *)
Theorem errorCount_needs_attribution (w : World.t) (options : UploadOptions.t)
    (s : MultiBucket) (id : string) :
  unattributed_errors w →
  Usage.errorCount <$> providerUsage (generateUploadUrl w options s).2 !! id =
  Usage.errorCount <$> providerUsage s !! id.
Proof.
  intros Hquiet.
  rewrite generateUploadUrl_state_unattributed, generateUploadUrl_try_state by done.
  destruct (truthy_str _); [done | apply getStorageProvider_errorCount].
Qed.

Lemma no_recorded_errors_of_errorCount (s s' : MultiBucket) :
  (∀ id, Usage.errorCount <$> providerUsage s' !! id =
         Usage.errorCount <$> providerUsage s !! id) →
  no_recorded_errors s → no_recorded_errors s'.
Proof.
  intros Heq Hs id u Hu. specialize (Heq id). rewrite Hu in Heq. simpl in Heq.
  destruct (providerUsage s !! id) as [u0|] eqn:Hu0; simplify_eq/=.
  rewrite Heq. by apply (Hs id).
Qed.

Lemma merge_provider_no_recorded_errors (s : MultiBucket) (p : Provider.t) :
  no_recorded_errors s → no_recorded_errors (merge_provider s p).
Proof.
  intros Hs id u. unfold merge_provider.
  destruct (list_find _ _) as [[i q]|]; simpl; [apply Hs|].
  destruct (decide (Provider.id p = id)) as [<-|Hne].
  - rewrite lookup_insert_eq. by intros [= <-].
  - rewrite lookup_insert_ne by done. apply Hs.
Qed.

Lemma merge_providers_no_recorded_errors (incoming : list Provider.t) (s : MultiBucket) :
  no_recorded_errors s → no_recorded_errors (fold_left merge_provider incoming s).
Proof.
  revert s. induction incoming as [|p incoming IH]; intros s Hs; [done|].
  simpl. by apply IH, merge_provider_no_recorded_errors.
Qed.

Lemma updateConfig_no_recorded_errors (configData : Config.t) (s : MultiBucket) :
  no_recorded_errors s → no_recorded_errors (updateConfig configData s).
Proof.
  intros Hs. unfold updateConfig.
  assert (no_recorded_errors
    match Config.providers configData with
    | Some incoming =>
        let s' := fold_left merge_provider incoming s in
        if Config.removeStaleProviders configData then remove_stale incoming s' else s'
    | None => s
    end) as H1.
  { destruct (Config.providers configData) as [incoming|]; [|done].
    pose proof (merge_providers_no_recorded_errors incoming s Hs).
    simpl. by destruct (Config.removeStaleProviders configData). }
  destruct (truthy_str _), (Config.defaultExpiry configData) as [e|];
    try destruct (e =? 0)%Z; done.
Qed.

Lemma reachable_unattributed_no_recorded_errors (s : MultiBucket) :
  reachable_unattributed s → no_recorded_errors s.
Proof.
  induction 1 as [options|configData s _ IH|now random s _ IH|w options s Hquiet _ IH].
  - intros id u Hu. simpl in Hu. rewrite init_usage_lookup in Hu.
    destruct (last _); by simplify_eq/=.
  - by apply updateConfig_no_recorded_errors.
  - eapply no_recorded_errors_of_errorCount; [|done].
    apply getStorageProvider_errorCount.
  - eapply no_recorded_errors_of_errorCount; [|done].
    intros id.
    rewrite generateUploadUrl_state_unattributed, generateUploadUrl_try_state by done.
    destruct (truthy_str _); [done | apply getStorageProvider_errorCount].
Qed.

Lemma reachable_unattributed_reachable (s : MultiBucket) :
  reachable_unattributed s → reachable s.
Proof. induction 1; by constructor. Qed.

Lemma rate_of_no_recorded_errors (s : MultiBucket) (p : Provider.t) :
  no_recorded_errors s → (rate_of (providerUsage s) p == 0)%Q.
Proof.
  intros Hs. unfold rate_of.
  destruct (providerUsage s !! Provider.id p) as [u|] eqn:Hu; [|done].
  simpl. unfold error_rate. rewrite (Hs _ _ Hu). unfold Qdiv. apply Qmult_0_l.
Qed.

(** X14.  As long as the signer's errors name no provider, least-errors
    does not balance at all: in every state such a session reaches, with
    whatever request counts, the strategy's candidate is the first provider
    of the registry, and the call returns it whenever its own gate is
    satisfied. *)
Theorem least_errors_stays_on_first (now : Z) (random : Q) (first : Provider.t)
    (rest : list Provider.t) (s : MultiBucket) :
  reachable_unattributed s →
  providers s = first :: rest →
  loadBalanceStrategy s = "least-errors" →
  (select_by_strategy random first s).1 = Ok (Some first) ∧
  (gate_satisfied (providerUsage s) now first →
   (getStorageProvider now random s).1 = Ok first).
Proof.
  intros Hreach Hps Hstrat.
  pose proof (reachable_unattributed_no_recorded_errors s Hreach) as Hzero.
  pose proof (reachable_well_formed s (reachable_unattributed_reachable s Hreach)) as Hwf.
  destruct (least_errors_candidate random first rest s Hps Hstrat (proj1 Hwf))
    as (c & i & Hsel & Hi & _ & Hbefore).
  assert (c = first) as ->.
  { destruct i as [|i].
    - rewrite Hps in Hi. by simplify_eq/=.
    - exfalso. specialize (Hbefore 0 first). rewrite Hps in Hbefore.
      opose proof* Hbefore as Hlt; [lia | done |].
      rewrite !rate_of_no_recorded_errors in Hlt by done. by apply Qlt_irrefl in Hlt. }
  split; [done|].
  intros (u & Hu & Hgate).
  destruct (getStorageProvider_ok now random first rest s first Hps Hwf Hsel)
    as (uc & r & Huc & _ & ->); [rewrite Hps; by left|].
  simpl. simplify_eq.
  destruct (rate_limited now u) eqn:Hlim; [|done].
  apply rate_limited_lt in Hlim; [|by apply (proj2 Hwf _ _ Hu)].
  exfalso. by apply Qlt_not_le in Hlim.
Qed.

Lemma upload_uses_up_a_selection_witness :
  (generateUploadUrl Outage.world Outage.options Outage.session0).2 =
    (getStorageProvider (World.now Outage.world) (World.random Outage.world)
       Outage.session0).2 ∧
  (∀ e, (getStorageProvider (World.now Outage.world) (World.random Outage.world)
           Outage.session0).1 = Throw e →
        (generateUploadUrl Outage.world Outage.options Outage.session0).1 =
        Throw (Error ("Failed to generate upload URL: " +:+ message e) None)) ∧
  (∀ p result,
     (getStorageProvider (World.now Outage.world) (World.random Outage.world)
        Outage.session0).1 = Ok p →
     (generateUploadUrl Outage.world Outage.options Outage.session0).1 = Ok result →
     UploadUrl.provider result = Provider.id p ∧
     UploadUrl.bucket result = Provider.bucket p).
Proof.
  apply (upload_uses_up_a_selection Outage.world Outage.options Outage.session0).
  - reflexivity.
  - intros client command expiry e [= <-]. reflexivity.
Defined.

Lemma errorCount_needs_attribution_witness :
  Usage.errorCount <$>
    providerUsage (generateUploadUrl Outage.world Outage.options Outage.session0).2
      !! "s3-main" =
  Usage.errorCount <$> providerUsage Outage.session0 !! "s3-main".
Proof.
  apply (errorCount_needs_attribution Outage.world Outage.options Outage.session0 "s3-main").
  intros client command expiry e [= <-]. reflexivity.
Defined.

Lemma least_errors_stays_on_first_witness :
  (getStorageProvider 1000015 0 Outage.session1).1 = Ok Reload.s3_main.
Proof.
  assert (reachable_unattributed Outage.session1) as Hreach.
  { apply quiet_generateUploadUrl; [|apply quiet_constructor].
    intros client command expiry e [= <-]. reflexivity. }
  apply (proj2 (least_errors_stays_on_first 1000015 0 Reload.s3_main [Reload.r2_x]
                  Outage.session1 Hreach eq_refl eq_refl)).
  eexists. split; [vm_compute; reflexivity|]. vm_compute. discriminate.
Defined.

(** ** Object keys *)

Lemma string_app_length_inv (s1 s2 t1 t2 : string) :
  String.length s1 = String.length s2 →
  s1 +:+ t1 = s2 +:+ t2 → s1 = s2 ∧ t1 = t2.
Proof.
  revert s2. induction s1 as [|c s1 IH]; intros [|c' s2] Hlen Heq; simplify_eq/=; [done|].
  destruct (IH s2) as [-> ->]; done.
Qed.

Lemma strip_trailing_slash_app (p : string) : strip_trailing_slash (p +:+ "/") = p.
Proof.
  induction p as [|c p IH]; [done|].
  simpl. rewrite IH. by destruct p.
Qed.

(** X15.  Only one slash is taken off each end of [options.path]: for any
    [p], the path ["/" + p + "/"] gives the key [p + "/" + uuid + "-" +
    filename], so further slashes of [p] stay in the key. *)
Theorem object_key_strips_one_slash (p uniqueId filename : string) :
  object_key (Some ("/" +:+ p +:+ "/")) uniqueId filename =
  p +:+ "/" +:+ uniqueId +:+ "-" +:+ filename.
Proof.
  unfold object_key, strip_slashes. simpl.
  change (EmptyString +:+ p +:+ "/") with (p +:+ "/").
  by rewrite strip_trailing_slash_app.
Qed.

(** X16.  Keys collide only when the random part collides: two keys built
    for the same path from identifiers of the same length (a UUID has 36
    characters) are equal only if the identifiers and the file names
    are. *)
Theorem object_key_collision (path : option string) (u u' filename filename' : string) :
  String.length u = String.length u' →
  object_key path u filename = object_key path u' filename' →
  u = u' ∧ filename = filename'.
Proof.
  intros Hlen. unfold object_key. destruct (truthy_str path).
  - intros Heq. do 2 apply String.app_inj in Heq.
    apply string_app_length_inv in Heq as [-> Heq]; [|done].
    by apply String.app_inj in Heq as ->.
  - intros Heq. apply string_app_length_inv in Heq as [-> Heq]; [|done].
    by apply String.app_inj in Heq as ->.
Qed.

Lemma object_key_collision_witness :
  "3b241101-e2bb-4255-8caf-4136c566a962" = "3b241101-e2bb-4255-8caf-4136c566a962" ∧
  "test.jpg" = "test.jpg".
Proof.
  apply (object_key_collision (Some "uploads")
           "3b241101-e2bb-4255-8caf-4136c566a962" "3b241101-e2bb-4255-8caf-4136c566a962"
           "test.jpg" "test.jpg"); reflexivity.
Defined.

(** ** What a call returns *)

Lemma reduce_elem_of {A : Type} (f : A → A → Res A) (l : list A) (acc r : A) :
  (∀ b a r', f b a = Ok r' → r' = b ∨ r' = a) →
  reduce f l acc = Ok r → r = acc ∨ r ∈ l.
Proof.
  intros Hf. revert acc. induction l as [|x l IH]; intros acc; simpl.
  - intros [= ->]. by left.
  - destruct (f acc x) as [b|e] eqn:Hb; simpl; [|done].
    intros [->|Hin]%IH.
    + destruct (Hf _ _ _ Hb) as [->| ->]; [by left | right; by left].
    + right. by right.
Qed.

Lemma find_res_elem_of {A : Type} (f : A → Res bool) (l : list A) (p : A) :
  find_res f l = Ok (Some p) → p ∈ l.
Proof.
  induction l as [|x l IH]; simpl; [done|].
  destruct (f x) as [[]|e]; simpl; [|by right; apply IH|done].
  intros [= ->]. by left.
Qed.

Lemma select_by_strategy_elem_of random first (s : MultiBucket) (c : Provider.t) :
  first ∈ providers s →
  (select_by_strategy random first s).1 = Ok (Some c) → c ∈ providers s.
Proof.
  intros Hfirst. unfold select_by_strategy.
  destruct (String.eqb _ "round-robin").
  { simpl. intros [= Hc]. by eapply list_elem_of_lookup_2. }
  destruct (String.eqb _ "least-used").
  { simpl. destruct (reduce _ _ _) as [r|e] eqn:Hr; simpl; [|done]. intros [= ->].
    apply reduce_elem_of in Hr as [->|Hin]; [done|done|].
    intros b a r'. unfold least_used_step. 
    destruct (usage_of _ (Provider.id a) _); simpl; [|done].
    destruct (usage_of _ (Provider.id b) _); simpl; [|done].
    destruct (_ <? _)%Z; intros [= <-]; auto. }
  destruct (String.eqb _ "least-errors").
  { simpl. destruct (reduce _ _ _) as [r|e] eqn:Hr; simpl; [|done]. intros [= ->].
    apply reduce_elem_of in Hr as [->|Hin]; [done|done|].
    intros b a r'. unfold least_errors_step.
    destruct (usage_of _ (Provider.id b) _); simpl; [|done].
    destruct (usage_of _ (Provider.id a) _); simpl; [|done].
    destruct (Qltb _ _); intros [= <-]; auto. }
  destruct (String.eqb _ _); simpl; intros [= <-]; [|done].
  destruct (weighted_scan _ _) as [q|] eqn:Hq; [|done].
  simpl. by eapply weighted_scan_elem_of.
Qed.

(** Whatever the strategy, the cursor and the usage tracker are, a
    provider that [getStorageProvider] returns is one of [this.providers]. *)
Lemma getStorageProvider_elem_of (now : Z) (random : Q) (s : MultiBucket)
    (p : Provider.t) :
  (getStorageProvider now random s).1 = Ok p → p ∈ providers s.
Proof.
  unfold getStorageProvider.
  destruct (providers s) as [|first rest] eqn:Hps; [done|].
  pose proof (select_by_strategy_elem_of random first s) as Hsel.
  destruct (select_by_strategy_frame random first s) as (Hp & _).
  destruct (select_by_strategy random first s) as [[[c|]|e] s1]; simpl in *; [|done..].
  rewrite Hps in *.
  opose proof* (Hsel c) as Hc; [by left | done |].
  unfold gate_and_update.
  destruct (providerUsage s1 !! Provider.id c) as [uc|]; [|done].
  destruct (rate_limited now uc); simpl; [|by intros [= <-]].
  destruct (find_res _ _) as [[r|]|e] eqn:Hr; simpl; [| |done].
  - intros [= <-]. apply find_res_elem_of in Hr. by rewrite Hp in Hr.
  - by intros [= <-].
Qed.

(** X17.  The selector hands out members of the registry only, and the
    registry it leaves behind is the one it found: a provider returned by
    [getStorageProvider] is one of [this.providers], before and after the
    call. *)
Theorem getStorageProvider_returns_member (now : Z) (random : Q) (s : MultiBucket)
    (p : Provider.t) :
  (getStorageProvider now random s).1 = Ok p →
  p ∈ providers s ∧ p ∈ providers (getStorageProvider now random s).2.
Proof.
  intros Hp. apply getStorageProvider_elem_of in Hp.
  by rewrite (proj1 (getStorageProvider_effect now random s)).
Qed.

Lemma getStorageProvider_returns_member_witness :
  Reload.s3_main ∈ providers Reload.session0 ∧
  Reload.s3_main ∈ providers (getStorageProvider 1000000 0 Reload.session0).2.
Proof.
  apply (getStorageProvider_returns_member 1000000 0 Reload.session0 Reload.s3_main).
  reflexivity.
Defined.

Lemma upload_resolved_ok w options (s s' : MultiBucket) (p : Provider.t) :
  upload_resolved w options s = (Ok p, s') →
  p ∈ providers s ∧ defaultExpiry s' = defaultExpiry s.
Proof.
  unfold upload_resolved. destruct (truthy_str _).
  - destruct (find _ _) as [q|] eqn:Hfind; intros ?; simplify_eq.
    apply find_some in Hfind as [Hin _]. split; [by apply list_elem_of_In | done].
  - intros Hres.
    pose proof (getStorageProvider_elem_of (World.now w) (World.random w) s p) as Hin.
    destruct (getStorageProvider_effect (World.now w) (World.random w) s)
      as (_ & _ & Hexp & _).
    rewrite Hres in Hin, Hexp. by split; [apply Hin|].
Qed.

Lemma generateUploadUrl_ok w options (s : MultiBucket) (result : UploadUrl.t) :
  (generateUploadUrl w options s).1 = Ok result →
  ∃ p s', upload_resolved w options s = (Ok p, s') ∧
          upload_signed w options p s' = Ok result.
Proof.
  unfold generateUploadUrl. rewrite generateUploadUrl_try_unfold.
  destruct (upload_resolved w options s) as [[p|e] s']; [|done].
  destruct (upload_signed w options p s') as [r|e] eqn:Hsigned; [|done].
  simpl. intros [= ->]. by exists p, s'.
Qed.

(** X18.  A successful upload call is backed by a registered provider: the
    result names a provider [p] of the registry whose type is one
    [createClient] supports, the returned URL is the signer's answer for
    [p]'s bucket, the generated key and the expiry
    [options.expiry || this.defaultExpiry], and [key], [bucket],
    [publicUrl] and [expires] of the result are those of that request. *)
Theorem upload_result_sound (w : World.t) (options : UploadOptions.t) (s : MultiBucket)
    (result : UploadUrl.t) :
  (generateUploadUrl w options s).1 = Ok result →
  ∃ p client,
    p ∈ providers s ∧
    createClient p = Ok client ∧
    World.getSignedUrl w client (upload_command options w p) (upload_expiry options s) =
      Ok (UploadUrl.uploadUrl result) ∧
    UploadUrl.provider result = Provider.id p ∧
    UploadUrl.bucket result = Provider.bucket p ∧
    UploadUrl.key result =
      object_key (UploadOptions.path options) (World.randomUUID w)
        (UploadOptions.filename options) ∧
    UploadUrl.publicUrl result = public_url p (UploadUrl.key result) ∧
    UploadUrl.expires result = (World.now_result w + upload_expiry options s * 1000)%Z.
Proof.
  intros (p & s' & Hres & Hsigned)%generateUploadUrl_ok.
  apply upload_resolved_ok in Hres as [Hin Hexp].
  apply upload_signed_ok in Hsigned
    as (client & Hclient & Hurl & Hprov & Hbucket & Hkey & Hpublic & Hexpires & _).
  assert (upload_expiry options s' = upload_expiry options s) as Heq
    by (unfold upload_expiry; by rewrite Hexp).
  rewrite Heq in *. by exists p, client.
Qed.

Lemma upload_result_sound_witness :
  ∃ p client,
    p ∈ providers Reload.session2 ∧
    createClient p = Ok client ∧
    World.getSignedUrl Upload.world client (upload_command Upload.options Upload.world p)
      (upload_expiry Upload.options Reload.session2) =
      Ok "https://my-r2-bucket.example.com/uploads/3b241101-e2bb-4255-8caf-4136c566a962-test.jpg?X-Amz-Algorithm=AWS4-HMAC-SHA256&X-Amz-Credential=EXAMPLE" ∧
    "r2-x" = Provider.id p ∧
    Some "my-r2-bucket" = Provider.bucket p ∧
    "uploads/3b241101-e2bb-4255-8caf-4136c566a962-test.jpg" =
      object_key (UploadOptions.path Upload.options) (World.randomUUID Upload.world)
        (UploadOptions.filename Upload.options) ∧
    Some "https://cdn.example.com/uploads/3b241101-e2bb-4255-8caf-4136c566a962-test.jpg" =
      public_url p "uploads/3b241101-e2bb-4255-8caf-4136c566a962-test.jpg" ∧
    4600006%Z =
      (World.now_result Upload.world + upload_expiry Upload.options Reload.session2 * 1000)%Z.
Proof.
  apply (upload_result_sound Upload.world Upload.options Reload.session2
           {| UploadUrl.uploadUrl :=
                "https://my-r2-bucket.example.com/uploads/3b241101-e2bb-4255-8caf-4136c566a962-test.jpg?X-Amz-Algorithm=AWS4-HMAC-SHA256&X-Amz-Credential=EXAMPLE";
              UploadUrl.publicUrl :=
                Some "https://cdn.example.com/uploads/3b241101-e2bb-4255-8caf-4136c566a962-test.jpg";
              UploadUrl.key := "uploads/3b241101-e2bb-4255-8caf-4136c566a962-test.jpg";
              UploadUrl.bucket := Some "my-r2-bucket";
              UploadUrl.provider := "r2-x";
              UploadUrl.expires := 4600006 |}).
  by vm_compute.
Defined.

(** ** The expiry *)

Lemma Z_or_nonzero (n d : Z) : d ≠ 0%Z → Z_or n d ≠ 0%Z.
Proof. unfold Z_or. destruct (n =? 0)%Z eqn:E; [done|]. intros _. by apply Z.eqb_neq. Qed.

Lemma upload_expiry_nonzero (options : UploadOptions.t) (s : MultiBucket) :
  expiry_nonzero s → upload_expiry options s ≠ 0%Z.
Proof.
  unfold upload_expiry. destruct (UploadOptions.expiry options); [apply Z_or_nonzero | done].
Qed.

Lemma updateConfig_expiry_nonzero (configData : Config.t) (s : MultiBucket) :
  expiry_nonzero s → expiry_nonzero (updateConfig configData s).
Proof.
  intros Hs. rewrite updateConfig_split.
  assert (expiry_nonzero (updateConfig_providers configData s)) as H1.
  { unfold updateConfig_providers.
    destruct (Config.providers configData) as [incoming|]; [|done].
    assert (∀ l s0, defaultExpiry (fold_left merge_provider l s0) = defaultExpiry s0) as Hfold.
    { induction l as [|p l IH]; intros s0; [done|]. simpl. rewrite IH.
      unfold merge_provider. by destruct (list_find _ _) as [[]|]. }
    unfold expiry_nonzero. simpl.
    destruct (Config.removeStaleProviders configData); simpl; by rewrite Hfold. }
  unfold updateConfig_settings, expiry_nonzero.
  destruct (Config.defaultExpiry configData) as [e|]; [|by destruct (truthy_str _)].
  destruct (e =? 0)%Z eqn:E; [by destruct (truthy_str _)|].
  simpl. by apply Z.eqb_neq.
Qed.

Lemma generateUploadUrl_defaultExpiry w options (s : MultiBucket) :
  defaultExpiry (generateUploadUrl w options s).2 = defaultExpiry s.
Proof.
  unfold generateUploadUrl.
  assert (defaultExpiry (generateUploadUrl_try w options s).2 = defaultExpiry s) as Htry.
  { rewrite generateUploadUrl_try_state. destruct (truthy_str _); [done|].
    apply (getStorageProvider_effect (World.now w) (World.random w) s). }
  destruct (generateUploadUrl_try w options s) as [[r|e] s1]; [done|].
  simpl in *. destruct (providerInfo e) as [id|]; [|done].
  by destruct (providerUsage s1 !! id).
Qed.

Lemma reachable_expiry_nonzero (s : MultiBucket) : reachable s → expiry_nonzero s.
Proof.
  induction 1 as [options|configData s _ IH|now random s _ IH|w options s _ IH].
  - unfold expiry_nonzero. simpl.
    destruct (Options.defaultExpiry options); [by apply Z_or_nonzero | done].
  - by apply updateConfig_expiry_nonzero.
  - unfold expiry_nonzero.
    by rewrite (proj1 (proj2 (proj2 (getStorageProvider_effect now random s)))).
  - unfold expiry_nonzero. by rewrite generateUploadUrl_defaultExpiry.
Qed.

Lemma read_expiry_nonzero (options : ReadOptions.t) (s : MultiBucket) :
  expiry_nonzero s → read_expiry options s ≠ 0%Z.
Proof.
  unfold read_expiry. destruct (ReadOptions.expiry options); [apply Z_or_nonzero | done].
Qed.

Lemma refusing_zero_nonzero {C : Type} (e : JsError)
    (signer : Client.t → C → Z → Res string) client command (expiry : Z) :
  expiry ≠ 0%Z → refusing_zero e signer client command expiry = signer client command expiry.
Proof. intros Hnz. unfold refusing_zero. by rewrite (proj2 (Z.eqb_neq _ _) Hnz). Qed.

(** X19.  The signer is never asked for an expiry of 0: the constructor
    and [updateConfig] never store a zero [defaultExpiry], so in every
    state a session reaches the expiry [options.expiry || defaultExpiry]
    of an upload and of a read is non-zero, and a call has the same
    outcome with a signer that rejects an expiry of 0 as with the signer
    it is given; an [expiry] of 0 in the options stands for the
    default. *)
Theorem signed_expiry_never_zero (s : MultiBucket) :
  reachable s →
  defaultExpiry s ≠ 0%Z ∧
  (∀ options, upload_expiry options s ≠ 0%Z) ∧
  (∀ options, read_expiry options s ≠ 0%Z) ∧
  (∀ w options e,
     generateUploadUrl (upload_refusing_zero e w) options s = generateUploadUrl w options s) ∧
  (∀ w options e,
     generateReadUrl (read_refusing_zero e w) options s = generateReadUrl w options s) ∧
  (∀ options, UploadOptions.expiry options = Some 0%Z →
              upload_expiry options s = defaultExpiry s).
Proof.
  intros Hreach. pose proof (reachable_expiry_nonzero s Hreach) as Hnz.
  split; [done|]. split; [intros options; by apply upload_expiry_nonzero|].
  split; [intros options; by apply read_expiry_nonzero|]. split; [|split].
  - intros w options e. unfold generateUploadUrl. rewrite !generateUploadUrl_try_unfold.
    change (upload_resolved (upload_refusing_zero e w) options s)
      with (upload_resolved w options s).
    destruct (upload_resolved w options s) as [[p|e'] s'] eqn:Hres; [|done].
    apply upload_resolved_ok in Hres as [_ Hexp].
    assert (upload_signed (upload_refusing_zero e w) options p s' =
            upload_signed w options p s') as ->; [|done].
    unfold upload_signed. destruct (createClient p) as [client|e']; simpl; [|done].
    change (upload_command options (upload_refusing_zero e w) p)
      with (upload_command options w p).
    rewrite refusing_zero_nonzero; [done|].
    apply upload_expiry_nonzero. unfold expiry_nonzero. by rewrite Hexp.
  - intros w options e. unfold generateReadUrl, generateReadUrl_try.
    destruct (read_provider options s) as [p|]; [|done].
    destruct (createClient p) as [client|e']; simpl; [|done].
    fold (read_expiry options s).
    rewrite refusing_zero_nonzero; [done|]. by apply read_expiry_nonzero.
  - intros options Hzero. unfold upload_expiry. by rewrite Hzero.
Qed.

Lemma signed_expiry_never_zero_witness :
  defaultExpiry Reload.session2 ≠ 0%Z ∧
  (∀ options, upload_expiry options Reload.session2 ≠ 0%Z) ∧
  (∀ options, read_expiry options Reload.session2 ≠ 0%Z) ∧
  (∀ w options e,
     generateUploadUrl (upload_refusing_zero e w) options Reload.session2 =
     generateUploadUrl w options Reload.session2) ∧
  (∀ w options e,
     generateReadUrl (read_refusing_zero e w) options Reload.session2 =
     generateReadUrl w options Reload.session2) ∧
  (∀ options, UploadOptions.expiry options = Some 0%Z →
              upload_expiry options Reload.session2 = defaultExpiry Reload.session2).
Proof.
  apply (signed_expiry_never_zero Reload.session2).
  do 2 apply reach_getStorageProvider. apply reach_constructor.
Defined.

(** * generateReadUrl *)

(** X20.  A [providerId] is never backed up by the bucket: when
    [options.providerId] is given and names no provider of the registry,
    the call fails with "Provider not found", whether or not
    [options.bucket] matches a provider. *)
Theorem read_unknown_providerId_ignores_bucket (w : ReadWorld.t) (options : ReadOptions.t)
    (s : MultiBucket) :
  truthy_str (ReadOptions.providerId options) = true →
  (∀ p, p ∈ providers s → Some (Provider.id p) ≠ ReadOptions.providerId options) →
  generateReadUrl w options s =
  Throw (Error ("Failed to generate read URL: "
                +:+ "Provider not found. Please specify a valid providerId or bucket") None).
Proof.
  intros Htruthy Hunknown. unfold generateReadUrl, generateReadUrl_try, read_provider.
  rewrite Htruthy.
  destruct (find _ _) as [p|] eqn:Hfind; [|done].
  apply find_some in Hfind as [Hin Hid]. apply bool_decide_eq_true in Hid.
  by apply list_elem_of_In, Hunknown in Hin.
Qed.

Lemma read_unknown_providerId_ignores_bucket_witness :
  generateReadUrl Lookup.world Lookup.by_unknown_id Reload.session2 =
  Throw (Error ("Failed to generate read URL: "
                +:+ "Provider not found. Please specify a valid providerId or bucket") None).
Proof.
  apply (read_unknown_providerId_ignores_bucket Lookup.world Lookup.by_unknown_id
           Reload.session2).
  - reflexivity.
  - intros p Hp. simpl in Hp.
    apply elem_of_cons in Hp as [->|Hp]; [discriminate|].
    apply elem_of_cons in Hp as [->|Hp]; [discriminate|].
    by apply elem_of_nil in Hp.
Defined.

Lemma find_app_first {A : Type} (f : A → bool) (before after : list A) (p : A) :
  (∀ q, q ∈ before → f q = false) → f p = true →
  find f (before ++ p :: after) = Some p.
Proof.
  intros Hbefore Hp. induction before as [|q before IH]; simpl.
  - by rewrite Hp.
  - rewrite (Hbefore q) by (by left). apply IH. intros q' Hq'. apply Hbefore. by right.
Qed.

(** X21.  Without a [providerId] the read is resolved by bucket name, and
    among several providers with that bucket the first of the registry is
    taken: the call signs with its client, and a URL that is returned names
    that provider. *)
Theorem read_by_bucket_takes_first (w : ReadWorld.t) (options : ReadOptions.t)
    (s : MultiBucket) (before after : list Provider.t) (p : Provider.t) :
  truthy_str (ReadOptions.providerId options) = false →
  truthy_str (ReadOptions.bucket options) = true →
  providers s = (before ++ p :: after)%list →
  Provider.bucket p = ReadOptions.bucket options →
  (∀ q, q ∈ before → Provider.bucket q ≠ ReadOptions.bucket options) →
  read_provider options s = Some p ∧
  (∀ result, generateReadUrl w options s = Ok result →
             ReadUrl.provider result = Provider.id p ∧
             ReadUrl.bucket result = ReadOptions.bucket options ∧
             ReadUrl.key result = ReadOptions.key options) ∧
  (∀ e, createClient p = Throw e →
        generateReadUrl w options s =
        Throw (Error ("Failed to generate read URL: " +:+ message e) None)).
Proof.
  intros Hid Hbucket Hps Hp Hbefore.
  assert (read_provider options s = Some p) as Hread.
  { unfold read_provider. rewrite Hid, Hbucket, Hps. apply find_app_first.
    - intros q Hq. apply bool_decide_eq_false. by apply Hbefore.
    - by apply bool_decide_eq_true. }
  split; [done|]. unfold generateReadUrl, generateReadUrl_try. rewrite Hread. split.
  - intros result. destruct (createClient p) as [client|e]; simpl; [|done].
    destruct (ReadWorld.getSignedUrl w client _ _); simpl; [|done].
    destruct (toISOString _); simpl; [|done].
    intros [= <-]. by rewrite Hp.
  - by intros e ->.
Qed.

Lemma read_by_bucket_takes_first_witness :
  read_provider Lookup.by_bucket Reload.session2 = Some Reload.r2_x ∧
  (∀ result, generateReadUrl Lookup.world Lookup.by_bucket Reload.session2 = Ok result →
             ReadUrl.provider result = Provider.id Reload.r2_x ∧
             ReadUrl.bucket result = ReadOptions.bucket Lookup.by_bucket ∧
             ReadUrl.key result = ReadOptions.key Lookup.by_bucket) ∧
  (∀ e, createClient Reload.r2_x = Throw e →
        generateReadUrl Lookup.world Lookup.by_bucket Reload.session2 =
        Throw (Error ("Failed to generate read URL: " +:+ message e) None)).
Proof.
  apply (read_by_bucket_takes_first Lookup.world Lookup.by_bucket Reload.session2
           [Reload.s3_main] [] Reload.r2_x).
  - reflexivity.
  - reflexivity.
  - reflexivity.
  - reflexivity.
  - intros q Hq. apply elem_of_cons in Hq as [->|Hq]; [discriminate|].
    by apply elem_of_nil in Hq.
Defined.

(** * createServer *)

(** X22.  The replies of [POST /generate-upload-url]: status 400 exactly
    when [filename] or [contentType] is missing or empty, and then no
    provider is selected and the session is left as it was; otherwise the
    result of [generateUploadUrl] on the fields of the body, or status 500
    with a message that starts with "Failed to generate upload URL: ". *)
Theorem upload_handler_replies (w : World.t) (body : UploadBody.t) (s : MultiBucket) :
  match (post_generate_upload_url w body s).1 with
  | Json result =>
      truthy_str (UploadBody.filename body) = true ∧
      truthy_str (UploadBody.contentType body) = true ∧
      generateUploadUrl w (upload_options_of body) s =
        (Ok result, (post_generate_upload_url w body s).2)
  | Status code error =>
      (code = 400 ∧
       (truthy_str (UploadBody.filename body) = false ∨
        truthy_str (UploadBody.contentType body) = false) ∧
       (post_generate_upload_url w body s).2 = s) ∨
      (code = 500 ∧
       truthy_str (UploadBody.filename body) = true ∧
       truthy_str (UploadBody.contentType body) = true ∧
       ∃ cause, error = "Failed to generate upload URL: " +:+ cause ∧
                generateUploadUrl w (upload_options_of body) s =
                  (Throw (Error error None), (post_generate_upload_url w body s).2))
  end.
Proof.
  unfold post_generate_upload_url. fold (upload_options_of body).
  destruct (truthy_str (UploadBody.filename body)); simpl.
  2: { left. auto. }
  destruct (truthy_str (UploadBody.contentType body)); simpl.
  2: { left. auto. }
  unfold generateUploadUrl.
  destruct (generateUploadUrl_try w (upload_options_of body) s) as [[r|e] s1]; simpl; [done|].
  right. repeat (split; [done|]). by eexists.
Qed.

(** X23.  The replies of [POST /generate-read-url]: status 400 exactly when
    [key] is missing or empty; a body with a key but neither [providerId]
    nor [bucket] is answered with status 500, whatever the registry holds;
    and a 200 reply repeats the key of the body. *)
Theorem read_handler_replies (w : ReadWorld.t) (body : ReadBody.t) (s : MultiBucket) :
  (truthy_str (ReadBody.key body) = false ↔
   ∃ error, post_generate_read_url w body s = Status 400 error) ∧
  (truthy_str (ReadBody.key body) = true →
   truthy_str (ReadBody.providerId body) = false →
   truthy_str (ReadBody.bucket body) = false →
   post_generate_read_url w body s =
   Status 500 ("Failed to generate read URL: "
               +:+ "Provider not found. Please specify a valid providerId or bucket")) ∧
  (∀ result, post_generate_read_url w body s = Json result →
             ReadBody.key body = Some (ReadUrl.key result) ∧
             ∃ p, p ∈ providers s ∧ ReadUrl.provider result = Provider.id p).
Proof.
  unfold post_generate_read_url.
  destruct (truthy_str (ReadBody.key body)) eqn:Hkey; simpl.
  - split; [|split].
    + split; [done|]. intros [error Herr].
      destruct (generateReadUrl _ _ _); [done|]. by injection Herr.
    + intros _ Hid Hbucket. unfold generateReadUrl, generateReadUrl_try, read_provider.
      simpl. by rewrite Hid, Hbucket.
    + intros result. unfold generateReadUrl, generateReadUrl_try.
      destruct (read_provider _ s) as [p|] eqn:Hread; [|done].
      destruct (createClient p) as [client|e]; simpl; [|done].
      destruct (ReadWorld.getSignedUrl w client _ _); simpl; [|done].
      destruct (toISOString _); simpl; [|done].
      intros [= <-]. simpl. split.
      * destruct (ReadBody.key body) as [[|]|]; done.
      * exists p. split; [|done]. unfold read_provider in Hread. simpl in Hread.
        destruct (truthy_str (ReadBody.providerId body)).
        { apply find_some in Hread as [Hin _]. by apply list_elem_of_In. }
        destruct (truthy_str (ReadBody.bucket body)); [|done].
        apply find_some in Hread as [Hin _]. by apply list_elem_of_In.
  - split; [|split]; [|done..]. split; [by eexists | done].
Qed.

Lemma read_handler_replies_witness :
  post_generate_read_url Lookup.world Anonymous.body Reload.session2 =
  Status 500 ("Failed to generate read URL: "
              +:+ "Provider not found. Please specify a valid providerId or bucket").
Proof.
  apply (proj1 (proj2 (read_handler_replies Lookup.world Anonymous.body Reload.session2)));
    reflexivity.
Defined.

(** * server.js: the request limiter *)

Lemma rate_limit_middleware_in_window (ip : string) (now : Z)
    (apiRateLimit : gmap string Window.t) (c r : Z) :
  apiRateLimit !! ip = Some {| Window.count := c; Window.resetTime := r |} →
  (now ≤ r)%Z →
  rate_limit_middleware ip now apiRateLimit =
  (bool_decide (c < 100)%Z,
   <[ip := {| Window.count := c + 1; Window.resetTime := r |}]> apiRateLimit).
Proof.
  intros Hip Hnow. unfold rate_limit_middleware. rewrite Hip. simpl.
  destruct (now >? r)%Z eqn:Hgt; [lia|]. simpl. f_equal.
  case_bool_decide; destruct (c + 1 >? 100)%Z eqn:E; simpl; try done; lia.
Qed.

Lemma serve_cons (ip : string) (now : Z) (times : list Z)
    (apiRateLimit : gmap string Window.t) :
  serve ip (now :: times) apiRateLimit =
  ((rate_limit_middleware ip now apiRateLimit).1
     :: (serve ip times (rate_limit_middleware ip now apiRateLimit).2).1,
   (serve ip times (rate_limit_middleware ip now apiRateLimit).2).2).
Proof.
  change (serve ip (now :: times) apiRateLimit) with
    (let (verdict, table) := rate_limit_middleware ip now apiRateLimit in
     let (verdicts, table') := serve ip times table in
     (verdict :: verdicts, table')).
  destruct (rate_limit_middleware ip now apiRateLimit) as [verdict table].
  cbn [fst snd]. by destruct (serve ip times table).
Qed.

Lemma rate_limit_middleware_other (ip other : string) (now : Z)
    (apiRateLimit : gmap string Window.t) :
  other ≠ ip → (rate_limit_middleware ip now apiRateLimit).2 !! other = apiRateLimit !! other.
Proof. intros Hne. unfold rate_limit_middleware. simpl. by rewrite lookup_insert_ne. Qed.

Lemma serve_in_window (ip : string) (times : list Z)
    (apiRateLimit : gmap string Window.t) (c r : Z) :
  apiRateLimit !! ip = Some {| Window.count := c; Window.resetTime := r |} →
  (∀ now, now ∈ times → (now ≤ r)%Z) →
  (serve ip times apiRateLimit).1 =
    (λ k, bool_decide (c + Z.of_nat k < 100)%Z) <$> seq 0 (length times) ∧
  (serve ip times apiRateLimit).2 !! ip =
    Some {| Window.count := c + Z.of_nat (length times); Window.resetTime := r |}.
Proof.
  revert apiRateLimit c. induction times as [|now times IH]; intros apiRateLimit c Hip Hin.
  { simpl. rewrite Hip. split; [done|]. do 2 f_equal. lia. }
  rewrite serve_cons, (rate_limit_middleware_in_window ip now apiRateLimit c r Hip)
    by (apply Hin; by left).
  opose proof* (IH (<[ip := {| Window.count := c + 1; Window.resetTime := r |}]> apiRateLimit)
                   (c + 1)%Z) as [Hv Ht].
  { by rewrite lookup_insert_eq. }
  { intros t Ht. apply Hin. by right. }
  cbn [fst snd length seq fmap list_fmap]. split.
  - rewrite Z.add_0_r. f_equal. rewrite Hv, <- fmap_S_seq, <- list_fmap_compose.
    apply list_fmap_ext. intros _ k _. simpl. apply bool_decide_ext. lia.
  - rewrite Ht. do 2 f_equal. lia.
Qed.

(** X24.  One window of the limiter.  For a client the table does not
    know, the first request opens a window of 60000 ms; of the requests
    that arrive until the window ends, whatever their number, the first
    100 (the opening one included) are passed on and all later ones are
    answered with 429; rejected requests are counted but do not move the
    end of the window; and the first request after the end is passed on
    again. *)
Theorem limiter_window (ip : string) (t0 : Z) (times : list Z)
    (apiRateLimit : gmap string Window.t) :
  apiRateLimit !! ip = None →
  (∀ now, now ∈ times → (now ≤ t0 + 60000)%Z) →
  (serve ip (t0 :: times) apiRateLimit).1 =
    (λ k, bool_decide (k < 100)) <$> seq 0 (S (length times)) ∧
  (serve ip (t0 :: times) apiRateLimit).2 !! ip =
    Some {| Window.count := Z.of_nat (S (length times));
            Window.resetTime := t0 + 60000 |} ∧
  ∀ later, (t0 + 60000 < later)%Z →
    (rate_limit_middleware ip later (serve ip (t0 :: times) apiRateLimit).2).1 = true.
Proof.
  intros Hnew Hin.
  set (table := <[ip := {| Window.count := 0; Window.resetTime := t0 + 60000 |}]>
                  apiRateLimit).
  assert (serve ip (t0 :: times) apiRateLimit = serve ip (t0 :: times) table) as ->.
  { rewrite !serve_cons. unfold rate_limit_middleware. subst table.
    rewrite Hnew, lookup_insert_eq. simpl. by rewrite insert_insert_eq. }
  destruct (serve_in_window ip (t0 :: times) table 0 (t0 + 60000)) as [Hv Ht].
  { subst table. by rewrite lookup_insert_eq. }
  { intros now [->|Hnow]%elem_of_cons; [lia | by apply Hin]. }
  split; [|split].
  - rewrite Hv. apply list_fmap_ext. intros _ k _. simpl.
    apply bool_decide_ext. lia.
  - by rewrite Ht.
  - intros later Hlater. unfold rate_limit_middleware. rewrite Ht. simpl.
    destruct (later >? t0 + 60000)%Z eqn:Hgt; [done | lia].
Qed.

Lemma limiter_window_witness :
  (serve "203.0.113.7" (1000000%Z :: Burst.times) ∅).1 =
    (λ k, bool_decide (k < 100)) <$> seq 0 (S (length Burst.times)) ∧
  (serve "203.0.113.7" (1000000%Z :: Burst.times) ∅).2 !! "203.0.113.7" =
    Some {| Window.count := Z.of_nat (S (length Burst.times));
            Window.resetTime := 1000000 + 60000 |} ∧
  ∀ later, (1000000 + 60000 < later)%Z →
    (rate_limit_middleware "203.0.113.7" later
       (serve "203.0.113.7" (1000000%Z :: Burst.times) ∅).2).1 = true.
Proof.
  apply (limiter_window "203.0.113.7" 1000000 Burst.times ∅).
  - reflexivity.
  - intros now Hnow. unfold Burst.times in Hnow.
    apply list_elem_of_fmap in Hnow as (k & -> & Hk).
    apply elem_of_seq in Hk. lia.
Defined.

(** X25.  Clients are limited separately and entries only accumulate: the
    requests of one client leave the window of every other client as it
    was, the verdicts depend on the client's own entry only, and no entry
    of the table is ever removed. *)
Theorem limiter_per_client (ip : string) (times : list Z)
    (apiRateLimit : gmap string Window.t) :
  (∀ other, other ≠ ip →
            (serve ip times apiRateLimit).2 !! other = apiRateLimit !! other) ∧
  (∀ apiRateLimit', apiRateLimit' !! ip = apiRateLimit !! ip →
                    (serve ip times apiRateLimit').1 = (serve ip times apiRateLimit).1) ∧
  dom apiRateLimit ⊆ dom (serve ip times apiRateLimit).2.
Proof.
  split; [|split].
  - intros other Hother. revert apiRateLimit.
    induction times as [|now times IH]; intros apiRateLimit; [done|].
    rewrite serve_cons. cbn [fst snd]. by rewrite IH, rate_limit_middleware_other.
  - revert apiRateLimit. induction times as [|now times IH];
      intros apiRateLimit apiRateLimit' Heq; [done|].
    rewrite !serve_cons. cbn [fst snd].
    assert (∃ limit, rate_limit_middleware ip now apiRateLimit' =
                       ((rate_limit_middleware ip now apiRateLimit).1,
                        <[ip := limit]> apiRateLimit') ∧
                     (rate_limit_middleware ip now apiRateLimit).2 =
                       <[ip := limit]> apiRateLimit) as (limit & -> & ->).
    { unfold rate_limit_middleware. rewrite Heq. by eexists. }
    cbn [fst snd]. f_equal. apply IH. by rewrite !lookup_insert_eq.
  - revert apiRateLimit. induction times as [|now times IH]; intros apiRateLimit; [done|].
    rewrite serve_cons. cbn [fst snd]. etrans; [|apply IH].
    unfold rate_limit_middleware. simpl. rewrite dom_insert. apply union_subseteq_r.
Qed.

Lemma limiter_per_client_witness :
  (serve "203.0.113.7" Burst.times ∅).2 !! "198.51.100.2" =
  (∅ : gmap string Window.t) !! "198.51.100.2".
Proof.
  apply (proj1 (limiter_per_client "203.0.113.7" Burst.times ∅) "198.51.100.2").
  discriminate.
Defined.

(** * server.js: the API-key check *)

Lemma substring_all (s : string) : String.substring 0 (String.length s) s = s.
Proof. induction s as [|c s IH]; [done|]. simpl. by rewrite IH. Qed.

Lemma replace_first_Bearer (k : string) :
  replace_first "Bearer " EmptyString ("Bearer " +:+ k) = k.
Proof.
  destruct k as [|c k]; [done|].
  change (replace_first "Bearer " EmptyString ("Bearer " +:+ String c k)) with
    (String c (String.substring 0 (String.length k) k)).
  by rewrite substring_all.
Qed.

(** X26.  A bearer token decides alone: for a non-empty [k], a request
    with the header [Authorization: Bearer k] is passed on exactly when
    [k] is one of [apiKeys]; the [apiKey] of the query string is not
    looked at, so a valid query key does not make up for a wrong
    header. *)
Theorem authenticate_bearer (apiKeys : list string) (k : string)
    (queryApiKey : option string) :
  k ≠ EmptyString →
  authenticate apiKeys (Some ("Bearer " +:+ k)) queryApiKey = bool_decide (k ∈ apiKeys).
Proof.
  intros Hk. unfold authenticate, presented_key.
  cbn [fmap option_fmap option_map]. rewrite replace_first_Bearer.
  destruct k as [|c k]; [done|]. simpl.
  by rewrite negb_involutive.
Qed.

Lemma authenticate_bearer_witness :
  authenticate ["test-api-key"] (Some ("Bearer " +:+ "wrong-key")) (Some "test-api-key") =
  bool_decide ("wrong-key" ∈ ["test-api-key"]).
Proof.
  apply (authenticate_bearer ["test-api-key"] "wrong-key" (Some "test-api-key")).
  discriminate.
Defined.

(** X27.  No request passes without a key: [authenticate] passes a request
    on exactly when the key it presents (the header with its first
    "Bearer " removed or, when that is missing or empty, the query
    parameter) is a non-empty member of [apiKeys]; an empty string among
    [apiKeys] admits nobody. *)
Theorem authenticate_passes (apiKeys : list string)
    (authorization queryApiKey : option string) :
  authenticate apiKeys authorization queryApiKey = true ↔
  ∃ k, k ≠ EmptyString ∧ k ∈ apiKeys ∧
       presented_key authorization queryApiKey = Some k.
Proof.
  unfold authenticate.
  destruct (presented_key authorization queryApiKey) as [[|c k]|]; simpl.
  - split; [done|]. by intros (k & Hk & _ & [= <-]).
  - rewrite negb_involutive, bool_decide_eq_true. split.
    + intros Hin. by exists (String c k).
    + by intros (k' & _ & Hin & [= <-]).
  - split; [done|]. by intros (k & _ & _ & [=]).
Qed.
